(** * PSAC: parallel self-adjusting computation

    A shallow embedding of the runtime in [include/psac]: marked pointers
    ([marked_ptr.h]), the reader sets ([concurrent_set.hpp], the default, and
    [reader_set.hpp], selected by [PSAC_USE_TREE_READER_SET]), modifiables,
    SP trace nodes, the garbage collector and change propagation
    ([types.hpp]) and the trace-building macros ([core.hpp]).

    Conventions.
    - Addresses are integers; [0] is [nullptr].  Owning pointers
      ([std::unique_ptr]) are [option Z]; the marked parent pointer is the raw
      machine word.
    - Assertions are compiled in (the guard the sources test is [DNDEBUG],
      which no build flag defines); a failed assertion or a dereference of a
      dangling or null pointer is [Fault].
    - [parlay::par_do l r] is run as [l] then [r], one of the schedules the
      fork-join scheduler may produce.
    - Recursion that the sources do not bound is given fuel; running out of it
      is [Timeout], which is distinct from [Fault]. *)

From Stdlib Require Import ZArith Lia Bool List.
From stdpp Require Import base option gmap list sorting.

Local Open Scope Z_scope.

(** ** Results of partial computations *)

Inductive res (A : Type) : Type :=
| Done (a : A)
| Fault
| Timeout.
Arguments Done {A} a.
Arguments Fault {A}.
Arguments Timeout {A}.

#[global] Instance res_ret : MRet res := @Done.
#[global] Instance res_bind : MBind res := λ A B f m,
  match m with
  | Done a => f a
  | Fault => Fault
  | Timeout => Timeout
  end.

Definition cassert (b : bool) : res unit := if b then Done tt else Fault.

Lemma res_bind_Done {A B} (m : res A) (f : A → res B) (b : B) :
  m ≫= f = Done b → ∃ a, m = Done a ∧ f a = Done b.
Proof. destruct m; simpl; intros H; try discriminate. eauto. Qed.

Lemma cassert_Done b u : cassert b = Done u → b = true.
Proof. destruct b; simpl; [done | discriminate]. Qed.

(** ** marked_ptr.h *)

Module marked_ptr.

Definition ONE_BIT : Z := 1.
Definition TWO_BIT : Z := Z.shiftl 1 1.

(** [ptr & ~(ONE_BIT | TWO_BIT)]; on a 64-bit word the complement is
    [2^64 - 4], which agrees with [Z.lnot 3] on every [0 <= ptr < 2^64]. *)
Definition get_ptr (ptr : Z) : Z := Z.land ptr (Z.lnot (Z.lor ONE_BIT TWO_BIT)).
Definition get_mark (ptr : Z) : Z := Z.land ptr (Z.lor ONE_BIT TWO_BIT).
Definition clear_mark (ptr : Z) : Z := Z.land ptr (Z.lnot (Z.lor ONE_BIT TWO_BIT)).
Definition set_mark (ptr mark : Z) : Z := Z.lor (clear_mark ptr) mark.
(** [operator bool] *)
Definition to_bool (ptr : Z) : bool := negb (get_ptr ptr =? 0).
(** the conversion [bool -> uintptr_t] applied at [set_mark(dirty)] *)
Definition of_bool (b : bool) : Z := if b then 1 else 0.

Lemma get_mark_set_mark ptr b : get_mark (set_mark ptr (of_bool b)) = of_bool b.
Proof.
  unfold get_mark, set_mark, clear_mark, ONE_BIT, TWO_BIT.
  change (Z.lor 1 (Z.shiftl 1 1)) with 3.
  rewrite Z.land_lor_distr_l, <- Z.land_assoc.
  change (Z.land (Z.lnot 3) 3) with 0. rewrite Z.land_0_r, Z.lor_0_l.
  by destruct b.
Qed.

Lemma get_ptr_set_mark ptr b : get_ptr (set_mark ptr (of_bool b)) = get_ptr ptr.
Proof.
  unfold get_ptr, set_mark, clear_mark, ONE_BIT, TWO_BIT.
  change (Z.lor 1 (Z.shiftl 1 1)) with 3.
  rewrite Z.land_lor_distr_l, <- Z.land_assoc, Z.land_diag.
  destruct b; simpl of_bool.
  - change (Z.land 1 (Z.lnot 3)) with 0. apply Z.lor_0_r.
  - change (Z.land 0 (Z.lnot 3)) with 0. apply Z.lor_0_r.
Qed.

Lemma get_mark_aligned a : a mod 4 = 0 → get_mark a = 0.
Proof.
  intros H. unfold get_mark, ONE_BIT, TWO_BIT.
  change (Z.lor 1 (Z.shiftl 1 1)) with (Z.ones 2).
  rewrite Z.land_ones by lia. exact H.
Qed.

Lemma get_ptr_aligned a : a mod 4 = 0 → get_ptr a = a.
Proof.
  intros H. unfold get_ptr, ONE_BIT, TWO_BIT.
  change (Z.lor 1 (Z.shiftl 1 1)) with (Z.ones 2).
  rewrite <- Z.ldiff_land, Z.ldiff_ones_r by lia.
  rewrite Z.shiftl_mul_pow2 by lia. change (2 ^ 2) with 4.
  rewrite Z.shiftr_div_pow2 by lia. change (2 ^ 2) with 4.
  pose proof (Z.div_mod a 4). lia.
Qed.

End marked_ptr.

(** ** concurrent_set.hpp: the linked-list reader set (default build)

  The union of [ptr_value], [single_item] and [head] is a tagged word:
  [0] is the empty set, a word with bit 0 clear is the single reader stored
  inline, a word with bit 0 set points to the list.  A list node is private
  to its set, so the list is the sequence of its nodes, head first; the
  [next] field of the last node is [nullptr].  Operations are the
  sequential executions, in which every compare-and-swap succeeds. *)

Module ConcurrentReaderSet.

Record Node := { value : Z; deleted : bool }.

Inductive t :=
| Empty
| Single (single_item : Z)
| Linked (head : list Node).

Definition make_node (v : Z) : Node := {| value := v; deleted := false |}.

Definition insert_another (v : Z) (l : list Node) : t := Linked (make_node v :: l).

Definition insert (v : Z) (rs : t) : res t :=
  _ ← cassert (negb (v =? 0));
  match rs with
  | Empty => Done (Single v)
  | Single head_item => Done (insert_another v [make_node head_item])
  | Linked l => Done (insert_another v l)
  end.

(** The walk of [remove_another]: the first node holding [v] is marked,
    whether or not it was marked before. *)
Fixpoint remove_another (v : Z) (l : list Node) : res (list Node) :=
  match l with
  | [] => Fault
  | node :: next =>
      if value node =? v then Done ({| value := value node; deleted := true |} :: next)
      else next' ← remove_another v next; Done (node :: next')
  end.

Definition remove (v : Z) (rs : t) : res t :=
  _ ← cassert (negb (v =? 0));
  match rs with
  | Empty => Fault
  | Single item => _ ← cassert (item =? v); Done Empty
  | Linked l => l' ← remove_another v l; Done (Linked l')
  end.

(** The traversal loop of [for_all]: the readers [f] is applied to, in
    order, and the nodes that stay linked. *)
Fixpoint for_all_loop (l : list Node) : list Z * list Node :=
  match l with
  | [] => ([], [])
  | node :: next =>
      let '(vs, keep) := for_all_loop next in
      if deleted node then (vs, keep) else (value node :: vs, node :: keep)
  end.

(** [for_all f]: the arguments of the calls to [f] and the set afterwards.
    When every node was unlinked, [head] holds the [nullptr] that was the
    last node's [next], which is the empty word. *)
Definition for_all (rs : t) : list Z * t :=
  match rs with
  | Empty => ([], Empty)
  | Single item => ([item], Single item)
  | Linked l =>
      let '(vs, keep) := for_all_loop l in
      (vs, match keep with [] => Empty | _ => Linked keep end)
  end.

Definition empty (rs : t) : bool * t :=
  let '(_, rs') := for_all rs in
  (match rs' with Empty => true | _ => false end, rs').

(** The tag bit of the word: set exactly in the list state. *)
Definition tag_bit (rs : t) : bool :=
  match rs with
  | Linked _ => true
  | _ => false
  end.

End ConcurrentReaderSet.

(** ** reader_set.hpp: the reader set as a hashed tree

    The [ConcurrentReaderSet] that [types.hpp] includes when
    [PSAC_USE_TREE_READER_SET] is defined.  The word is [0], an inline
    reader (low bit clear), or a tree root with the low bit set; the tree is
    owned by the set, so it is an inductive tree here and [Null] is
    [nullptr].  Subtree sizes and buffer offsets are [size_t] counts of
    allocated nodes, kept in [nat]. *)
Module TreeReaderSet.

Inductive Node :=
| Null
| Nd (key : Z) (value : Z) (left right : Node) (size : nat) (deleted : bool).

Inductive t :=
| Empty
| Single (single_item : Z)
| Tree (root : Node).

Definition wrap64 (z : Z) : Z := z mod 2 ^ 64.

Definition hash64 (u : Z) : Z :=
  let v := wrap64 (u * 3935559000370003845 + 2691343689449507681) in
  let v := Z.lxor v (Z.shiftr v 21) in
  let v := Z.lxor v (wrap64 (Z.shiftl v 37)) in
  let v := Z.lxor v (Z.shiftr v 4) in
  let v := wrap64 (v * 4768777513237032717) in
  let v := Z.lxor v (wrap64 (Z.shiftl v 20)) in
  let v := Z.lxor v (Z.shiftr v 41) in
  let v := Z.lxor v (wrap64 (Z.shiftl v 5)) in
  v.

Definition hash (v : Z) : Z := hash64 (wrap64 v).

(** [new Node(value)] *)
Definition new_Node (v : Z) : Node := Nd (hash v) v Null Null 1 false.

(** The descent of [insert_tree]: the new node is stored in the first empty
    child slot on its search path. *)
Fixpoint insert_tree_loop (new_node : Node) (new_key : Z) (curr_node : Node) : Node :=
  match curr_node with
  | Null => new_node
  | Nd k x l r sz d =>
      if new_key <=? k then Nd k x (insert_tree_loop new_node new_key l) r sz d
      else Nd k x l (insert_tree_loop new_node new_key r) sz d
  end.

Definition insert_tree (v : Z) (root : Node) : res Node :=
  _ ← cassert (negb (v =? 0));
  match root with
  | Null => Fault
  | _ => Done (insert_tree_loop (new_Node v) (hash v) root)
  end.

Definition insert_single (v : Z) : res t :=
  _ ← cassert (negb (v =? 0)); Done (Single v).

Definition insert (v : Z) (rs : t) : res t :=
  match rs with
  | Empty => insert_single v
  | Single head_item => root ← insert_tree v (new_Node head_item); Done (Tree root)
  | Tree root => root ← insert_tree v root; Done (Tree root)
  end.

(** [remove_tree]: the first node on the search path that holds [v] is
    marked. *)
Fixpoint remove_tree (v key_ : Z) (node : Node) : res Node :=
  match node with
  | Null => Fault
  | Nd k x l r sz d =>
      if x =? v then Done (Nd k x l r sz true)
      else if key_ <=? k then l ← remove_tree v key_ l; Done (Nd k x l r sz d)
      else r ← remove_tree v key_ r; Done (Nd k x l r sz d)
  end.

Definition remove (v : Z) (rs : t) : res t :=
  _ ← cassert (negb (v =? 0));
  match rs with
  | Empty => Fault
  | Single item => _ ← cassert (item =? v); Done Empty
  | Tree root => root ← remove_tree v (hash v) root; Done (Tree root)
  end.

Definition alive_of (d : bool) : nat := if d then 0%nat else 1%nat.

(** [compute_tree_size]: the number of unmarked nodes, stored in every
    node's [size] on the way. *)
Fixpoint compute_tree_size (node : Node) : res (nat * Node) :=
  match node with
  | Null => Fault
  | Nd k x l r _ d =>
      let alive := alive_of d in
      match l, r with
      | Null, Null => Done (alive, Nd k x Null Null alive d)
      | Null, _ =>
          '(right_size, r) ← compute_tree_size r;
          Done ((alive + right_size)%nat, Nd k x Null r (alive + right_size) d)
      | _, Null =>
          '(left_size, l) ← compute_tree_size l;
          Done ((alive + left_size)%nat, Nd k x l Null (alive + left_size) d)
      | _, _ =>
          '(left_size, l) ← compute_tree_size l;
          '(right_size, r) ← compute_tree_size r;
          Done ((alive + left_size + right_size)%nat,
                Nd k x l r (alive + left_size + right_size) d)
      end
  end.

(** The temporary buffer: a block of uninitialised slots. *)
Abbreviation buffer := (list (option Z)).

Definition store (i : nat) (v : Z) (b : buffer) : res buffer :=
  if decide (i < length b)%nat then Done (<[i := Some v]> b) else Fault.

Definition load (i : nat) (b : buffer) : res Z :=
  match b !! i with
  | Some (Some v) => Done v
  | _ => Fault
  end.

Definition size_of (node : Node) : nat :=
  match node with
  | Null => 0%nat
  | Nd _ _ _ _ sz _ => sz
  end.

Fixpoint flatten (node : Node) (b : buffer) (offset : nat) : res buffer :=
  match node with
  | Null => Fault
  | Nd k x l r _ d =>
      let alive := alive_of d in
      let left_offset := size_of l in
      b ← (if d then Done b else store (offset + left_offset) x b);
      match l, r with
      | Null, Null => Done b
      | _, Null => flatten l b offset
      | Null, _ => flatten r b (offset + left_offset + alive)
      | _, _ =>
          b ← flatten l b offset;
          flatten r b (offset + left_offset + alive)
      end
  end.

Fixpoint _size (node : Node) : nat :=
  match node with
  | Null => 0%nat
  | Nd _ _ l r _ _ => (1 + _size l + _size r)%nat
  end.

Fixpoint _height (node : Node) : nat :=
  match node with
  | Null => 0%nat
  | Nd _ _ l r _ _ => (1 + Nat.max (_height l) (_height r))%nat
  end.

(** [build_tree(buffer, i, j)]; the recursion is on [j - i], which the fuel
    bounds. *)
Fixpoint build_tree (fuel : nat) (b : buffer) (i j : nat) : res Node :=
  match fuel with
  | O => if (j <=? i)%nat then Done Null else Timeout
  | S fuel =>
      if (j <=? i)%nat then Done Null
      else if (i =? j - 1)%nat then v ← load i b; Done (new_Node v)
      else
        let mid := (i + (j - i) / 2)%nat in
        v ← load mid b;
        l ← build_tree fuel b i mid;
        r ← build_tree fuel b (mid + 1) j;
        Done (Nd (hash v) v l r 1 false)
  end.

(** The callbacks of the [parallel_for] over the buffer, in index order. *)
Fixpoint read_all (b : buffer) : res (list Z) :=
  match b with
  | [] => Done []
  | Some v :: b => _ ← cassert (negb (v =? 0)); vs ← read_all b; Done (v :: vs)
  | None :: _ => Fault
  end.

(** [for_all f]: the arguments of the calls to [f] and the set afterwards. *)
Definition for_all (fuel : nat) (rs : t) : res (list Z * t) :=
  match rs with
  | Empty => Done ([], Empty)
  | Single item => _ ← cassert (negb (item =? 0)); Done ([item], Single item)
  | Tree node =>
      '(size, node) ← compute_tree_size node;
      flattened ← flatten node (replicate size None) 0;
      vs ← read_all flattened;
      if (size =? 0)%nat then Done (vs, Empty)
      else if (size =? 1)%nat then item ← load 0 flattened; Done (vs, Single item)
      else
        new_root ← build_tree fuel flattened 0 size;
        _ ← cassert (match new_root with Null => false | _ => true end);
        '(new_size, new_root) ← compute_tree_size new_root;
        _ ← cassert (new_size =? size)%nat;
        Done (vs, Tree new_root)
  end.

Definition empty (fuel : nat) (rs : t) : res (bool * t) :=
  '(_, rs) ← for_all fuel rs;
  Done (match rs with Empty => true | _ => false end, rs).

(** The word of the inline states, and the tag bit of the word: set exactly
    in the tree state, given that readers are at even addresses. *)
Definition tag_bit (rs : t) : bool :=
  match rs with
  | Tree _ => true
  | Single item => Z.odd item
  | Empty => false
  end.

End TreeReaderSet.

(** ** types.hpp and core.hpp: modifiables, trace nodes, builder, propagation *)

Module CRS := ConcurrentReaderSet.

Section psac.

(** The value type of the modifiables, its [operator!=] and its
    value-initialisation [T{}]. *)
Context {T : Type}.
Variable T_ne : T → T → bool.
Variable T_zero : T.
(** [parlay::worker_id()] of the one worker of the sequential schedule *)
Variable worker_id : nat.
(** [size()] of a node, [sizeof] of its dynamic type *)
Variable sizeof_S sizeof_P sizeof_R : Z.

(** *** Self-adjusting functions

    The body of a [psac_function] is a sequence of the macros of
    [core.hpp]; host-language code between them is the Rocq function that
    computes the continuation. *)
Inductive prog : Type :=
| Ret
| Write (m : Z) (v : T) (k : prog)
| Alloc (k : Z → prog)
| Read (mods : list Z) (body : list T → prog) (k : prog)
| ReadArray (range : list Z) (body : list T → prog) (k : prog)
| DynamicContext (body : prog) (k : prog)
| DynamicContextRead (m : Z) (k : T → prog)
| Par (left_code right_code : prog) (k : prog)
| ParFor (lb ub : Z) (gran : Z) (body : Z → prog) (k : prog)
| Call (func : prog) (k : prog).

(** *** Data *)

Record Mod := {
  value : T;
  written : bool;
  readers : CRS.t;
}.

Inductive node_kind : Type :=
| SNode
| PNode
| RTupleNode (f : list T → prog) (mods : list Z)
| RArrayNode (f : list T → prog) (range : list Z)
| RScopeNode (f : prog) (mods : list Z).

Record SPNode := {
  kind : node_kind;
  dynamic_mods : list Z;       (* AnyModList, head first *)
  parent : Z;                  (* marked_ptr<SPNode> *)
  nleft : option Z;            (* std::unique_ptr<SPNode> left *)
  nright : option Z;           (* std::unique_ptr<SPNode> right *)
  pending_update : bool;       (* RNode::pending_update *)
}.

(** What an observer of a run can count: calls of [set_modified], of
    [execute], of [add_reader] and [remove_reader], and destructions. *)
Inductive event :=
| EvNotify (r : Z)
| EvExecute (r : Z)
| EvAddReader (m r : Z)
| EvRemoveReader (m r : Z)
| EvDestroyNode (n : Z)
| EvDestroyMod (m : Z).

Record state := {
  nodes : gmap Z SPNode;          (* live SPNode objects, by address *)
  mods : gmap Z Mod;              (* live Mod objects, by address *)
  garbage : list (list Z);        (* GarbageCollector::garbage *)
  brk : Z;                        (* next address the allocator hands out *)
  history : list event;
}.

Definition set_nodes (f : gmap Z SPNode → gmap Z SPNode) (s : state) : state :=
  {| nodes := f (nodes s); mods := mods s; garbage := garbage s;
     brk := brk s; history := history s |}.
Definition set_mods (f : gmap Z Mod → gmap Z Mod) (s : state) : state :=
  {| nodes := nodes s; mods := f (mods s); garbage := garbage s;
     brk := brk s; history := history s |}.
Definition set_garbage (f : list (list Z) → list (list Z)) (s : state) : state :=
  {| nodes := nodes s; mods := mods s; garbage := f (garbage s);
     brk := brk s; history := history s |}.
Definition set_brk (f : Z → Z) (s : state) : state :=
  {| nodes := nodes s; mods := mods s; garbage := garbage s;
     brk := f (brk s); history := history s |}.
Definition record (e : event) (s : state) : state :=
  {| nodes := nodes s; mods := mods s; garbage := garbage s;
     brk := brk s; history := history s ++ [e] |}.

Definition with_parent (w : Z) (nd : SPNode) : SPNode :=
  {| kind := kind nd; dynamic_mods := dynamic_mods nd; parent := w;
     nleft := nleft nd; nright := nright nd; pending_update := pending_update nd |}.
Definition with_left (l : option Z) (nd : SPNode) : SPNode :=
  {| kind := kind nd; dynamic_mods := dynamic_mods nd; parent := parent nd;
     nleft := l; nright := nright nd; pending_update := pending_update nd |}.
Definition with_right (r : option Z) (nd : SPNode) : SPNode :=
  {| kind := kind nd; dynamic_mods := dynamic_mods nd; parent := parent nd;
     nleft := nleft nd; nright := r; pending_update := pending_update nd |}.
Definition with_pending (b : bool) (nd : SPNode) : SPNode :=
  {| kind := kind nd; dynamic_mods := dynamic_mods nd; parent := parent nd;
     nleft := nleft nd; nright := nright nd; pending_update := b |}.
Definition with_dynamic_mods (l : list Z) (nd : SPNode) : SPNode :=
  {| kind := kind nd; dynamic_mods := l; parent := parent nd;
     nleft := nleft nd; nright := nright nd; pending_update := pending_update nd |}.
Definition with_kind (k : node_kind) (nd : SPNode) : SPNode :=
  {| kind := k; dynamic_mods := dynamic_mods nd; parent := parent nd;
     nleft := nleft nd; nright := nright nd; pending_update := pending_update nd |}.

Definition with_value (v : T) (md : Mod) : Mod :=
  {| value := v; written := written md; readers := readers md |}.
Definition with_written (b : bool) (md : Mod) : Mod :=
  {| value := value md; written := b; readers := readers md |}.
Definition with_readers (rs : CRS.t) (md : Mod) : Mod :=
  {| value := value md; written := written md; readers := rs |}.

(** Dereferencing *)
Definition get_node (n : Z) (s : state) : res SPNode :=
  match nodes s !! n with
  | Some nd => Done nd
  | None => Fault
  end.
Definition get_mod (m : Z) (s : state) : res Mod :=
  match mods s !! m with
  | Some md => Done md
  | None => Fault
  end.
Definition put_node (n : Z) (nd : SPNode) : state → state := set_nodes <[n := nd]>.
Definition put_mod (m : Z) (md : Mod) : state → state := set_mods <[m := md]>.

(** Assignment to a member of the node at [n] *)
Definition update_node (n : Z) (f : SPNode → SPNode) (s : state) : res state :=
  nd ← get_node n s;
  Done (put_node n (f nd) s).

(** The allocator: fresh, 8-aligned addresses. *)
Definition ALIGN : Z := 8.
Definition allocate (s : state) : Z * state := (brk s, set_brk (Z.add ALIGN) s).

(** *** SPNode *)

Definition is_dirty (nd : SPNode) : bool :=
  negb (marked_ptr.get_mark (parent nd) =? 0).

(** [SPNode::set_dirty].  The upward recursion spends fuel. *)
Fixpoint set_dirty (fuel : nat) (n : Z) (dirty : bool) (s : state) : res state :=
  nd ← get_node n s;
  let s1 := put_node n
    (with_parent (marked_ptr.set_mark (parent nd) (marked_ptr.of_bool dirty)) nd) s in
  if dirty then
    if marked_ptr.to_bool (parent nd) then
      pn ← get_node (marked_ptr.get_ptr (parent nd)) s1;
      if negb (is_dirty pn) then
        match fuel with
        | O => Timeout
        | S fuel' => set_dirty fuel' (marked_ptr.get_ptr (parent nd)) dirty s1
        end
      else Done s1
    else Done s1
  else Done s1.

(** [SPNode(parent)], [make_unique<NodeType>(parent, ...)] *)
Definition new_node (k : node_kind) (parent_ : Z) (s : state) : Z * state :=
  let '(a, s) := allocate s in
  (a, put_node a {| kind := k; dynamic_mods := []; parent := parent_;
                     nleft := None; nright := None; pending_update := false |} s).

Arguments new_node : simpl never.

(** *** GarbageCollector *)

Definition GarbageCollector_add (node : Z) (s : state) : res state :=
  match garbage s !! worker_id with
  | Some pile => Done (set_garbage <[worker_id := pile ++ [node]]> s)
  | None => Fault
  end.

Definition gc_opt (o : option Z) (s : state) : res state :=
  match o with
  | Some node => GarbageCollector_add node s
  | None => Done s
  end.

(** *** ModBase, Mod *)

Definition add_reader (m r : Z) (s : state) : res state :=
  md ← get_mod m s;
  _ ← cassert (written md);
  rs ← CRS.insert r (readers md);
  Done (record (EvAddReader m r) (put_mod m (with_readers rs md) s)).

Definition remove_reader (m r : Z) (s : state) : res state :=
  md ← get_mod m s;
  _ ← cassert (written md);
  rs ← CRS.remove r (readers md);
  Done (record (EvRemoveReader m r) (put_mod m (with_readers rs md) s)).

(** [RNode::set_modified] *)
Definition set_modified (fuel : nat) (r : Z) (s : state) : res state :=
  nd ← get_node r s;
  set_dirty fuel r true (record (EvNotify r) (put_node r (with_pending true nd) s)).

Fixpoint for_each {A} (f : A → state → res state) (l : list A) (s : state) : res state :=
  match l with
  | [] => Done s
  | x :: l' => s' ← f x s; for_each f l' s'
  end.

(** [ModBase::notify_readers]: the traversal compacts the reader set and
    calls [set_modified] on the surviving readers. *)
Definition notify_readers (fuel : nat) (m : Z) (s : state) : res state :=
  md ← get_mod m s;
  let '(rs, set') := CRS.for_all (readers md) in
  for_each (set_modified fuel) rs (put_mod m (with_readers set' md) s).

(** [Mod<T>::write] *)
Definition Mod_write (fuel : nat) (m : Z) (new_value : T) (s : state) : res state :=
  md ← get_mod m s;
  if negb (written md) || T_ne (value md) new_value then
    s1 ← notify_readers fuel m (put_mod m (with_value new_value md) s);
    md1 ← get_mod m s1;
    Done (put_mod m (with_written true md1) s1)
  else Done s.

(** [Mod<T>::Mod()] *)
Definition Mod_new : Mod := {| value := T_zero; written := false; readers := CRS.Empty |}.

(** [SPNode::alloc<T>]: [dynamic_mods.push<T>()] *)
Definition alloc (n : Z) (s : state) : res (Z * state) :=
  nd ← get_node n s;
  let '(a, s) := allocate s in
  Done (a, put_node n (with_dynamic_mods (a :: dynamic_mods nd) nd) (put_mod a Mod_new s)).

(** [SPNode::make_left<NodeType>], [make_right<NodeType>], [set_left] *)
Definition make_left (k : node_kind) (n : Z) (s : state) : res (Z * state) :=
  nd ← get_node n s;
  s ← gc_opt (nleft nd) s;
  let '(a, s) := new_node k n s in
  nd ← get_node n s;
  Done (a, put_node n (with_left (Some a) nd) s).

Definition make_right (k : node_kind) (n : Z) (s : state) : res (Z * state) :=
  nd ← get_node n s;
  s ← gc_opt (nright nd) s;
  let '(a, s) := new_node k n s in
  nd ← get_node n s;
  Done (a, put_node n (with_right (Some a) nd) s).

Definition set_left (n : Z) (node : option Z) (s : state) : res state :=
  nd ← get_node n s;
  s ← gc_opt (nleft nd) s;
  Done (put_node n (with_left node nd) s).

Definition set_right (n : Z) (node : option Z) (s : state) : res state :=
  nd ← get_node n s;
  s ← gc_opt (nright nd) s;
  Done (put_node n (with_right node nd) s).

(** [make_read_tuple_node], [make_read_array_node]: the constructor of the
    new node registers it with each modifiable, then it becomes the left
    child. *)
Definition make_read_node (k : node_kind) (deps : list Z) (n : Z) (s : state)
  : res (Z * state) :=
  nd ← get_node n s;
  s ← gc_opt (nleft nd) s;
  let '(a, s) := new_node k n s in
  s ← for_each (λ m, add_reader m a) deps s;
  nd ← get_node n s;
  Done (a, put_node n (with_left (Some a) nd) s).

Definition make_read_tuple_node (f : list T → prog) (ms : list Z) :=
  make_read_node (RTupleNode f ms) ms.
Definition make_read_array_node (f : list T → prog) (range : list Z) :=
  make_read_node (RArrayNode f range) range.
Definition make_scope_read_node (f : prog) :=
  make_read_node (RScopeNode f []) [].

(** The values [mods->value...] handed to a reader function *)
Fixpoint read_values (ms : list Z) (s : state) : res (list T) :=
  match ms with
  | [] => Done []
  | m :: ms' =>
      md ← get_mod m s;
      vs ← read_values ms' s;
      Done (value md :: vs)
  end.

(** The merge loop of [RScopeNode::execute] over the old, sorted [mods]
    and the sorted [new_mods]. *)
Fixpoint merge_readers (r : Z) (old new : list Z) (s : state) {struct old} : res state :=
  let fix rest (new : list Z) (s : state) {struct new} : res state :=
    match new with
    | [] =>
        match old with
        | [] => Done s
        | x :: old' => s ← remove_reader x r s; merge_readers r old' [] s
        end
    | y :: new' =>
        match old with
        | [] => s ← add_reader y r s; rest new' s
        | x :: old' =>
            if x =? y then merge_readers r old' new' s
            else if x <? y then s ← remove_reader x r s; merge_readers r old' new s
            else s ← add_reader y r s; rest new' s
        end
    end in
  rest new s.

(** *** The trace cursor of core.hpp

    Every macro receives [_node], a pointer to an owning slot, and [_parent].
    The slot is either one that holds the node [n] ([AtNode n]: the root
    slot, a child slot of a P node, the slot of a reader node or the local
    slot of a loop leaf), or the [right] member of the node [_parent]
    ([AtRight]), which the epilogue of a macro asserts to be empty. *)
Inductive cursor :=
| AtNode (n : Z)
| AtRight (parent_ : Z).

(** The common prologue of the macros: the slot is read, and an empty slot
    is filled with an S node whose parent is [_parent].  Every macro goes on
    to dereference the node in the slot, which therefore has to be live. *)
Definition materialize (cur : cursor) (s : state) : res (Z * state) :=
  match cur with
  | AtNode n => _ ← get_node n s; Done (n, s)
  | AtRight p =>
      pn ← get_node p s;
      match nright pn with
      | Some n => _ ← get_node n s; Done (n, s)
      | None =>
          _ ← cassert (negb (p =? 0));
          let '(a, s) := new_node SNode p s in
          pn ← get_node p s;
          Done (a, put_node p (with_right (Some a) pn) s)
      end
  end.

(** The common epilogue: [_parent] becomes the node in the slot, [_node] the
    address of its [right] slot, which is asserted to be empty. *)
Definition advance (n : Z) (s : state) : res cursor :=
  nd ← get_node n s;
  _ ← cassert (match nright nd with None => true | Some _ => false end);
  Done (AtRight n).

(** [_psac_seq_for] and [_psac_par_for]; [f node i] runs the loop body for
    index [i] with the cursor at the fresh S node [node].  The integer
    division of C++ truncates. *)
Fixpoint _psac_seq_for {A} (fuel : nat) (f : Z → Z → A → state → res (A * state))
    (parent_ lo hi : Z) (a : A) (s : state) : res (A * Z * state) :=
  match fuel with
  | O => Timeout
  | S fuel' =>
      if lo =? hi - 1 then
        let '(node, s) := new_node SNode parent_ s in
        '(a, s) ← f node lo a s;
        Done (a, node, s)
      else
        let '(node, s) := new_node SNode parent_ s in
        let mid := lo + Z.quot (hi - lo) 2 in
        '(a, l, s) ← _psac_seq_for fuel' f node lo mid a s;
        nd ← get_node node s;
        let s := put_node node (with_left (Some l) nd) s in
        '(a, r, s) ← _psac_seq_for fuel' f node mid hi a s;
        nd ← get_node node s;
        Done (a, node, put_node node (with_right (Some r) nd) s)
  end.

Fixpoint _psac_par_for {A} (fuel : nat) (f : Z → Z → A → state → res (A * state))
    (parent_ lo hi granularity : Z) (a : A) (s : state) : res (A * Z * state) :=
  match fuel with
  | O => Timeout
  | S fuel' =>
      if hi - lo <=? granularity then _psac_seq_for fuel' f parent_ lo hi a s
      else
        let '(node, s) := new_node PNode parent_ s in
        let mid := lo + Z.quot (hi - lo) 2 in
        '(a, l, s) ← _psac_par_for fuel' f node lo mid granularity a s;
        nd ← get_node node s;
        let s := put_node node (with_left (Some l) nd) s in
        '(a, r, s) ← _psac_par_for fuel' f node mid hi granularity a s;
        nd ← get_node node s;
        Done (a, node, put_node node (with_right (Some r) nd) s)
  end.

(** The type of the interpreter of function bodies: the body, the
    [_psac_context_mods] vector of the enclosing dynamic context (if the body
    can name one), the cursor and the state. *)
Definition interp : Type :=
  prog → option (list Z) → cursor → state → res (option (list Z) * cursor * state).

(** [RTupleNode::execute], [RArrayNode::execute], [RScopeNode::execute];
    [run] interprets the stored reader function. *)
Definition execute_with (run : interp) (r : Z) (s : state) : res state :=
  nd ← get_node r s;
  let s := record (EvExecute r) s in
  match kind nd with
  | RTupleNode f ms =>
      vs ← read_values ms s;
      '(_, _, s) ← run (f vs) None (AtNode r) s;
      Done s
  | RArrayNode f range =>
      vs ← read_values range s;
      '(_, _, s) ← run (f vs) None (AtNode r) s;
      Done s
  | RScopeNode f _ =>
      '(ctx, _, s) ← run f (Some []) (AtNode r) s;
      match ctx with
      | None => Fault
      | Some new_mods =>
          let new_mods := merge_sort Z.le new_mods in
          nd ← get_node r s;
          match kind nd with
          | RScopeNode f' old =>
              s ← merge_readers r old new_mods s;
              nd ← get_node r s;
              Done (put_node r (with_kind (RScopeNode f' new_mods) nd) s)
          | _ => Fault
          end
      end
  | _ => Fault
  end.

(** The macros of core.hpp *)
Fixpoint exec (fuel : nat) (p : prog) (ctx : option (list Z)) (cur : cursor) (s : state)
  {struct fuel} : res (option (list Z) * cursor * state) :=
  match fuel with
  | O => Timeout
  | S fuel' =>
      match p with
      | Ret => Done (ctx, cur, s)
      | Write m v k =>
          s ← Mod_write fuel' m v s;
          exec fuel' k ctx cur s
      | Alloc k =>
          '(n, s) ← materialize cur s;
          '(a, s) ← alloc n s;
          exec fuel' (k a) ctx (AtNode n) s
      | Read ms body k =>
          '(n, s) ← materialize cur s;
          '(r, s) ← make_read_tuple_node body ms n s;
          s ← execute_with (exec fuel') r s;
          cur ← advance n s;
          exec fuel' k ctx cur s
      | ReadArray range body k =>
          '(n, s) ← materialize cur s;
          '(r, s) ← make_read_array_node body range n s;
          s ← execute_with (exec fuel') r s;
          cur ← advance n s;
          exec fuel' k ctx cur s
      | DynamicContext body k =>
          '(n, s) ← materialize cur s;
          '(r, s) ← make_scope_read_node body n s;
          s ← execute_with (exec fuel') r s;
          cur ← advance n s;
          exec fuel' k ctx cur s
      | DynamicContextRead m k =>
          match ctx with
          | None => Fault
          | Some c =>
              md ← get_mod m s;
              exec fuel' (k (value md)) (Some (c ++ [m])) cur s
          end
      | Par left_code right_code k =>
          '(n, s) ← materialize cur s;
          '(pn, s) ← make_left PNode n s;
          '(sl, s) ← make_left SNode pn s;
          '(sr, s) ← make_right SNode pn s;
          '(ctx, _, s) ← exec fuel' left_code ctx (AtNode sl) s;
          '(ctx, _, s) ← exec fuel' right_code ctx (AtNode sr) s;
          cur ← advance n s;
          exec fuel' k ctx cur s
      | ParFor lb ub gran body k =>
          '(n, s) ← materialize cur s;
          '(ctx, l, s) ← _psac_par_for fuel'
             (λ node i ctx s,
                '(ctx, _, s) ← exec fuel' (body i) ctx (AtNode node) s; Done (ctx, s))
             n lb ub gran ctx s;
          s ← set_left n (Some l) s;
          cur ← advance n s;
          exec fuel' k ctx cur s
      | Call func k =>
          '(ctx, cur, s) ← exec fuel' func ctx cur s;
          exec fuel' k ctx cur s
      end
  end.

Definition execute (fuel : nat) : Z → state → res state := execute_with (exec fuel).

(** [_PSAC_RUN]: the handle of the computation is the address of its root. *)
Definition run (fuel : nat) (func : prog) (s : state) : res (Z * state) :=
  let '(root, s) := new_node SNode 0 s in
  '(_, _, s) ← exec fuel func None (AtNode root) s;
  Done (root, s).

(** *** Propagation *)

(** The first statements of the pending branch of [RNode::propagate]: the
    children and the dynamic mods move to a dummy S node, which is handed to
    the garbage collector. *)
Definition detach (n : Z) (s : state) : res state :=
  nd ← get_node n s;
  let '(dummy, s) := new_node SNode 0 s in
  s ← update_node n (with_left None) s;
  s ← set_left dummy (nleft nd) s;
  s ← update_node n (with_right None) s;
  s ← set_right dummy (nright nd) s;
  s ← update_node dummy (with_dynamic_mods (dynamic_mods nd)) s;
  s ← update_node n (with_dynamic_mods []) s;
  GarbageCollector_add dummy s.

(** [RNode::clear_pending_modification] *)
Definition clear_pending_modification (fuel : nat) (n : Z) (s : state) : res state :=
  nd ← get_node n s;
  set_dirty fuel n false (put_node n (with_pending false nd) s).

Definition deref (o : option Z) : res Z :=
  match o with
  | Some a => Done a
  | None => Fault
  end.

(** [SNode::propagate], [PNode::propagate], [RNode::propagate] *)
Fixpoint propagate (fuel : nat) (n : Z) (s : state) : res state :=
  match fuel with
  | O => Timeout
  | S fuel' =>
      let children (s : state) : res state :=
        nd ← get_node n s;
        s ← match nleft nd with Some l => propagate fuel' l s | None => Done s end;
        nd ← get_node n s;
        s ← match nright nd with Some r => propagate fuel' r s | None => Done s end;
        set_dirty fuel' n false s in
      nd ← get_node n s;
      match kind nd with
      | SNode => if is_dirty nd then children s else Done s
      | PNode =>
          if is_dirty nd then
            l ← deref (nleft nd);
            ln ← get_node l s;
            s ← (if negb (is_dirty ln) then
                   r ← deref (nright nd); propagate fuel' r s
                 else
                   r ← deref (nright nd);
                   rn ← get_node r s;
                   if negb (is_dirty rn) then propagate fuel' l s
                   else
                     s ← propagate fuel' l s;
                     nd ← get_node n s;
                     r ← deref (nright nd);
                     propagate fuel' r s);
            set_dirty fuel' n false s
          else Done s
      | _ =>
          if pending_update nd then
            s ← detach n s;
            _ ← cassert (marked_ptr.to_bool (parent nd));
            pn ← get_node (marked_ptr.get_ptr (parent nd)) s;
            _ ← cassert (match nleft pn with Some l => l =? n | None => false end);
            s ← execute fuel' n s;
            clear_pending_modification fuel' n s
          else if is_dirty nd then children s
          else Done s
      end
  end.

(** [Computation::update], the expansion of [psac_propagate] *)
Definition update (fuel : nat) (root : option Z) (s : state) : res state :=
  r ← deref root;
  propagate fuel r s.

(** *** Destruction *)

(** [~ModBase]: the reader set must be empty. *)
Definition destroy_mod (m : Z) (s : state) : res state :=
  md ← get_mod m s;
  _ ← cassert (fst (CRS.empty (readers md)));
  Done (record (EvDestroyMod m) (set_mods (delete m) s)).

(** [unsubscribe] of the three reader nodes *)
Definition unsubscribe (r : Z) (deps : list Z) : state → res state :=
  for_each (λ m, remove_reader m r) deps.

(** The destructor of a node: the body of the derived destructor
    ([unsubscribe] for a reader, resetting both children for a P node), then
    [~SPNode], which resets [left] and [right] and clears the list of dynamic
    mods; a list node destroys its [next] before its [mod]. *)
Fixpoint destroy (fuel : nat) (n : Z) (s : state) : res state :=
  match fuel with
  | O => Timeout
  | S fuel' =>
      nd ← get_node n s;
      s ← match kind nd with
          | RTupleNode _ ms => unsubscribe n ms s
          | RArrayNode _ range => unsubscribe n range s
          | RScopeNode _ ms => unsubscribe n ms s
          | _ => Done s
          end;
      s ← match nleft nd with Some l => destroy fuel' l s | None => Done s end;
      s ← match nright nd with Some r => destroy fuel' r s | None => Done s end;
      s ← for_each destroy_mod (reverse (dynamic_mods nd)) s;
      Done (record (EvDestroyNode n) (set_nodes (delete n) s))
  end.

(** [Computation::destroy] *)
Definition Computation_destroy (fuel : nat) (root : option Z) (s : state) : res state :=
  match root with
  | Some r => destroy fuel r s
  | None => Done s
  end.

(** [pile.clear()] on the pile of worker [i] *)
Definition pile_clear (fuel : nat) (i : nat) (s : state) : res state :=
  match garbage s !! i with
  | None => Fault
  | Some pile =>
      s ← for_each (destroy fuel) pile s;
      Done (set_garbage <[i := []]> s)
  end.

(** [GarbageCollector::run] *)
Definition GarbageCollector_run (fuel : nat) (s : state) : res state :=
  for_each (pile_clear fuel) (seq 0 (length (garbage s))) s.

(** The recursive lambdas [size] and [mem] of [nodes()], [memory()],
    [treesize()] and [Computation::memory()] *)
Definition node_size (nd : SPNode) : Z :=
  match kind nd with
  | SNode => sizeof_S
  | PNode => sizeof_P
  | _ => sizeof_R
  end.

Fixpoint tree_measure (w : SPNode → Z) (fuel : nat) (node : option Z) (s : state) : res Z :=
  match node with
  | None => Done 0
  | Some n =>
      match fuel with
      | O => Timeout
      | S fuel' =>
          nd ← get_node n s;
          l ← tree_measure w fuel' (nleft nd) s;
          r ← tree_measure w fuel' (nright nd) s;
          Done (w nd + l + r)
      end
  end.

Fixpoint sum_over (f : Z → res Z) (l : list Z) (answer : Z) : res Z :=
  match l with
  | [] => Done answer
  | node :: l' => x ← f node; sum_over f l' (answer + x)
  end.

Fixpoint sum_piles (f : Z → res Z) (piles : list (list Z)) (answer : Z) : res Z :=
  match piles with
  | [] => Done answer
  | pile :: piles' => a ← sum_over f pile answer; sum_piles f piles' a
  end.

(** [GarbageCollector::nodes], [GarbageCollector::memory] *)
Definition GarbageCollector_nodes (fuel : nat) (s : state) : res Z :=
  sum_piles (λ node, tree_measure (λ _, 1) fuel (Some node) s) (garbage s) 0.
Definition GarbageCollector_memory (fuel : nat) (s : state) : res Z :=
  sum_piles (λ node, tree_measure node_size fuel (Some node) s) (garbage s) 0.

(** [~GarbageCollector]: every pile is asserted to be empty. *)
Fixpoint assert_piles_empty (piles : list (list Z)) : res unit :=
  match piles with
  | [] => Done tt
  | pile :: piles' => _ ← cassert (bool_decide (pile = [])); assert_piles_empty piles'
  end.

Definition GarbageCollector_destructor (s : state) : res unit :=
  assert_piles_empty (garbage s).

(** [Computation::treesize], [Computation::memory] *)
Definition treesize (fuel : nat) (root : option Z) (s : state) : res Z :=
  tree_measure (λ _, 1) fuel root s.
Definition Computation_memory (fuel : nat) (root : option Z) (s : state) : res Z :=
  tree_measure node_size fuel root s.

(** *** Copying and moving a Mod

    The four special members have an empty initialiser list and an unnamed
    parameter: the base [ModBase] and [value] of the constructed object are
    default-initialised, and the assertion reads the [written] flag of the
    object itself.  [T_default] is what default-initialisation leaves in
    [value].  The assignment operators change no member. *)
Variable T_default : T.

Definition Mod_copy_construct (other : Mod) : res Mod :=
  let this := {| value := T_default; written := false; readers := CRS.Empty |} in
  _ ← cassert (negb (written this));
  Done this.

Definition Mod_move_construct (other : Mod) : res Mod :=
  let this := {| value := T_default; written := false; readers := CRS.Empty |} in
  _ ← cassert (negb (written this));
  Done this.

Definition Mod_copy_assign (this other : Mod) : res Mod :=
  _ ← cassert (negb (written this));
  Done this.

Definition Mod_move_assign (this other : Mod) : res Mod :=
  _ ← cassert (negb (written this));
  Done this.

(** ** Reasoning about runs *)

(** Inversion of a successful monadic computation, one step at a time. *)
Ltac res_step H :=
  lazymatch type of H with
  | Done _ = Done _ => inversion H; subst; clear H
  | Fault = Done _ => discriminate H
  | Timeout = Done _ => discriminate H
  | cassert _ = Done _ => apply cassert_Done in H
  | mbind _ _ = Done _ =>
      let a := fresh "a" in
      let H1 := fresh "Hm" in
      apply res_bind_Done in H; destruct H as (a & H1 & H); cbv beta in H
  | (let '(_, _) := ?e in _) = Done _ => destruct e eqn:?
  | (match ?e with _ => _ end) = Done _ => destruct e eqn:?
  end.

Ltac res_all := repeat match goal with H : _ = Done _ |- _ => res_step H end.

(** *** Well-formed heaps and monotone runs

    The allocator hands out [brk]; in a well-formed heap every live object
    lies below it, so an allocation never lands on a live object, and nodes
    are aligned, so the mark bits of a pointer to a node are clear. *)
Definition heap_wf (s : state) : Prop :=
  map_Forall (λ n _, n < brk s ∧ n mod 4 = 0) (nodes s)
  ∧ map_Forall (λ m _, m < brk s) (mods s)
  ∧ brk s mod 4 = 0.

(** What a node keeps for life: its dynamic type with the reader function
    and the static dependencies, and the pointer part of its parent word. *)
Definition kind_stays (k k' : node_kind) : Prop :=
  match k with
  | RScopeNode f _ => ∃ ms, k' = RScopeNode f ms
  | _ => k' = k
  end.

Definition node_stays (nd nd' : SPNode) : Prop :=
  kind_stays (kind nd) (kind nd')
  ∧ marked_ptr.get_ptr (parent nd') = marked_ptr.get_ptr (parent nd).

Definition is_destroy (e : event) : bool :=
  match e with
  | EvDestroyNode _ | EvDestroyMod _ => true
  | _ => false
  end.

(** [ext s s']: nothing that lives in [s] was destroyed on the way to [s']. *)
Record ext (s s' : state) : Prop := {
  ext_nodes : ∀ n nd, nodes s !! n = Some nd →
                ∃ nd', nodes s' !! n = Some nd' ∧ node_stays nd nd';
  ext_mods : ∀ m md, mods s !! m = Some md →
                ∃ md', mods s' !! m = Some md' ∧ (written md = true → written md' = true);
  ext_garbage_length : length (garbage s') = length (garbage s);
  ext_garbage : ∀ i pile, garbage s !! i = Some pile →
                ∃ more, garbage s' !! i = Some (pile ++ more);
  ext_brk : brk s ≤ brk s';
  ext_history : ∃ h, history s' = history s ++ h ∧ Forall (λ e, is_destroy e = false) h;
}.


Lemma kind_stays_refl k : kind_stays k k.
Proof. destruct k; simpl; eauto. Qed.

Lemma kind_stays_trans k1 k2 k3 : kind_stays k1 k2 → kind_stays k2 k3 → kind_stays k1 k3.
Proof.
  destruct k1; simpl; intros H1 H2; try (subst k2; exact H2).
  destruct H1 as [ms ->]. exact H2.
Qed.

Lemma node_stays_refl nd : node_stays nd nd.
Proof. split; [apply kind_stays_refl | done]. Qed.

Lemma node_stays_trans n1 n2 n3 : node_stays n1 n2 → node_stays n2 n3 → node_stays n1 n3.
Proof.
  intros [K1 P1] [K2 P2]. split; [eapply kind_stays_trans; eauto | congruence].
Qed.

Lemma ext_refl s : ext s s.
Proof.
  split; eauto using node_stays_refl; try lia.
  - intros i pile H. exists []. by rewrite app_nil_r.
  - exists []. by rewrite app_nil_r.
Qed.

Lemma ext_trans s1 s2 s3 : ext s1 s2 → ext s2 s3 → ext s1 s3.
Proof.
  intros E1 E2. split.
  - intros n nd H. destruct (ext_nodes _ _ E1 _ _ H) as (nd' & H' & S1).
    destruct (ext_nodes _ _ E2 _ _ H') as (nd'' & H'' & S2).
    eauto using node_stays_trans.
  - intros m md H. destruct (ext_mods _ _ E1 _ _ H) as (md' & H' & S1).
    destruct (ext_mods _ _ E2 _ _ H') as (md'' & H'' & S2). eauto.
  - rewrite (ext_garbage_length _ _ E2). apply (ext_garbage_length _ _ E1).
  - intros i pile H. destruct (ext_garbage _ _ E1 _ _ H) as (m1 & H').
    destruct (ext_garbage _ _ E2 _ _ H') as (m2 & H''). exists (m1 ++ m2).
    by rewrite app_assoc.
  - pose proof (ext_brk _ _ E1). pose proof (ext_brk _ _ E2). lia.
  - destruct (ext_history _ _ E1) as (h1 & Q1 & F1).
    destruct (ext_history _ _ E2) as (h2 & Q2 & F2).
    exists (h1 ++ h2). split; [by rewrite Q2, Q1, app_assoc | by apply Forall_app].
Qed.

(** A step that keeps the heap well-formed and destroys nothing *)
Definition grows (s s' : state) : Prop := heap_wf s → heap_wf s' ∧ ext s s'.

Lemma grows_refl s : grows s s.
Proof. intros W. split; [done | apply ext_refl]. Qed.

Lemma grows_trans s1 s2 s3 : grows s1 s2 → grows s2 s3 → grows s1 s3.
Proof.
  intros G1 G2 W. destruct (G1 W) as [W2 E1]. destruct (G2 W2) as [W3 E2].
  split; [done | eapply ext_trans; eauto].
Qed.

Lemma garbage_same (g : list (list Z)) i pile :
  g !! i = Some pile → ∃ more, g !! i = Some (pile ++ more).
Proof. intros H. exists []. by rewrite app_nil_r. Qed.

Lemma history_same (h : list event) :
  ∃ h', h = h ++ h' ∧ Forall (λ e, is_destroy e = false) h'.
Proof. exists []. by rewrite app_nil_r. Qed.

Lemma nodes_same (g : gmap Z SPNode) n nd :
  g !! n = Some nd → ∃ nd', g !! n = Some nd' ∧ node_stays nd nd'.
Proof. eauto using node_stays_refl. Qed.

Lemma mods_same (g : gmap Z Mod) m md :
  g !! m = Some md → ∃ md', g !! m = Some md' ∧ (written md = true → written md' = true).
Proof. eauto. Qed.

Lemma grows_put_node n nd nd' s :
  nodes s !! n = Some nd → node_stays nd nd' → grows s (put_node n nd' s).
Proof.
  intros Hn St (Wn & Wm & Wb). split.
  - split; [| done]. simpl. apply map_Forall_insert_2; [| exact Wn].
    exact (Wn _ _ Hn).
  - split; simpl.
    + intros k kd Hk. destruct (decide (n = k)) as [<- | Hne].
      * rewrite lookup_insert_eq. exists nd'. split; [done |].
        rewrite Hn in Hk. by injection Hk as <-.
      * rewrite lookup_insert_ne by done. by apply nodes_same.
    + apply mods_same.
    + done.
    + apply garbage_same.
    + lia.
    + apply history_same.
Qed.

Lemma grows_put_mod m md md' s :
  mods s !! m = Some md → (written md = true → written md' = true) →
  grows s (put_mod m md' s).
Proof.
  intros Hm St (Wn & Wm & Wb). split.
  - split; [exact Wn |]. split; [| exact Wb]. simpl.
    apply map_Forall_insert_2; [| exact Wm]. exact (Wm _ _ Hm).
  - split; simpl.
    + apply nodes_same.
    + intros k kd Hk. destruct (decide (m = k)) as [<- | Hne].
      * rewrite lookup_insert_eq. exists md'. split; [done |].
        rewrite Hm in Hk. by injection Hk as <-.
      * rewrite lookup_insert_ne by done. by apply mods_same.
    + done.
    + apply garbage_same.
    + lia.
    + apply history_same.
Qed.

Lemma grows_record e s : is_destroy e = false → grows s (record e s).
Proof.
  intros He W. split; [exact W |].
  split; simpl.
  - apply nodes_same.
  - apply mods_same.
  - done.
  - apply garbage_same.
  - lia.
  - exists [e]. split; [done | by constructor].
Qed.

Lemma grows_new_node k p s a s' :
  new_node k p s = (a, s') →
  grows s s' ∧ a = brk s ∧ brk s' = brk s + ALIGN ∧
  nodes s' = <[a := {| kind := k; dynamic_mods := []; parent := p; nleft := None;
                        nright := None; pending_update := false |}]> (nodes s) ∧
  mods s' = mods s ∧ garbage s' = garbage s ∧ history s' = history s.
Proof.
  unfold new_node, allocate. intros H. injection H as <- <-. simpl.
  split; [| unfold ALIGN; repeat split; lia]. intros (Wn & Wm & Wb). unfold ALIGN. split.
  - split; [| split]; simpl.
    + apply map_Forall_insert_2; [split; [lia | done] |].
      intros n nd Hn. specialize (Wn _ _ Hn). simpl in Wn. split; [lia | tauto].
    + intros m md Hm. specialize (Wm _ _ Hm). simpl in Wm. lia.
    + rewrite <- Wb. rewrite Z.add_comm. apply (Z_mod_plus_full (brk s) 2 4).
  - split; simpl.
    + intros n nd Hn. exists nd. split; [| apply node_stays_refl].
      rewrite lookup_insert_ne; [done |]. specialize (Wn _ _ Hn). simpl in Wn. lia.
    + apply mods_same.
    + done.
    + apply garbage_same.
    + lia.
    + apply history_same.
Qed.

Lemma grows_GarbageCollector_add node s s' :
  GarbageCollector_add node s = Done s' → grows s s'.
Proof.
  unfold GarbageCollector_add. intros H W.
  destruct (garbage s !! worker_id) as [pile |] eqn:Hp; [| discriminate].
  injection H as <-. split; [exact W |].
  split; simpl.
  - apply nodes_same.
  - apply mods_same.
  - by rewrite length_insert.
  - intros i p Hi. destruct (decide (i = worker_id)) as [-> | Hne].
    + rewrite list_lookup_insert_eq by (eapply lookup_lt_Some; eauto).
      rewrite Hp in Hi. injection Hi as <-. eauto.
    + rewrite list_lookup_insert_ne by done. by apply garbage_same.
  - lia.
  - apply history_same.
Qed.


Lemma get_node_Done n s nd : get_node n s = Done nd ↔ nodes s !! n = Some nd.
Proof. unfold get_node. destruct (nodes s !! n); split; intros; simplify_eq; done. Qed.

Lemma get_mod_Done m s md : get_mod m s = Done md ↔ mods s !! m = Some md.
Proof. unfold get_mod. destruct (mods s !! m); split; intros; simplify_eq; done. Qed.

Lemma node_stays_mark nd b :
  node_stays nd (with_parent (marked_ptr.set_mark (parent nd) (marked_ptr.of_bool b)) nd).
Proof. split; [apply kind_stays_refl | apply marked_ptr.get_ptr_set_mark]. Qed.

Lemma node_stays_with_left nd l : node_stays nd (with_left l nd).
Proof. split; [apply kind_stays_refl | done]. Qed.
Lemma node_stays_with_right nd r : node_stays nd (with_right r nd).
Proof. split; [apply kind_stays_refl | done]. Qed.
Lemma node_stays_with_pending nd b : node_stays nd (with_pending b nd).
Proof. split; [apply kind_stays_refl | done]. Qed.
Lemma node_stays_with_dynamic_mods nd l : node_stays nd (with_dynamic_mods l nd).
Proof. split; [apply kind_stays_refl | done]. Qed.

Create HintDb grows discriminated.
#[local] Hint Resolve grows_record grows_GarbageCollector_add
  node_stays_mark node_stays_with_left node_stays_with_right node_stays_with_pending
  node_stays_with_dynamic_mods node_stays_refl : grows.

Lemma grows_set_dirty fuel : ∀ n dirty s s',
  set_dirty fuel n dirty s = Done s' → grows s s'.
Proof.
  induction fuel as [| fuel IH]; intros n dirty s s' H; simpl in H.
  - apply res_bind_Done in H as (nd & Hn & H). apply get_node_Done in Hn.
    pose proof (grows_put_node n nd _ s Hn (node_stays_mark nd dirty)) as G.
    destruct dirty; [| by simplify_eq].
    destruct (marked_ptr.to_bool (parent nd)); [| by simplify_eq].
    apply res_bind_Done in H as (pn & Hp & H).
    destruct (negb (is_dirty pn)); [discriminate | by simplify_eq].
  - apply res_bind_Done in H as (nd & Hn & H). apply get_node_Done in Hn.
    pose proof (grows_put_node n nd _ s Hn (node_stays_mark nd dirty)) as G.
    destruct dirty; [| by simplify_eq].
    destruct (marked_ptr.to_bool (parent nd)); [| by simplify_eq].
    apply res_bind_Done in H as (pn & Hp & H).
    destruct (negb (is_dirty pn)); [| by simplify_eq].
    eapply grows_trans; [exact G | eapply IH; exact H].
Qed.

Lemma grows_set_modified fuel r s s' : set_modified fuel r s = Done s' → grows s s'.
Proof.
  unfold set_modified. intros H.
  apply res_bind_Done in H as (nd & Hn & H). apply get_node_Done in Hn.
  eapply grows_trans; [| eapply grows_set_dirty; exact H].
  eapply grows_trans; [| by apply grows_record].
  eapply grows_put_node; eauto with grows.
Qed.

Lemma grows_for_each {A} (f : A → state → res state) (l : list A) :
  (∀ x s s', f x s = Done s' → grows s s') →
  ∀ s s', for_each f l s = Done s' → grows s s'.
Proof.
  intros Hf. induction l as [| x l IH]; intros s s' H; simpl in H.
  - simplify_eq. apply grows_refl.
  - apply res_bind_Done in H as (s1 & H1 & H).
    eapply grows_trans; [eapply Hf; eauto | eauto].
Qed.

Lemma grows_notify_readers fuel m s s' : notify_readers fuel m s = Done s' → grows s s'.
Proof.
  unfold notify_readers. intros H.
  apply res_bind_Done in H as (md & Hm & H). apply get_mod_Done in Hm.
  destruct (CRS.for_all (readers md)) as [rs set'].
  eapply grows_trans; [| eapply grows_for_each; [| exact H]].
  - eapply grows_put_mod; eauto.
  - intros; eapply grows_set_modified; eauto.
Qed.

Lemma grows_Mod_write fuel m v s s' : Mod_write fuel m v s = Done s' → grows s s'.
Proof.
  unfold Mod_write. intros H.
  apply res_bind_Done in H as (md & Hm & H). apply get_mod_Done in Hm.
  destruct (negb (written md) || T_ne (value md) v); [| simplify_eq; apply grows_refl].
  apply res_bind_Done in H as (s1 & H1 & H).
  apply res_bind_Done in H as (md1 & Hm1 & H). apply get_mod_Done in Hm1. simplify_eq.
  eapply grows_trans; [| eapply grows_put_mod; eauto].
  eapply grows_trans; [| eapply grows_notify_readers; eauto].
  eapply grows_put_mod; eauto.
Qed.

Lemma grows_add_reader m r s s' : add_reader m r s = Done s' → grows s s'.
Proof.
  unfold add_reader. intros H. res_all. apply get_mod_Done in Hm.
  eapply grows_trans; [| by apply grows_record]. eapply grows_put_mod; eauto.
Qed.

Lemma grows_remove_reader m r s s' : remove_reader m r s = Done s' → grows s s'.
Proof.
  unfold remove_reader. intros H. res_all. apply get_mod_Done in Hm.
  eapply grows_trans; [| by apply grows_record]. eapply grows_put_mod; eauto.
Qed.


Ltac inv_step H :=
  lazymatch type of H with
  | get_node _ _ = Done _ => apply get_node_Done in H
  | get_mod _ _ = Done _ => apply get_mod_Done in H
  | _ => res_step H
  end.
Ltac inv_all := repeat match goal with H : _ = Done _ |- _ => inv_step H end.

#[local] Hint Resolve grows_set_dirty grows_set_modified grows_notify_readers
  grows_Mod_write grows_add_reader grows_remove_reader : grows.
#[local] Hint Extern 1 (grows _ (put_node _ _ _)) =>
  eapply grows_put_node; [eassumption | solve [eauto with grows]] : grows.
#[local] Hint Extern 1 (grows _ (put_mod _ _ _)) =>
  eapply grows_put_mod; [eassumption | solve [simpl; eauto]] : grows.
#[local] Hint Extern 1 (grows _ ?s') =>
  match goal with
  | H : new_node _ _ _ = (_, s') |- _ => exact (proj1 (grows_new_node _ _ _ _ _ H))
  end : grows.

(** Peel the steps of a run off the end of a [grows] goal. *)
Ltac grows_last := solve [eauto with grows].
Ltac grows_chain :=
  repeat first
    [ match goal with
      | |- grows ?a ?b => first [is_evar a; fail 2 | is_evar b; fail 2 | apply grows_refl]
      end
    | grows_last
    | eapply grows_trans; [| grows_last] ].

Lemma grows_gc_opt o s s' : gc_opt o s = Done s' → grows s s'.
Proof. destruct o; simpl; intros H; inv_all; grows_chain. Qed.
#[local] Hint Resolve grows_gc_opt : grows.

Lemma grows_alloc n s a s' : alloc n s = Done (a, s') → grows s s'.
Proof.
  unfold alloc, allocate. intros H. inv_all. intros (Wn & Wm & Wb).
  assert (mods s !! brk s = None) as Hfresh.
  { destruct (mods s !! brk s) eqn:E; [| done]. specialize (Wm _ _ E). simpl in Wm. lia. }
  split.
  - split; [| split]; simpl.
    + apply map_Forall_insert_2;
        [specialize (Wn _ _ Hm); simpl in Wn; unfold ALIGN; split; [lia | tauto] |].
      intros k kd Hk. specialize (Wn _ _ Hk). simpl in Wn. unfold ALIGN.
      split; [lia | tauto].
    + apply map_Forall_insert_2; [unfold ALIGN; lia |].
      intros k kd Hk. specialize (Wm _ _ Hk). simpl in Wm. unfold ALIGN. lia.
    + unfold ALIGN. rewrite <- Wb. rewrite Z.add_comm.
      apply (Z_mod_plus_full (brk s) 2 4).
  - split; simpl.
    + intros k kd Hk. destruct (decide (n = k)) as [<- | Hne].
      * rewrite lookup_insert_eq. eexists. split; [done |].
        rewrite Hm in Hk. injection Hk as <-. apply node_stays_with_dynamic_mods.
      * rewrite lookup_insert_ne by done. by apply nodes_same.
    + intros k kd Hk. exists kd. split; [| done].
      rewrite lookup_insert_ne; [done |]. intros <-. congruence.
    + done.
    + apply garbage_same.
    + unfold ALIGN. lia.
    + apply history_same.
Qed.
#[local] Hint Resolve grows_alloc : grows.

Lemma new_node_lookup_old k p s a s' n nd :
  heap_wf s → new_node k p s = (a, s') → nodes s !! n = Some nd → nodes s' !! n = Some nd.
Proof.
  intros (Wn & _) H Hn. destruct (grows_new_node _ _ _ _ _ H) as (_ & -> & _ & -> & _).
  rewrite lookup_insert_ne; [done |]. specialize (Wn _ _ Hn). simpl in Wn. lia.
Qed.

Lemma grows_make_left k n s a s' : make_left k n s = Done (a, s') → grows s s'.
Proof. unfold make_left. intros H. inv_all. grows_chain. Qed.

Lemma grows_make_right k n s a s' : make_right k n s = Done (a, s') → grows s s'.
Proof. unfold make_right. intros H. inv_all. grows_chain. Qed.

Lemma gc_opt_frame o s s' :
  gc_opt o s = Done s' →
  nodes s' = nodes s ∧ mods s' = mods s ∧ brk s' = brk s ∧ history s' = history s.
Proof.
  destruct o; simpl; intros H; [| by simplify_eq].
  unfold GarbageCollector_add in H. destruct (garbage s !! worker_id); by simplify_eq.
Qed.

Lemma grows_set_left n node s s' : set_left n node s = Done s' → grows s s'.
Proof.
  unfold set_left. intros H. inv_all.
  destruct (gc_opt_frame _ _ _ Hm0) as (Q & _). rewrite <- Q in Hm.
  grows_chain.
Qed.

Lemma grows_set_right n node s s' : set_right n node s = Done s' → grows s s'.
Proof.
  unfold set_right. intros H. inv_all.
  destruct (gc_opt_frame _ _ _ Hm0) as (Q & _). rewrite <- Q in Hm.
  grows_chain.
Qed.

Lemma grows_make_read_node k deps n s a s' :
  make_read_node k deps n s = Done (a, s') → grows s s'.
Proof.
  unfold make_read_node. intros H. inv_all.
  eapply grows_trans; [| grows_last].
  eapply grows_trans; [| eapply grows_for_each; [| eassumption]].
  - grows_chain.
  - intros m s1 s2 Hadd. eapply grows_add_reader. exact Hadd.
Qed.

Lemma grows_materialize cur s n s' : materialize cur s = Done (n, s') → grows s s'.
Proof. unfold materialize. intros H. inv_all; grows_chain. Qed.

#[local] Hint Resolve grows_make_left grows_make_right grows_set_left grows_set_right
  grows_make_read_node grows_materialize : grows.

Lemma grows_merge_readers r : ∀ old new s s',
  merge_readers r old new s = Done s' → grows s s'.
Proof.
  induction old as [| x old IH]; intros new.
  - induction new as [| y new IHn]; intros s s' H; simpl in H; inv_all; [grows_chain |].
    eapply grows_trans; [| eapply IHn; eassumption]. grows_chain.
  - induction new as [| y new IHn]; intros s s' H; simpl in H; inv_all.
    + eapply grows_trans; [| eapply IH; eassumption]. grows_chain.
    + eapply IH; eassumption.
    + eapply grows_trans; [| eapply IH; eassumption]. grows_chain.
    + eapply grows_trans; [| eapply IHn; eassumption]. grows_chain.
Qed.
#[local] Hint Resolve grows_merge_readers : grows.


Section loops.
Context {A : Type} (f : Z → Z → A → state → res (A * state)).
Hypothesis grows_f : ∀ node i a s a' s', f node i a s = Done (a', s') → grows s s'.

Lemma grows_psac_seq_for fuel : ∀ parent_ lo hi a s a' node s',
  _psac_seq_for fuel f parent_ lo hi a s = Done (a', node, s') → grows s s'.
Proof.
  induction fuel as [| fuel IH]; intros parent_ lo hi a s a' node s' H;
    cbn [_psac_seq_for] in H; [discriminate |].
  destruct (lo =? hi - 1); inv_all.
  - eapply grows_trans; [| eapply grows_f; eassumption]. grows_chain.
  - eapply grows_trans; [| grows_last].
    eapply grows_trans; [| eapply IH; eassumption].
    eapply grows_trans; [| grows_last].
    eapply grows_trans; [| eapply IH; eassumption].
    grows_chain.
Qed.

Lemma grows_psac_par_for fuel : ∀ parent_ lo hi g a s a' node s',
  _psac_par_for fuel f parent_ lo hi g a s = Done (a', node, s') → grows s s'.
Proof.
  induction fuel as [| fuel IH]; intros parent_ lo hi g a s a' node s' H;
    cbn [_psac_par_for] in H; [discriminate |].
  destruct (hi - lo <=? g); [eapply grows_psac_seq_for; eassumption |]. inv_all.
  eapply grows_trans; [| grows_last].
  eapply grows_trans; [| eapply IH; eassumption].
  eapply grows_trans; [| grows_last].
  eapply grows_trans; [| eapply IH; eassumption].
  grows_chain.
Qed.

End loops.

Definition interp_grows (run : interp) : Prop :=
  ∀ p ctx cur s ctx' cur' s', run p ctx cur s = Done (ctx', cur', s') → grows s s'.

Lemma node_stays_with_kind_scope nd f ms ms' :
  kind nd = RScopeNode f ms → node_stays nd (with_kind (RScopeNode f ms') nd).
Proof. intros K. split; [| done]. rewrite K. simpl. eauto. Qed.

(** Subscriptions touch only the modifiable and the history. *)
Lemma add_reader_frame m r s s' :
  add_reader m r s = Done s' →
  nodes s' = nodes s ∧ garbage s' = garbage s ∧ brk s' = brk s.
Proof. unfold add_reader. intros H. inv_all. done. Qed.

Lemma remove_reader_frame m r s s' :
  remove_reader m r s = Done s' →
  nodes s' = nodes s ∧ garbage s' = garbage s ∧ brk s' = brk s.
Proof. unfold remove_reader. intros H. inv_all. done. Qed.

Lemma merge_readers_frame r : ∀ old new s s',
  merge_readers r old new s = Done s' →
  nodes s' = nodes s ∧ garbage s' = garbage s ∧ brk s' = brk s.
Proof.
  induction old as [| x old IH]; intros new.
  - induction new as [| y new IHn]; intros s s' H; simpl in H; inv_all; [done |].
    destruct (add_reader_frame _ _ _ _ Hm) as (Q1 & Q2 & Q3).
    destruct (IHn _ _ H) as (R1 & R2 & R3). repeat split; congruence.
  - induction new as [| y new IHn]; intros s s' H; simpl in H; inv_all.
    + destruct (remove_reader_frame _ _ _ _ Hm) as (Q1 & Q2 & Q3).
      destruct (IH _ _ _ H) as (R1 & R2 & R3). repeat split; congruence.
    + eapply IH; eassumption.
    + destruct (remove_reader_frame _ _ _ _ Hm) as (Q1 & Q2 & Q3).
      destruct (IH _ _ _ H) as (R1 & R2 & R3). repeat split; congruence.
    + destruct (add_reader_frame _ _ _ _ Hm) as (Q1 & Q2 & Q3).
      destruct (IHn _ _ H) as (R1 & R2 & R3). repeat split; congruence.
Qed.

Lemma grows_execute_with run r s s' :
  interp_grows run → execute_with run r s = Done s' → grows s s'.
Proof.
  intros Hrun. unfold execute_with. intros H. inv_all.
  - eapply grows_trans; [| eapply Hrun; eassumption]. grows_chain.
  - eapply grows_trans; [| eapply Hrun; eassumption]. grows_chain.
  - eapply grows_trans;
      [| eapply grows_put_node; [eassumption | eapply node_stays_with_kind_scope]].
    + eapply grows_trans; [| grows_last].
      eapply grows_trans; [| eapply Hrun; eassumption]. grows_chain.
    + destruct (merge_readers_frame _ _ _ _ _ Hm2) as (Q & _).
      rewrite Q in Hm3. rewrite Hm1 in Hm3. injection Hm3 as <-. eassumption.
Qed.

Lemma exec_grows fuel : interp_grows (exec fuel).
Proof.
  induction fuel as [| fuel IH]; intros p ctx cur s ctx' cur' s' H;
    cbn [exec] in H; [discriminate |].
  pose proof (grows_execute_with (exec fuel)) as Hex.
  destruct p; inv_all.
  - apply grows_refl.
  - eapply grows_trans; [| eapply IH; eassumption]. grows_chain.
  - eapply grows_trans; [| eapply IH; eassumption]. grows_chain.
  - eapply grows_trans; [| eapply IH; eassumption].
    eapply grows_trans; [| eapply Hex; [exact IH | eassumption]].
    unfold make_read_tuple_node in *. grows_chain.
  - eapply grows_trans; [| eapply IH; eassumption].
    eapply grows_trans; [| eapply Hex; [exact IH | eassumption]].
    unfold make_read_array_node in *. grows_chain.
  - eapply grows_trans; [| eapply IH; eassumption].
    eapply grows_trans; [| eapply Hex; [exact IH | eassumption]].
    unfold make_scope_read_node in *. grows_chain.
  - eapply IH; eassumption.
  - eapply grows_trans; [| eapply IH; eassumption].
    eapply grows_trans; [| eapply IH; eassumption].
    eapply grows_trans; [| eapply IH; eassumption].
    grows_chain.
  - eapply grows_trans; [| eapply IH; eassumption].
    eapply grows_trans; [| grows_last].
    eapply grows_trans; [| eapply grows_psac_par_for; [| eassumption]].
    + grows_chain.
    + intros ? ? ? ? ? ? Hf. cbv beta in Hf. inv_all.
      eapply IH; eassumption.
  - eapply grows_trans; [| eapply IH; eassumption]. eapply IH; eassumption.
Qed.


Lemma grows_update_node n f s s' :
  (∀ nd, node_stays nd (f nd)) → update_node n f s = Done s' → grows s s'.
Proof. unfold update_node. intros Hf H. inv_all. eapply grows_put_node; eauto. Qed.

Lemma grows_detach n s s' : detach n s = Done s' → grows s s'.
Proof.
  unfold detach. intros H. inv_all.
  repeat (eapply grows_trans;
          [| first [ grows_last
                   | eapply grows_update_node; [| eassumption]; intros; eauto with grows ]]).
  grows_chain.
Qed.

Lemma grows_clear_pending_modification fuel n s s' :
  clear_pending_modification fuel n s = Done s' → grows s s'.
Proof. unfold clear_pending_modification. intros H. inv_all. grows_chain. Qed.

#[local] Hint Resolve grows_detach grows_clear_pending_modification : grows.

Lemma grows_execute fuel n s s' : execute fuel n s = Done s' → grows s s'.
Proof. apply grows_execute_with, exec_grows. Qed.
#[local] Hint Resolve grows_execute : grows.

Lemma grows_propagate fuel : ∀ n s s', propagate fuel n s = Done s' → grows s s'.
Proof.
  induction fuel as [| fuel IH]; intros n s s' H; cbn [propagate] in H; [discriminate |].
  assert (∀ o s s', match o with Some c => propagate fuel c s | None => Done s end = Done s'
                    → grows s s') as IHo.
  { intros [c |] s1 s2 Ho; [eapply IH; eassumption | inv_all; apply grows_refl]. }
  assert (∀ s s', (nd ← get_node n s;
      s ← match nleft nd with Some l => propagate fuel l s | None => Done s end;
      nd ← get_node n s;
      s ← match nright nd with Some r => propagate fuel r s | None => Done s end;
      set_dirty fuel n false s) = Done s' → grows s s') as Hch.
  { intros s1 s2 Hc.
    apply res_bind_Done in Hc as (nd1 & Hn1 & Hc).
    apply res_bind_Done in Hc as (s3 & Hl & Hc).
    apply res_bind_Done in Hc as (nd2 & Hn2 & Hc).
    apply res_bind_Done in Hc as (s4 & Hr & Hc).
    eapply grows_trans; [| grows_last].
    eapply grows_trans; [eapply IHo; eassumption | eapply IHo; eassumption]. }
  apply res_bind_Done in H as (nd & Hn & H).
  destruct (kind nd).
  - destruct (is_dirty nd); [eauto | inv_all; apply grows_refl].
  - destruct (is_dirty nd); [| inv_all; apply grows_refl].
    apply res_bind_Done in H as (l & Hl & H).
    apply res_bind_Done in H as (ln & Hln & H).
    apply res_bind_Done in H as (s1 & Hs1 & H).
    eapply grows_trans; [| grows_last].
    destruct (negb (is_dirty ln)).
    + apply res_bind_Done in Hs1 as (r & Hr & Hs1). eauto.
    + apply res_bind_Done in Hs1 as (r & Hr & Hs1).
      apply res_bind_Done in Hs1 as (rn & Hrn & Hs1).
      destruct (negb (is_dirty rn)); [eauto |].
      apply res_bind_Done in Hs1 as (s2 & Hs2 & Hs1).
      apply res_bind_Done in Hs1 as (nd2 & Hnd2 & Hs1).
      apply res_bind_Done in Hs1 as (r2 & Hr2 & Hs1).
      eapply grows_trans; eauto.
  - destruct (pending_update nd); [| destruct (is_dirty nd); [eauto | inv_all; apply grows_refl]].
    inv_all. grows_chain.
  - destruct (pending_update nd); [| destruct (is_dirty nd); [eauto | inv_all; apply grows_refl]].
    inv_all. grows_chain.
  - destruct (pending_update nd); [| destruct (is_dirty nd); [eauto | inv_all; apply grows_refl]].
    inv_all. grows_chain.
Qed.

Lemma grows_update fuel root s s' : update fuel root s = Done s' → grows s s'.
Proof.
  unfold update. intros H. apply res_bind_Done in H as (r & _ & H).
  eapply grows_propagate; eassumption.
Qed.

Lemma grows_run fuel func s root s' : run fuel func s = Done (root, s') → grows s s'.
Proof.
  unfold run. intros H. inv_all.
  eapply grows_trans; [| eapply exec_grows; eassumption]. grows_chain.
Qed.


(** ** Writes that change nothing *)


(** ** Propagating twice *)

(** A sequence of writes from outside the computation *)
Definition apply_writes (fuel : nat) (W : list (Z * T)) : state → res state :=
  for_each (λ w, Mod_write fuel w.1 w.2) W.

Lemma grows_apply_writes fuel W s s' : apply_writes fuel W s = Done s' → grows s s'.
Proof. apply grows_for_each. intros; grows_last. Qed.

Lemma is_dirty_set_mark nd b :
  is_dirty (with_parent (marked_ptr.set_mark (parent nd) (marked_ptr.of_bool b)) nd) = b.
Proof. unfold is_dirty. simpl. rewrite marked_ptr.get_mark_set_mark. by destruct b. Qed.

Lemma set_dirty_false fuel n s s' :
  set_dirty fuel n false s = Done s' →
  ∃ nd, nodes s !! n = Some nd ∧
        s' = put_node n (with_parent (marked_ptr.set_mark (parent nd) 0) nd) s.
Proof. destruct fuel; simpl; intros H; inv_all; eauto. Qed.

(** After [propagate] on an S node the node is clean. *)
Lemma propagate_SNode_clean fuel n s s' nd :
  heap_wf s → nodes s !! n = Some nd → kind nd = SNode →
  propagate fuel n s = Done s' →
  ∃ nd', nodes s' !! n = Some nd' ∧ kind nd' = SNode ∧ is_dirty nd' = false.
Proof.
  intros W Hn K H. destruct fuel as [| fuel]; cbn [propagate] in H; [discriminate |].
  apply res_bind_Done in H as (nd0 & Hn0 & H). apply get_node_Done in Hn0.
  rewrite Hn in Hn0. injection Hn0 as <-. rewrite K in H.
  destruct (is_dirty nd) eqn:D; [| inv_all; eauto].
  apply res_bind_Done in H as (nd1 & Hn1 & H).
  apply res_bind_Done in H as (s1 & Hl & H).
  apply res_bind_Done in H as (nd2 & Hn2 & H).
  apply res_bind_Done in H as (s2 & Hr & H).
  assert (grows s s2) as G.
  { eapply grows_trans.
    - destruct (nleft nd1); [eapply grows_propagate; eassumption | inv_all; apply grows_refl].
    - destruct (nright nd2); [eapply grows_propagate; eassumption | inv_all; apply grows_refl]. }
  destruct (G W) as [_ E]. destruct (ext_nodes _ _ E _ _ Hn) as (nd3 & Hn3 & [K3 _]).
  rewrite K in K3. simpl in K3.
  apply set_dirty_false in H as (nd4 & Hn4 & ->). rewrite Hn3 in Hn4. injection Hn4 as <-.
  eexists. split; [apply lookup_insert_eq |]. split; [done |].
  apply (is_dirty_set_mark nd3 false).
Qed.

Lemma propagate_clean_SNode fuel n s nd :
  nodes s !! n = Some nd → kind nd = SNode → is_dirty nd = false →
  propagate (S fuel) n s = Done s.
Proof.
  intros Hn K D. cbn [propagate]. unfold get_node. rewrite Hn. simpl.
  by rewrite K, D.
Qed.

Lemma run_root fuel func s root s' :
  heap_wf s → run fuel func s = Done (root, s') →
  heap_wf s' ∧ ∃ nd, nodes s' !! root = Some nd ∧ kind nd = SNode.
Proof.
  intros W H. pose proof (grows_run _ _ _ _ _ H W) as [W' _]. split; [done |].
  unfold run in H. inv_all.
  destruct (grows_new_node _ _ _ _ _ Heqp) as (G0 & -> & _ & Hnodes & _).
  destruct (G0 W) as [W0 _].
  destruct (exec_grows _ _ _ _ _ _ _ _ Hm W0) as [_ E].
  destruct (ext_nodes _ _ E (brk s) _ ltac:(rewrite Hnodes; apply lookup_insert_eq))
    as (nd & Hnd & [K _]).
  eauto.
Qed.

(** C2. A computation produced by [run], any writes applied to it, one
    propagation: a second propagation right after it returns the very same
    state, for every amount of fuel that lets it start.  The state holds the
    trace, the dirty bits, the pending flags, the values and the history, so
    the second call runs no reader function either. *)
Theorem propagate_twice_is_propagate_once f1 f2 f3 f4 func W s0 root s1 s2 s3 :
  heap_wf s0 →
  run f1 func s0 = Done (root, s1) →
  apply_writes f2 W s1 = Done s2 →
  update f3 (Some root) s2 = Done s3 →
  update (S f4) (Some root) s3 = Done s3.
Proof.
  intros W0 Hrun Hw Hup.
  destruct (run_root _ _ _ _ _ W0 Hrun) as (W1 & nd1 & Hn1 & K1).
  destruct (grows_apply_writes _ _ _ _ Hw W1) as [W2 E2].
  destruct (ext_nodes _ _ E2 _ _ Hn1) as (nd2 & Hn2 & [K2 _]).
  rewrite K1 in K2. simpl in K2.
  unfold update in *. simpl in *.
  destruct (propagate_SNode_clean _ _ _ _ _ W2 Hn2 K2 Hup) as (nd3 & Hn3 & K3 & D3).
  by apply (propagate_clean_SNode f4 root s3 nd3).
Qed.


(** ** Copying and moving a Mod *)


(** ** The empty parallel loop *)

Section empty_loop.
Context {A : Type} (f : Z → Z → A → state → res (A * state)).

Lemma empty_range_mid lo : lo + Z.quot (lo - lo) 2 = lo.
Proof. rewrite Z.sub_diag. change (Z.quot 0 2) with 0. lia. Qed.

Lemma psac_seq_for_empty_range fuel : ∀ parent_ lo a s,
  _psac_seq_for fuel f parent_ lo lo a s = Timeout.
Proof.
  induction fuel as [| fuel IH]; intros parent_ lo a s; cbn [_psac_seq_for]; [done |].
  replace (lo =? lo - 1) with false by (symmetry; apply Z.eqb_neq; lia).
  destruct (new_node SNode parent_ s) as [node s1].
  rewrite empty_range_mid, IH. done.
Qed.

Lemma psac_par_for_empty_range fuel : ∀ parent_ lo g a s,
  _psac_par_for fuel f parent_ lo lo g a s = Timeout.
Proof.
  induction fuel as [| fuel IH]; intros parent_ lo g a s; cbn [_psac_par_for]; [done |].
  destruct (lo - lo <=? g); [apply psac_seq_for_empty_range |].
  destruct (new_node PNode parent_ s) as [node s1].
  rewrite empty_range_mid, IH. done.
Qed.

(** On a range that is not empty the sequential loop returns: the model
    does not time out by construction. *)
Lemma psac_seq_for_singleton fuel parent_ lo a s :
  _psac_seq_for (S fuel) f parent_ lo (lo + 1) a s =
  (let '(node, s) := new_node SNode parent_ s in
   '(a, s) ← f node lo a s; Done (a, node, s)).
Proof.
  cbn [_psac_seq_for]. replace (lo =? lo + 1 - 1) with true; [done |].
  symmetry. apply Z.eqb_eq. lia.
Qed.

End empty_loop.

(** C5, evaluated on the code.  [psac_parallel_for] over an empty range
    never returns: for every granularity, body and amount of fuel the
    recursion of [_psac_par_for] and [_psac_seq_for] on [lo, lo) is still
    running when the fuel is spent (each level allocates a node and calls
    itself on the same bounds), and so is the macro whenever its cursor is
    usable. *)
Theorem parallel_for_on_empty_range_never_returns
    fuel lo gran body k ctx cur s :
  (∀ r, exec fuel (ParFor lo lo gran body k) ctx cur s ≠ Done r)
  ∧ (∀ n s1, materialize cur s = Done (n, s1) →
       exec fuel (ParFor lo lo gran body k) ctx cur s = Timeout).
Proof.
  assert (∀ n s1, materialize cur s = Done (n, s1) →
            exec fuel (ParFor lo lo gran body k) ctx cur s = Timeout) as Hto.
  { intros n s1 Hm. destruct fuel as [| fuel]; cbn [exec]; [done |].
    rewrite Hm. simpl. by rewrite psac_par_for_empty_range. }
  split; [| exact Hto]. intros r Hr.
  destruct fuel as [| fuel]; cbn [exec] in Hr; [discriminate |].
  destruct (materialize cur s) as [[n s1] | |] eqn:Hm; try discriminate.
  specialize (Hto n s1 eq_refl). cbn [exec] in Hto. rewrite Hm in Hto.
  rewrite Hto in Hr. discriminate.
Qed.


(** ** The garbage collector *)

Lemma for_each_invariant {A} (P : state → Prop) (f : A → state → res state) (l : list A) :
  (∀ x s s', f x s = Done s' → P s → P s') →
  ∀ s s', for_each f l s = Done s' → P s → P s'.
Proof.
  intros Hf. induction l as [| x l IH]; intros s s' H Hs; simpl in H.
  - by inv_all.
  - apply res_bind_Done in H as (s1 & H1 & H). eauto.
Qed.

Lemma destroy_mod_garbage m s s' : destroy_mod m s = Done s' → garbage s' = garbage s.
Proof. unfold destroy_mod. intros H. inv_all. done. Qed.

Lemma unsubscribe_garbage r deps s s' :
  unsubscribe r deps s = Done s' → garbage s' = garbage s.
Proof.
  intros H. symmetry.
  eapply (for_each_invariant (λ x, garbage s = garbage x)); [| exact H | done].
  intros x s1 s2 Hr Q. rewrite Q. symmetry.
  exact (proj1 (proj2 (remove_reader_frame _ _ _ _ Hr))).
Qed.

(** Destructors never touch the piles. *)
Lemma destroy_garbage fuel : ∀ n s s', destroy fuel n s = Done s' → garbage s' = garbage s.
Proof.
  induction fuel as [| fuel IH]; intros n s s' H; cbn [destroy] in H; [discriminate |].
  apply res_bind_Done in H as (nd & Hn & H).
  apply res_bind_Done in H as (s1 & H1 & H).
  apply res_bind_Done in H as (s2 & H2 & H).
  apply res_bind_Done in H as (s3 & H3 & H).
  apply res_bind_Done in H as (s4 & H4 & H).
  injection H as <-. simpl.
  assert (garbage s1 = garbage s) as Q1.
  { destruct (kind nd); first [by inv_all | eapply unsubscribe_garbage; eassumption]. }
  assert (garbage s2 = garbage s1) as Q2.
  { destruct (nleft nd); [eapply IH; eassumption | by inv_all]. }
  assert (garbage s3 = garbage s2) as Q3.
  { destruct (nright nd); [eapply IH; eassumption | by inv_all]. }
  assert (garbage s4 = garbage s3) as Q4.
  { symmetry.
    eapply (for_each_invariant (λ x, garbage s3 = garbage x)); [| exact H4 | done].
    intros x y1 y2 Hd Q. rewrite Q. symmetry. eapply destroy_mod_garbage; eassumption. }
  congruence.
Qed.

Lemma pile_clear_garbage fuel i s s' :
  pile_clear fuel i s = Done s' → garbage s' = <[i := []]> (garbage s).
Proof.
  unfold pile_clear. intros H. destruct (garbage s !! i) as [pile |]; [| discriminate].
  apply res_bind_Done in H as (s1 & H1 & H). inv_all. simpl. f_equal.
  symmetry.
  eapply (for_each_invariant (λ x, garbage s = garbage x)); [| exact H1 | done].
  intros x y1 y2 Hd Q. rewrite Q. symmetry. eapply destroy_garbage; eassumption.
Qed.

Lemma clear_piles_garbage fuel : ∀ k a s s',
  for_each (pile_clear fuel) (seq a k) s = Done s' →
  length (garbage s') = length (garbage s) ∧
  ∀ i, garbage s' !! i =
       if bool_decide (a ≤ i < a + k)%nat then (λ _, []) <$> garbage s !! i
       else garbage s !! i.
Proof.
  induction k as [| k IH]; intros a s s' H; simpl in H.
  - inv_all. split; [done |]. intros i. rewrite bool_decide_eq_false_2 by lia. done.
  - apply res_bind_Done in H as (s1 & H1 & H).
    apply pile_clear_garbage in H1. destruct (IH _ _ _ H) as [L Hi].
    rewrite H1, length_insert in L. split; [done |]. intros i. rewrite Hi, H1.
    destruct (decide (i = a)) as [-> | Hne].
    + rewrite bool_decide_eq_false_2 by lia. rewrite bool_decide_eq_true_2 by lia.
      destruct (garbage s !! a) eqn:E.
      * rewrite list_lookup_insert_eq; [done |]. eapply lookup_lt_Some; eassumption.
      * rewrite list_insert_ge; [by rewrite E |]. by apply lookup_ge_None.
    + rewrite list_lookup_insert_ne by done.
      destruct (bool_decide (S a ≤ i < S a + k)%nat) eqn:B.
      * apply bool_decide_eq_true in B. rewrite bool_decide_eq_true_2 by lia. done.
      * apply bool_decide_eq_false in B. rewrite bool_decide_eq_false_2 by lia. done.
Qed.

Lemma sum_piles_empty (f : Z → res Z) piles :
  Forall (λ pile, pile = []) piles → sum_piles f piles 0 = Done 0.
Proof. induction 1 as [| pile piles -> _ IH]; simpl; done. Qed.

Lemma assert_piles_empty_Done piles :
  Forall (λ pile, pile = []) piles → assert_piles_empty piles = Done tt.
Proof. induction 1 as [| pile piles -> _ IH]; simpl; done. Qed.

Lemma assert_piles_empty_Fault piles :
  ¬ Forall (λ pile, pile = []) piles → assert_piles_empty piles = Fault.
Proof.
  induction piles as [| pile piles IH]; intros H; simpl.
  - destruct H. constructor.
  - destruct pile as [| x pile]; [| done]. simpl. apply IH.
    intros F. apply H. by constructor.
Qed.



(** ** Re-execution detaches, it does not destroy *)

Definition is_reader (k : node_kind) : bool :=
  match k with
  | SNode | PNode => false
  | _ => true
  end.

Lemma update_node_Done n f s nd :
  nodes s !! n = Some nd → update_node n f s = Done (put_node n (f nd) s).
Proof. intros H. unfold update_node, get_node. by rewrite H. Qed.

Lemma set_left_empty n o s nd :
  nodes s !! n = Some nd → nleft nd = None →
  set_left n o s = Done (put_node n (with_left o nd) s).
Proof. intros H L. unfold set_left, get_node. rewrite H. simpl. by rewrite L. Qed.

Lemma set_right_empty n o s nd :
  nodes s !! n = Some nd → nright nd = None →
  set_right n o s = Done (put_node n (with_right o nd) s).
Proof. intros H L. unfold set_right, get_node. rewrite H. simpl. by rewrite L. Qed.

(** The state after the detachment step, in full. *)
Lemma detach_spec n s nd pile :
  heap_wf s → nodes s !! n = Some nd → garbage s !! worker_id = Some pile →
  detach n s = Done
    {| nodes := <[n := with_dynamic_mods [] (with_right None (with_left None nd))]>
                  (<[brk s := {| kind := SNode; dynamic_mods := dynamic_mods nd;
                                 parent := 0; nleft := nleft nd; nright := nright nd;
                                 pending_update := false |}]> (nodes s));
       mods := mods s;
       garbage := <[worker_id := pile ++ [brk s]]> (garbage s);
       brk := brk s + ALIGN;
       history := history s |}.
Proof.
  intros (Wn & _) Hn Hp. pose proof (Wn _ _ Hn) as Hlt. simpl in Hlt.
  assert (brk s ≠ n) as Hne by lia.
  unfold detach, get_node. rewrite Hn. simpl.
  unfold new_node, allocate.
  rewrite (update_node_Done n _ _ nd)
    by (simpl; rewrite lookup_insert_ne by done; exact Hn).
  simpl.
  erewrite set_left_empty; [| simpl; rewrite lookup_insert_ne by done;
                              apply lookup_insert_eq | done].
  simpl.
  erewrite update_node_Done by (simpl; rewrite lookup_insert_ne by done;
                                rewrite lookup_insert_eq; done).
  simpl.
  erewrite set_right_empty; [| simpl; rewrite lookup_insert_ne by done;
                               apply lookup_insert_eq | done].
  simpl.
  erewrite update_node_Done by (simpl; apply lookup_insert_eq).
  simpl.
  erewrite update_node_Done by (simpl; rewrite lookup_insert_ne by done;
                                rewrite lookup_insert_ne by done;
                                apply lookup_insert_eq).
  simpl. unfold GarbageCollector_add. simpl. rewrite Hp. unfold set_garbage. simpl.
  f_equal. f_equal; [| unfold ALIGN; lia].
  apply map_eq. intros k.
  destruct (decide (k = n)) as [-> | Hkn]; [by rewrite !lookup_insert_eq |].
  rewrite !(lookup_insert_ne _ n k) by done.
  destruct (decide (k = brk s)) as [-> | Hkb]; [by rewrite !lookup_insert_eq |].
  by rewrite !lookup_insert_ne by done.
Qed.




(** ** Dirty bits after a propagation *)

Definition is_notify (e : event) : bool :=
  match e with
  | EvNotify _ => true
  | _ => false
  end.

(** No reader was notified between [s] and [s']. *)
Definition no_notify (s s' : state) : Prop :=
  ∃ h, history s' = history s ++ h ∧ Forall (λ e, is_notify e = false) h.

(** Every node of the subtree lies at or above address [b], is clean and has
    no pending update. *)
Inductive quiet_from (b : Z) (s : state) : option Z → Prop :=
| quiet_null : quiet_from b s None
| quiet_node n nd :
    nodes s !! n = Some nd → b ≤ n →
    is_dirty nd = false → pending_update nd = false →
    quiet_from b s (nleft nd) → quiet_from b s (nright nd) →
    quiet_from b s (Some n).

(** No node of the subtree has its dirty bit or its pending flag set. *)
Inductive quiet (s : state) : option Z → Prop :=
| quiet_nil : quiet s None
| quiet_cons n nd :
    nodes s !! n = Some nd →
    is_dirty nd = false → pending_update nd = false →
    quiet s (nleft nd) → quiet s (nright nd) →
    quiet s (Some n).

(** The dirty bits cover the pending work: below a clean node nothing is
    dirty or pending, and only readers are ever pending. *)
Inductive covered (s : state) : option Z → Prop :=
| covered_nil : covered s None
| covered_cons n nd :
    nodes s !! n = Some nd →
    (is_dirty nd = false → quiet s (Some n)) →
    (is_reader (kind nd) = false → pending_update nd = false) →
    covered s (nleft nd) → covered s (nright nd) →
    covered s (Some n).

Lemma quiet_from_quiet b s o : quiet_from b s o → quiet s o.
Proof. induction 1; econstructor; eauto. Qed.

Lemma quiet_from_le b b' s o : b' ≤ b → quiet_from b s o → quiet_from b' s o.
Proof. intros Hb. induction 1; econstructor; eauto; lia. Qed.

Lemma quiet_covered s o : quiet s o → covered s o.
Proof.
  induction 1 as [| n nd Hn D P Hl IHl Hr IHr]; econstructor; eauto.
  intros _. econstructor; eauto.
Qed.

(** [settles b s s']: flags are only ever cleared, a node whose dirty bit
    was cleared heads a quiet subtree, and a child pointer either stays or
    points to a quiet subtree of nodes at or above [b]. *)
Record settles (b : Z) (s s' : state) : Prop := {
  settles_nodes : ∀ k nd, nodes s !! k = Some nd →
    ∃ nd', nodes s' !! k = Some nd'
      ∧ node_stays nd nd'
      ∧ (is_dirty nd' = true → is_dirty nd = true)
      ∧ (pending_update nd' = true → pending_update nd = true)
      ∧ (is_dirty nd = true → is_dirty nd' = false → quiet s' (Some k))
      ∧ (nleft nd' = nleft nd ∨ quiet_from b s' (nleft nd'))
      ∧ (nright nd' = nright nd ∨ quiet_from b s' (nright nd'));
}.

Lemma not_true_false b b' : (b' = true → b = true) → b = false → b' = false.
Proof. destruct b, b'; intuition congruence. Qed.

Lemma quiet_from_settles b b' s s' o :
  settles b' s s' → b ≤ b' → quiet_from b s o → quiet_from b s' o.
Proof.
  intros St Hb. induction 1 as [| n nd Hn Hbn D P Hl IHl Hr IHr]; [constructor |].
  destruct (settles_nodes _ _ _ St _ _ Hn) as (nd' & Hn' & _ & Hd & Hp & _ & Ll & Lr).
  econstructor; eauto using not_true_false.
  - destruct Ll as [-> | Q]; [done | eapply quiet_from_le; [| exact Q]; lia].
  - destruct Lr as [-> | Q]; [done | eapply quiet_from_le; [| exact Q]; lia].
Qed.

Lemma quiet_settles b s s' o : settles b s s' → quiet s o → quiet s' o.
Proof.
  intros St. induction 1 as [| n nd Hn D P Hl IHl Hr IHr]; [constructor |].
  destruct (settles_nodes _ _ _ St _ _ Hn) as (nd' & Hn' & _ & Hd & Hp & _ & Ll & Lr).
  econstructor; eauto using not_true_false.
  - destruct Ll as [-> | Q]; [done | eapply quiet_from_quiet; eauto].
  - destruct Lr as [-> | Q]; [done | eapply quiet_from_quiet; eauto].
Qed.

Lemma is_reader_stays nd nd' : node_stays nd nd' → is_reader (kind nd') = is_reader (kind nd).
Proof.
  intros [K _]. destruct (kind nd); simpl in K; try (by rewrite K).
  destruct K as [ms ->]. done.
Qed.

Lemma covered_settles b s s' o : settles b s s' → covered s o → covered s' o.
Proof.
  intros St. induction 1 as [| n nd Hn Hq Hnp Hl IHl Hr IHr]; [constructor |].
  destruct (settles_nodes _ _ _ St _ _ Hn) as (nd' & Hn' & Hst & Hd & Hp & Hc & Ll & Lr).
  econstructor; eauto.
  - intros D'. destruct (is_dirty nd) eqn:D; [by apply Hc |].
    eapply quiet_settles; eauto.
  - intros R. rewrite (is_reader_stays _ _ Hst) in R.
    eapply not_true_false; eauto.
  - destruct Ll as [-> | Q]; [done | eapply quiet_covered, quiet_from_quiet; eauto].
  - destruct Lr as [-> | Q]; [done | eapply quiet_covered, quiet_from_quiet; eauto].
Qed.

Lemma settles_refl b s : settles b s s.
Proof.
  split. intros k nd Hk. exists nd.
  split; [done |]. split; [apply node_stays_refl |].
  split; [done |]. split; [done |].
  split; [intros; congruence |]. split; by left.
Qed.

Lemma settles_le b b' s s' : b' ≤ b → settles b s s' → settles b' s s'.
Proof.
  intros Hb St. split. intros k nd Hk.
  destruct (settles_nodes _ _ _ St _ _ Hk) as (nd' & Hk' & St1 & D1 & P1 & C1 & L1 & R1).
  exists nd'. do 5 (split; [done |]).
  split; [destruct L1 as [Q | Q] | destruct R1 as [Q | Q]];
    first [by left | right; eapply quiet_from_le; [| exact Q]; lia].
Qed.

Lemma settles_trans b s1 s2 s3 : settles b s1 s2 → settles b s2 s3 → settles b s1 s3.
Proof.
  intros S1 S2. split. intros k nd1 Hk1.
  destruct (settles_nodes _ _ _ S1 _ _ Hk1) as (nd2 & Hk2 & St1 & D1 & P1 & C1 & L1 & R1).
  destruct (settles_nodes _ _ _ S2 _ _ Hk2) as (nd3 & Hk3 & St2 & D2 & P2 & C2 & L2 & R2).
  exists nd3. split; [done |]. split; [eapply node_stays_trans; eauto |].
  split; [eauto |]. split; [eauto |]. split; [| split].
  - intros D D3. destruct (is_dirty nd2) eqn:E2; [by apply C2 |].
    eapply quiet_settles; eauto.
  - destruct L2 as [Q2 | Q2]; [| by right].
    rewrite Q2. destruct L1 as [Q1 | Q1]; [by left |].
    right. eapply quiet_from_settles; [exact S2 | lia | exact Q1].
  - destruct R2 as [Q2 | Q2]; [| by right].
    rewrite Q2. destruct R1 as [Q1 | Q1]; [by left |].
    right. eapply quiet_from_settles; [exact S2 | lia | exact Q1].
Qed.

(** Steps that leave every node as it is *)
Lemma settles_same_nodes b s s' : nodes s' = nodes s → settles b s s'.
Proof.
  intros Q. split. intros k nd Hk. exists nd. rewrite Q.
  split; [done |]. split; [apply node_stays_refl |].
  split; [done |]. split; [done |].
  split; [intros; congruence |]. split; by left.
Qed.

(** A member of a node changes that is neither a flag nor a child. *)
Lemma settles_put_node_inert b s n nd nd' :
  nodes s !! n = Some nd → node_stays nd nd' →
  is_dirty nd' = is_dirty nd → pending_update nd' = pending_update nd →
  nleft nd' = nleft nd → nright nd' = nright nd →
  settles b s (put_node n nd' s).
Proof.
  intros Hn St D P L R. split. intros k kd Hk. simpl.
  destruct (decide (n = k)) as [<- | Hne].
  - rewrite lookup_insert_eq. exists nd'. rewrite Hn in Hk. injection Hk as <-.
    split; [done |]. split; [done |].
    split; [congruence |]. split; [congruence |].
    split; [intros; congruence |]. split; by left.
  - rewrite lookup_insert_ne by done. exists kd.
    split; [done |]. split; [apply node_stays_refl |].
    split; [done |]. split; [done |].
    split; [intros; congruence |]. split; by left.
Qed.

(** A node outside a subtree may change without the subtree noticing. *)
Lemma quiet_from_put_node b s n nd' o :
  n < b → quiet_from b s o → quiet_from b (put_node n nd' s) o.
Proof.
  intros Hn. induction 1 as [| k kd Hk Hbk D P Hl IHl Hr IHr]; [constructor |].
  econstructor; eauto. simpl. rewrite lookup_insert_ne by lia. done.
Qed.

(** Hanging a quiet subtree of newer nodes under a node *)
Lemma settles_link_left b s n nd o :
  nodes s !! n = Some nd → n < b → quiet_from b s o →
  settles b s (put_node n (with_left o nd) s).
Proof.
  intros Hn Hb Q. split. intros k kd Hk. simpl.
  destruct (decide (n = k)) as [<- | Hne].
  - rewrite lookup_insert_eq. eexists. rewrite Hn in Hk. injection Hk as <-.
    split; [done |]. split; [apply node_stays_with_left |].
    split; [done |]. split; [done |].
    split; [unfold is_dirty; simpl; intros; congruence |].
    split; [right; simpl; by apply quiet_from_put_node | by left].
  - rewrite lookup_insert_ne by done. exists kd.
    split; [done |]. split; [apply node_stays_refl |].
    split; [done |]. split; [done |].
    split; [intros; congruence |]. split; by left.
Qed.

Lemma settles_link_right b s n nd o :
  nodes s !! n = Some nd → n < b → quiet_from b s o →
  settles b s (put_node n (with_right o nd) s).
Proof.
  intros Hn Hb Q. split. intros k kd Hk. simpl.
  destruct (decide (n = k)) as [<- | Hne].
  - rewrite lookup_insert_eq. eexists. rewrite Hn in Hk. injection Hk as <-.
    split; [done |]. split; [apply node_stays_with_right |].
    split; [done |]. split; [done |].
    split; [unfold is_dirty; simpl; intros; congruence |].
    split; [by left | right; simpl; by apply quiet_from_put_node].
  - rewrite lookup_insert_ne by done. exists kd.
    split; [done |]. split; [apply node_stays_refl |].
    split; [done |]. split; [done |].
    split; [intros; congruence |]. split; by left.
Qed.

(** A new node is a quiet leaf. *)
Lemma settles_new_node k p s a s' :
  heap_wf s → marked_ptr.get_mark p = 0 → new_node k p s = (a, s') →
  settles (brk s) s s' ∧ quiet_from (brk s) s' (Some a).
Proof.
  intros (Wn & _) Hp H.
  destruct (grows_new_node _ _ _ _ _ H) as (_ & -> & _ & Hnodes & _).
  split.
  - split. intros n nd Hn. exists nd. rewrite Hnodes.
    rewrite lookup_insert_ne by (specialize (Wn _ _ Hn); simpl in Wn; lia).
    split; [done |]. split; [apply node_stays_refl |].
    split; [done |]. split; [done |].
    split; [intros; congruence |]. split; by left.
  - econstructor; [rewrite Hnodes; apply lookup_insert_eq | lia | | done | constructor ..].
    unfold is_dirty. simpl. by rewrite Hp.
Qed.


(** [calm s s']: a monotone step that, when it notifies no reader, settles. *)
Definition calm (s s' : state) : Prop :=
  grows s s' ∧ (heap_wf s → no_notify s s' → settles (brk s) s s').

Lemma no_notify_refl s : no_notify s s.
Proof. exists []. by rewrite app_nil_r. Qed.

Lemma no_notify_split s1 s2 s3 :
  ext s1 s2 → ext s2 s3 → no_notify s1 s3 → no_notify s1 s2 ∧ no_notify s2 s3.
Proof.
  intros E1 E2 (h & Hh & F).
  destruct (ext_history _ _ E1) as (h1 & Q1 & _).
  destruct (ext_history _ _ E2) as (h2 & Q2 & _).
  rewrite Q2, Q1, <- app_assoc in Hh. apply app_inv_head in Hh. subst h.
  apply Forall_app in F as [F1 F2]. split; [exists h1 | exists h2]; done.
Qed.

Lemma calm_refl s : calm s s.
Proof. split; [apply grows_refl | intros; apply settles_refl]. Qed.

Lemma calm_trans s1 s2 s3 : calm s1 s2 → calm s2 s3 → calm s1 s3.
Proof.
  intros [G1 C1] [G2 C2]. split; [eapply grows_trans; eauto |].
  intros W N. destruct (G1 W) as [W2 E1]. destruct (G2 W2) as [W3 E2].
  destruct (no_notify_split _ _ _ E1 E2 N) as [N1 N2].
  eapply settles_trans; [eauto |].
  eapply settles_le; [| eauto]. apply (ext_brk _ _ E1).
Qed.

Lemma calm_same_nodes s s' : grows s s' → nodes s' = nodes s → calm s s'.
Proof. intros G Q. split; [done |]. intros _ _. by apply settles_same_nodes. Qed.

(** The history of a write *)
Lemma set_dirty_history fuel : ∀ n d s s',
  set_dirty fuel n d s = Done s' → history s' = history s.
Proof.
  induction fuel as [| fuel IH]; intros n d s s' H; simpl in H; inv_all; try done.
  apply IH in H. done.
Qed.

Lemma set_modified_history fuel r s s' :
  set_modified fuel r s = Done s' → history s' = history s ++ [EvNotify r].
Proof.
  unfold set_modified. intros H. inv_all. apply set_dirty_history in H. done.
Qed.

Lemma for_each_set_modified_history fuel rs : ∀ s s',
  for_each (set_modified fuel) rs s = Done s' → ∃ h, history s' = history s ++ h.
Proof.
  induction rs as [| r rs IH]; intros s s' H; simpl in H; inv_all.
  - exists []. by rewrite app_nil_r.
  - apply set_modified_history in Hm. destruct (IH _ _ H) as (h & Hh).
    exists (EvNotify r :: h). rewrite Hh, Hm, <- app_assoc. done.
Qed.

Lemma Mod_write_cases fuel m v s s' :
  Mod_write fuel m v s = Done s' →
  nodes s' = nodes s ∨ ∃ r h, history s' = history s ++ EvNotify r :: h.
Proof.
  unfold Mod_write, notify_readers. intros H.
  apply res_bind_Done in H as (md & Hm & H).
  destruct (negb (written md) || T_ne (value md) v); [| inv_all; by left].
  apply res_bind_Done in H as (s1 & H1 & H).
  apply res_bind_Done in H1 as (md0 & Hm0 & H1).
  destruct (CRS.for_all (readers md0)) as [rs set'].
  apply res_bind_Done in H as (md1 & Hm1 & H). injection H as <-.
  destruct rs as [| r rs]; simpl in H1.
  - injection H1 as <-. by left.
  - right. apply res_bind_Done in H1 as (s2 & H2 & H1).
    apply set_modified_history in H2.
    apply for_each_set_modified_history in H1 as (h & Hh).
    exists r, h. simpl. rewrite Hh, H2, <- app_assoc. done.
Qed.

Lemma no_notify_contra s s' r h :
  no_notify s s' → history s' = history s ++ EvNotify r :: h → False.
Proof.
  intros (h0 & Q & F) Q'. rewrite Q in Q'. apply app_inv_head in Q'. subst h0.
  apply Forall_cons in F as [F _]. discriminate.
Qed.

Lemma calm_Mod_write fuel m v s s' : Mod_write fuel m v s = Done s' → calm s s'.
Proof.
  intros H. split; [eapply grows_Mod_write; eauto |]. intros _ N.
  destruct (Mod_write_cases _ _ _ _ _ H) as [Q | (r & h & Q)].
  - by apply settles_same_nodes.
  - destruct (no_notify_contra _ _ _ _ N Q).
Qed.

Lemma calm_add_reader m r s s' : add_reader m r s = Done s' → calm s s'.
Proof.
  intros H. apply calm_same_nodes; [eapply grows_add_reader; eauto |].
  eapply add_reader_frame; eauto.
Qed.

Lemma calm_remove_reader m r s s' : remove_reader m r s = Done s' → calm s s'.
Proof.
  intros H. apply calm_same_nodes; [eapply grows_remove_reader; eauto |].
  eapply remove_reader_frame; eauto.
Qed.

Lemma calm_merge_readers r old new s s' :
  merge_readers r old new s = Done s' → calm s s'.
Proof.
  intros H. apply calm_same_nodes; [eapply grows_merge_readers; eauto |].
  eapply merge_readers_frame; eauto.
Qed.

Lemma calm_gc_opt o s s' : gc_opt o s = Done s' → calm s s'.
Proof.
  intros H. apply calm_same_nodes; [eapply grows_gc_opt; eauto |].
  eapply gc_opt_frame; eauto.
Qed.

Lemma calm_for_each {A} (f : A → state → res state) (l : list A) :
  (∀ x s s', f x s = Done s' → calm s s') →
  ∀ s s', for_each f l s = Done s' → calm s s'.
Proof.
  intros Hf. induction l as [| x l IH]; intros s s' H; simpl in H.
  - inv_all. apply calm_refl.
  - apply res_bind_Done in H as (s1 & H1 & H).
    eapply calm_trans; [eapply Hf; eauto | eauto].
Qed.

Lemma calm_record e s : is_destroy e = false → calm s (record e s).
Proof. intros He. apply calm_same_nodes; [by apply grows_record | done]. Qed.

Lemma node_aligned s n nd : heap_wf s → nodes s !! n = Some nd → marked_ptr.get_mark n = 0.
Proof. intros (Wn & _) Hn. apply marked_ptr.get_mark_aligned. apply (Wn _ _ Hn). Qed.

Lemma node_below_brk s n nd : heap_wf s → nodes s !! n = Some nd → n < brk s.
Proof. intros (Wn & _) Hn. apply (Wn _ _ Hn). Qed.

Lemma calm_alloc n s a s' : alloc n s = Done (a, s') → calm s s'.
Proof.
  intros H. split; [eapply grows_alloc; eauto |]. intros _ _.
  unfold alloc, allocate in H. inv_all.
  eapply (settles_trans _ _ (put_mod (brk s) Mod_new (set_brk (Z.add ALIGN) s)));
    [by apply settles_same_nodes |].
  eapply settles_put_node_inert; eauto using node_stays_with_dynamic_mods.
Qed.

(** Allocate a node under [n] and hang it into a child slot. *)
Lemma calm_make_left k n s a s' : make_left k n s = Done (a, s') → calm s s'.
Proof.
  intros H. split; [eapply grows_make_left; eauto |]. intros W _.
  unfold make_left in H. inv_all.
  destruct (gc_opt_frame _ _ _ Hm0) as (Qn & Qm & Qb & Qh).
  destruct (grows_gc_opt _ _ _ Hm0 W) as [W1 _].
  assert (nodes a1 !! n = Some a0) as Hn1 by (by rewrite Qn).
  destruct (settles_new_node _ _ _ _ _ W1 (node_aligned _ _ _ W1 Hn1) Heqp) as [S1 Q1].
  rewrite Qb in S1, Q1.
  eapply settles_trans; [by apply (settles_same_nodes _ s a1) |].
  eapply settles_trans; [exact S1 |].
  eapply settles_link_left; [done | eapply node_below_brk; eauto | done].
Qed.

Lemma calm_make_right k n s a s' : make_right k n s = Done (a, s') → calm s s'.
Proof.
  intros H. split; [eapply grows_make_right; eauto |]. intros W _.
  unfold make_right in H. inv_all.
  destruct (gc_opt_frame _ _ _ Hm0) as (Qn & Qm & Qb & Qh).
  destruct (grows_gc_opt _ _ _ Hm0 W) as [W1 _].
  assert (nodes a1 !! n = Some a0) as Hn1 by (by rewrite Qn).
  destruct (settles_new_node _ _ _ _ _ W1 (node_aligned _ _ _ W1 Hn1) Heqp) as [S1 Q1].
  rewrite Qb in S1, Q1.
  eapply settles_trans; [by apply (settles_same_nodes _ s a1) |].
  eapply settles_trans; [exact S1 |].
  eapply settles_link_right; [done | eapply node_below_brk; eauto | done].
Qed.


Lemma quiet_from_same_nodes b s s' o :
  nodes s' = nodes s → quiet_from b s o → quiet_from b s' o.
Proof. intros Q. induction 1; econstructor; eauto. by rewrite Q. Qed.

Lemma for_each_add_reader_frame a deps : ∀ s s',
  for_each (λ m, add_reader m a) deps s = Done s' →
  nodes s' = nodes s ∧ brk s' = brk s.
Proof.
  induction deps as [| m deps IH]; intros s s' H; simpl in H; inv_all; [done |].
  destruct (add_reader_frame _ _ _ _ Hm) as (Q1 & _ & Q2).
  destruct (IH _ _ H) as (R1 & R2). split; congruence.
Qed.

Lemma calm_make_read_node k deps n s a s' :
  make_read_node k deps n s = Done (a, s') → calm s s'.
Proof.
  intros H. split; [eapply grows_make_read_node; eauto |]. intros W _.
  unfold make_read_node in H.
  apply res_bind_Done in H as (nd & Hn & H). apply get_node_Done in Hn.
  apply res_bind_Done in H as (s1 & Hgc & H).
  destruct (new_node k n s1) as [a0 s2] eqn:Hnew.
  apply res_bind_Done in H as (s3 & Hadd & H).
  apply res_bind_Done in H as (nd3 & Hn3 & H). apply get_node_Done in Hn3.
  injection H as <- <-.
  destruct (gc_opt_frame _ _ _ Hgc) as (Qn & Qm & Qb & Qh).
  destruct (grows_gc_opt _ _ _ Hgc W) as [W1 _].
  assert (nodes s1 !! n = Some nd) as Hn1 by (by rewrite Qn).
  destruct (settles_new_node _ _ _ _ _ W1 (node_aligned _ _ _ W1 Hn1) Hnew) as [S1 Q1].
  rewrite Qb in S1, Q1.
  destruct (for_each_add_reader_frame _ _ _ _ Hadd) as (Qn3 & Qb3).
  eapply settles_trans; [by apply (settles_same_nodes _ s s1) |].
  eapply settles_trans; [exact S1 |].
  eapply settles_trans; [by apply (settles_same_nodes _ s2 s3) |].
  eapply settles_link_left; [done | eapply node_below_brk; eauto |].
  by apply (quiet_from_same_nodes _ s2).
Qed.

Lemma materialize_live cur s n s' :
  materialize cur s = Done (n, s') → is_Some (nodes s' !! n).
Proof.
  unfold materialize. intros H. destruct cur as [k | p].
  - apply res_bind_Done in H as (nd & Hn & H). apply get_node_Done in Hn.
    injection H as <- <-. eauto.
  - apply res_bind_Done in H as (pn & Hp & H).
    destruct (nright pn) as [k |].
    + apply res_bind_Done in H as (nd & Hn & H). apply get_node_Done in Hn.
      injection H as <- <-. eauto.
    + apply res_bind_Done in H as (u & _ & H).
      destruct (new_node SNode p s) as [a s1] eqn:Hnew.
      apply res_bind_Done in H as (pn1 & Hp1 & H). apply get_node_Done in Hp1.
      injection H as <- <-.
      destruct (grows_new_node _ _ _ _ _ Hnew) as (_ & -> & _ & Hnodes & _). simpl.
      destruct (decide (p = brk s)) as [-> | Hne].
      * rewrite lookup_insert_eq. eauto.
      * rewrite lookup_insert_ne by done. rewrite Hnodes, lookup_insert_eq. eauto.
Qed.

Lemma calm_materialize cur s n s' : materialize cur s = Done (n, s') → calm s s'.
Proof.
  intros H. split; [eapply grows_materialize; eauto |]. intros W _.
  unfold materialize in H. destruct cur as [k | p].
  - apply res_bind_Done in H as (nd & Hn & H). injection H as <- <-. apply settles_refl.
  - apply res_bind_Done in H as (pn & Hp & H). apply get_node_Done in Hp.
    destruct (nright pn) as [k |].
    + apply res_bind_Done in H as (nd & Hn & H). injection H as <- <-. apply settles_refl.
    + apply res_bind_Done in H as (u & _ & H).
      destruct (new_node SNode p s) as [a s1] eqn:Hnew.
      apply res_bind_Done in H as (pn1 & Hp1 & H). apply get_node_Done in Hp1.
      injection H as <- <-.
      destruct (settles_new_node _ _ _ _ _ W (node_aligned _ _ _ W Hp) Hnew) as [S1 Q1].
      eapply settles_trans; [exact S1 |].
      eapply settles_link_right; [done | eapply node_below_brk; eauto | done].
Qed.


Lemma step_split s s1 s' :
  grows s s1 → grows s1 s' → heap_wf s → no_notify s s' →
  heap_wf s1 ∧ heap_wf s' ∧ no_notify s s1 ∧ no_notify s1 s' ∧ brk s ≤ brk s1.
Proof.
  intros G1 G2 W N. destruct (G1 W) as [W1 E1]. destruct (G2 W1) as [W2 E2].
  destruct (no_notify_split _ _ _ E1 E2 N) as [N1 N2].
  pose proof (ext_brk _ _ E1). done.
Qed.

Lemma brk_aligned s : heap_wf s → marked_ptr.get_mark (brk s) = 0.
Proof. intros (_ & _ & Wb). by apply marked_ptr.get_mark_aligned. Qed.

Section calm_loops.
Context {A : Type} (f : Z → Z → A → state → res (A * state)).
Hypothesis calm_f : ∀ node i a s a' s', f node i a s = Done (a', s') → calm s s'.

Lemma grows_f_of_calm node i a s a' s' : f node i a s = Done (a', s') → grows s s'.
Proof. intros H. eapply calm_f; eauto. Qed.

Lemma psac_seq_for_builds fuel : ∀ parent_ lo hi a s a' node s',
  heap_wf s → marked_ptr.get_mark parent_ = 0 →
  _psac_seq_for fuel f parent_ lo hi a s = Done (a', node, s') → no_notify s s' →
  settles (brk s) s s' ∧ quiet_from (brk s) s' (Some node).
Proof.
  induction fuel as [| fuel IH]; intros parent_ lo hi a s a' node s' W Hp H N;
    cbn [_psac_seq_for] in H; [discriminate |].
  destruct (lo =? hi - 1).
  - destruct (new_node SNode parent_ s) as [nd0 s1] eqn:Hnew.
    apply res_bind_Done in H as ([a1 s2] & Hf & H). injection H as <- <- <-.
    destruct (settles_new_node _ _ _ _ _ W Hp Hnew) as [S1 Q1].
    destruct (step_split s s1 s2 (proj1 (grows_new_node _ _ _ _ _ Hnew))
                (grows_f_of_calm _ _ _ _ _ _ Hf) W N) as (W1 & W2 & N1 & N2 & B1).
    pose proof (settles_le _ _ _ _ B1 (proj2 (calm_f _ _ _ _ _ _ Hf) W1 N2)) as S2.
    split; [eapply settles_trans; eauto |].
    eapply quiet_from_settles; [exact S2 | lia | exact Q1].
  - destruct (new_node SNode parent_ s) as [nd0 s1] eqn:Hnew.
    apply res_bind_Done in H as ([[a1 l] s2] & Hl & H).
    apply res_bind_Done in H as (nd2 & Hn2 & H). apply get_node_Done in Hn2.
    apply res_bind_Done in H as ([[a2 r] s4] & Hr & H).
    apply res_bind_Done in H as (nd4 & Hn4 & H). apply get_node_Done in Hn4.
    injection H as <- <- <-.
    destruct (grows_new_node _ _ _ _ _ Hnew) as (G1 & -> & Hb1 & Hnodes1 & _).
    destruct (settles_new_node _ _ _ _ _ W Hp Hnew) as [S1 Q1].
    pose proof (grows_psac_seq_for f grows_f_of_calm _ _ _ _ _ _ _ _ _ Hl) as G2.
    pose proof (grows_put_node _ _ (with_left (Some l) nd2) _ Hn2
                  (node_stays_with_left _ _)) as G3.
    pose proof (grows_psac_seq_for f grows_f_of_calm _ _ _ _ _ _ _ _ _ Hr) as G4.
    pose proof (grows_put_node _ _ (with_right (Some r) nd4) _ Hn4
                  (node_stays_with_right _ _)) as G5.
    destruct (step_split _ _ _ G1 (grows_trans _ _ _ G2 (grows_trans _ _ _ G3
                (grows_trans _ _ _ G4 G5))) W N) as (W1 & _ & N1 & N1' & B1).
    destruct (step_split _ _ _ G2 (grows_trans _ _ _ G3 (grows_trans _ _ _ G4 G5)) W1 N1')
      as (W2 & _ & N2 & N2' & B2).
    destruct (step_split _ _ _ G3 (grows_trans _ _ _ G4 G5) W2 N2')
      as (W3 & _ & N3 & N3' & B3).
    destruct (step_split _ _ _ G4 G5 W3 N3') as (W4 & _ & N4 & N4' & B4).
    destruct (IH _ _ _ _ _ _ _ _ W1 (brk_aligned _ W) Hl N2) as [S2 Q2].
    assert (brk s < brk s1) as Hlt by (rewrite Hb1; unfold ALIGN; lia).
    pose proof (settles_link_left (brk s1) _ _ _ (Some l) Hn2 Hlt Q2) as S3.
    destruct (IH _ _ _ _ _ _ _ _ W3 (brk_aligned _ W) Hr N4) as [S4 Q4].
    simpl in B3.
    assert (brk s < brk (put_node (brk s) (with_left (Some l) nd2) s2)) as Hlt3
      by (simpl; lia).
    pose proof (settles_link_right _ _ _ _ (Some r) Hn4 Hlt3 Q4) as S5.
    assert (settles (brk s) s1
              (put_node (brk s) (with_right (Some r) nd4) s4)) as S15.
    { eapply settles_trans; [eapply settles_le; [| exact S2]; lia |].
      eapply settles_trans; [eapply settles_le; [| exact S3]; lia |].
      eapply settles_trans; [eapply settles_le; [| exact S4]; simpl; lia |].
      eapply settles_le; [| exact S5]. simpl. lia. }
    split; [eapply settles_trans; eauto |].
    eapply quiet_from_settles; [exact S15 | lia | exact Q1].
Qed.

Lemma psac_par_for_builds fuel : ∀ parent_ lo hi g a s a' node s',
  heap_wf s → marked_ptr.get_mark parent_ = 0 →
  _psac_par_for fuel f parent_ lo hi g a s = Done (a', node, s') → no_notify s s' →
  settles (brk s) s s' ∧ quiet_from (brk s) s' (Some node).
Proof.
  induction fuel as [| fuel IH]; intros parent_ lo hi g a s a' node s' W Hp H N;
    cbn [_psac_par_for] in H; [discriminate |].
  destruct (hi - lo <=? g); [eapply psac_seq_for_builds; eauto |].
  destruct (new_node PNode parent_ s) as [nd0 s1] eqn:Hnew.
  apply res_bind_Done in H as ([[a1 l] s2] & Hl & H).
  apply res_bind_Done in H as (nd2 & Hn2 & H). apply get_node_Done in Hn2.
  apply res_bind_Done in H as ([[a2 r] s4] & Hr & H).
  apply res_bind_Done in H as (nd4 & Hn4 & H). apply get_node_Done in Hn4.
  injection H as <- <- <-.
  destruct (grows_new_node _ _ _ _ _ Hnew) as (G1 & -> & Hb1 & Hnodes1 & _).
  destruct (settles_new_node _ _ _ _ _ W Hp Hnew) as [S1 Q1].
  pose proof (grows_psac_par_for f grows_f_of_calm _ _ _ _ _ _ _ _ _ _ Hl) as G2.
  pose proof (grows_put_node _ _ (with_left (Some l) nd2) _ Hn2
                (node_stays_with_left _ _)) as G3.
  pose proof (grows_psac_par_for f grows_f_of_calm _ _ _ _ _ _ _ _ _ _ Hr) as G4.
  pose proof (grows_put_node _ _ (with_right (Some r) nd4) _ Hn4
                (node_stays_with_right _ _)) as G5.
  destruct (step_split _ _ _ G1 (grows_trans _ _ _ G2 (grows_trans _ _ _ G3
              (grows_trans _ _ _ G4 G5))) W N) as (W1 & _ & N1 & N1' & B1).
  destruct (step_split _ _ _ G2 (grows_trans _ _ _ G3 (grows_trans _ _ _ G4 G5)) W1 N1')
    as (W2 & _ & N2 & N2' & B2).
  destruct (step_split _ _ _ G3 (grows_trans _ _ _ G4 G5) W2 N2')
    as (W3 & _ & N3 & N3' & B3).
  destruct (step_split _ _ _ G4 G5 W3 N3') as (W4 & _ & N4 & N4' & B4).
  destruct (IH _ _ _ _ _ _ _ _ _ W1 (brk_aligned _ W) Hl N2) as [S2 Q2].
  assert (brk s < brk s1) as Hlt by (rewrite Hb1; unfold ALIGN; lia).
  pose proof (settles_link_left (brk s1) _ _ _ (Some l) Hn2 Hlt Q2) as S3.
  destruct (IH _ _ _ _ _ _ _ _ _ W3 (brk_aligned _ W) Hr N4) as [S4 Q4].
  simpl in B3.
  assert (brk s < brk (put_node (brk s) (with_left (Some l) nd2) s2)) as Hlt3
    by (simpl; lia).
  pose proof (settles_link_right _ _ _ _ (Some r) Hn4 Hlt3 Q4) as S5.
  assert (settles (brk s) s1
            (put_node (brk s) (with_right (Some r) nd4) s4)) as S15.
  { eapply settles_trans; [eapply settles_le; [| exact S2]; lia |].
    eapply settles_trans; [eapply settles_le; [| exact S3]; lia |].
    eapply settles_trans; [eapply settles_le; [| exact S4]; simpl; lia |].
    eapply settles_le; [| exact S5]. simpl. lia. }
  split; [eapply settles_trans; eauto |].
  eapply quiet_from_settles; [exact S15 | lia | exact Q1].
Qed.

End calm_loops.


Definition interp_calm (run : interp) : Prop :=
  ∀ p ctx cur s ctx' cur' s', run p ctx cur s = Done (ctx', cur', s') → calm s s'.

Lemma calm_put_node_inert s n nd nd' :
  nodes s !! n = Some nd → node_stays nd nd' →
  is_dirty nd' = is_dirty nd → pending_update nd' = pending_update nd →
  nleft nd' = nleft nd → nright nd' = nright nd →
  calm s (put_node n nd' s).
Proof.
  intros. split; [by eapply grows_put_node | intros _ _; by eapply settles_put_node_inert].
Qed.

Lemma calm_execute_with run r s s' :
  interp_calm run → execute_with run r s = Done s' → calm s s'.
Proof.
  intros Hrun. unfold execute_with. intros H.
  apply res_bind_Done in H as (nd & Hn & H). apply get_node_Done in Hn.
  destruct (kind nd) as [| | f ms | f range | f ms] eqn:K; try discriminate.
  - apply res_bind_Done in H as (vs & _ & H).
    apply res_bind_Done in H as ([[ctx c] s1] & Hr & H). injection H as <-.
    eapply calm_trans; [| eapply Hrun; eauto]. by apply calm_record.
  - apply res_bind_Done in H as (vs & _ & H).
    apply res_bind_Done in H as ([[ctx c] s1] & Hr & H). injection H as <-.
    eapply calm_trans; [| eapply Hrun; eauto]. by apply calm_record.
  - apply res_bind_Done in H as ([[ctx c] s1] & Hr & H).
    destruct ctx as [new_mods |]; [| discriminate].
    apply res_bind_Done in H as (nd1 & Hn1 & H). apply get_node_Done in Hn1.
    destruct (kind nd1) as [| | | | f' old] eqn:K1; try discriminate.
    apply res_bind_Done in H as (s2 & Hmg & H).
    apply res_bind_Done in H as (nd2 & Hn2 & H). apply get_node_Done in Hn2.
    injection H as <-.
    destruct (merge_readers_frame _ _ _ _ _ Hmg) as (Q & _).
    pose proof Hn2 as Hn2'. rewrite Q, Hn1 in Hn2'. injection Hn2' as <-.
    eapply calm_trans; [| eapply calm_put_node_inert; eauto;
                          eapply node_stays_with_kind_scope; eauto].
    eapply calm_trans; [| eapply calm_merge_readers; eauto].
    eapply calm_trans; [| eapply Hrun; eauto].
    by apply calm_record.
Qed.

Lemma exec_calm fuel : interp_calm (exec fuel).
Proof.
  induction fuel as [| fuel IH]; intros p ctx cur s ctx' cur' s' H;
    cbn [exec] in H; [discriminate |].
  pose proof (calm_execute_with (exec fuel)) as Hex.
  destruct p.
  - injection H as <- <- <-. apply calm_refl.
  - apply res_bind_Done in H as (s1 & Hw & H).
    eapply calm_trans; [eapply calm_Mod_write; eauto | eapply IH; eauto].
  - apply res_bind_Done in H as ([n s1] & Hm & H).
    apply res_bind_Done in H as ([a s2] & Ha & H).
    eapply calm_trans; [eapply calm_materialize; eauto |].
    eapply calm_trans; [eapply calm_alloc; eauto | eapply IH; eauto].
  - apply res_bind_Done in H as ([n s1] & Hm & H).
    apply res_bind_Done in H as ([r s2] & Hr & H).
    apply res_bind_Done in H as (s3 & He & H).
    apply res_bind_Done in H as (c & Ha & H).
    eapply calm_trans; [eapply calm_materialize; eauto |].
    eapply calm_trans; [eapply calm_make_read_node; eauto |].
    eapply calm_trans; [eapply Hex; eauto | eapply IH; eauto].
  - apply res_bind_Done in H as ([n s1] & Hm & H).
    apply res_bind_Done in H as ([r s2] & Hr & H).
    apply res_bind_Done in H as (s3 & He & H).
    apply res_bind_Done in H as (c & Ha & H).
    eapply calm_trans; [eapply calm_materialize; eauto |].
    eapply calm_trans; [eapply calm_make_read_node; eauto |].
    eapply calm_trans; [eapply Hex; eauto | eapply IH; eauto].
  - apply res_bind_Done in H as ([n s1] & Hm & H).
    apply res_bind_Done in H as ([r s2] & Hr & H).
    apply res_bind_Done in H as (s3 & He & H).
    apply res_bind_Done in H as (c & Ha & H).
    eapply calm_trans; [eapply calm_materialize; eauto |].
    eapply calm_trans; [eapply calm_make_read_node; eauto |].
    eapply calm_trans; [eapply Hex; eauto | eapply IH; eauto].
  - destruct ctx as [c |]; [| discriminate].
    apply res_bind_Done in H as (md & _ & H). eapply IH; eauto.
  - apply res_bind_Done in H as ([n s1] & Hm & H).
    apply res_bind_Done in H as ([pn s2] & Hp & H).
    apply res_bind_Done in H as ([sl s3] & Hl & H).
    apply res_bind_Done in H as ([sr s4] & Hr & H).
    apply res_bind_Done in H as ([[ctx1 c1] s5] & Hel & H).
    apply res_bind_Done in H as ([[ctx2 c2] s6] & Her & H).
    apply res_bind_Done in H as (c & Ha & H).
    eapply calm_trans; [eapply calm_materialize; eauto |].
    eapply calm_trans; [eapply calm_make_left; eauto |].
    eapply calm_trans; [eapply calm_make_left; eauto |].
    eapply calm_trans; [eapply calm_make_right; eauto |].
    eapply calm_trans; [eapply IH; eauto |].
    eapply calm_trans; [eapply IH; eauto | eapply IH; eauto].
  - apply res_bind_Done in H as ([n s1] & Hm & H).
    apply res_bind_Done in H as ([[ctx1 l] s2] & Hpar & H).
    apply res_bind_Done in H as (s3 & Hset & H).
    apply res_bind_Done in H as (c & Ha & H).
    eapply calm_trans; [eapply calm_materialize; eauto |].
    eapply calm_trans; [| eapply IH; eauto].
    assert (∀ node i a s a' s',
              ('(ctx, _, s) ← exec fuel (body i) a (AtNode node) s; Done (ctx, s))
              = Done (a', s') → calm s s') as Hbody.
    { intros node i a x a' x' Hb.
      apply res_bind_Done in Hb as ([[? ?] ?] & Hb & Hd). injection Hd as <- <-.
      eapply IH; eauto. }
    pose proof (grows_psac_par_for _ (λ node i a s a' s' Hb, proj1 (Hbody node i a s a' s' Hb))
                  _ _ _ _ _ _ _ _ _ _ Hpar) as G2.
    pose proof (grows_set_left _ _ _ _ Hset) as G3.
    split; [eapply grows_trans; eauto |]. intros W1 N.
    destruct (step_split _ _ _ G2 G3 W1 N) as (W2 & W3 & N2 & N3 & B2).
    destruct (materialize_live _ _ _ _ Hm) as (nd1 & Hn1).
    destruct (psac_par_for_builds _ Hbody _ _ _ _ _ _ _ _ _ _ W1
                (node_aligned _ _ _ W1 Hn1) Hpar N2) as [S2 Q2].
    eapply settles_trans; [exact S2 |].
    unfold set_left in Hset.
    apply res_bind_Done in Hset as (nd2 & Hn2 & Hset). apply get_node_Done in Hn2.
    apply res_bind_Done in Hset as (s2' & Hgc & Hset). injection Hset as <-.
    destruct (gc_opt_frame _ _ _ Hgc) as (Qn & _).
    eapply settles_trans; [by apply (settles_same_nodes _ s2 s2') |].
    eapply settles_link_left; [by rewrite Qn | eapply node_below_brk; eauto |].
    by apply (quiet_from_same_nodes _ s2).
  - apply res_bind_Done in H as ([[ctx1 c1] s1] & H1 & H).
    eapply calm_trans; [eapply IH; eauto | eapply IH; eauto].
Qed.

Lemma calm_execute fuel n s s' : execute fuel n s = Done s' → calm s s'.
Proof. apply calm_execute_with, exec_calm. Qed.


(** Clearing the flags of a node whose children are quiet *)
Lemma settles_clean b s s' n nd nd' :
  nodes s !! n = Some nd → nodes s' = <[n := nd']> (nodes s) →
  node_stays nd nd' → is_dirty nd' = false → pending_update nd' = false →
  nleft nd' = nleft nd → nright nd' = nright nd →
  quiet s (nleft nd) → quiet s (nright nd) →
  settles b s s' ∧ quiet s' (Some n).
Proof.
  intros Hn Hs' St D P L R Ql Qr.
  assert (∀ o, quiet s o → quiet s' o) as Tr.
  { induction 1 as [| k kd Hk Dk Pk Hl IHl Hr IHr]; [constructor |].
    destruct (decide (n = k)) as [<- | Hne].
    - rewrite Hn in Hk. injection Hk as <-.
      econstructor; [rewrite Hs'; apply lookup_insert_eq | done | done | |];
        [by rewrite L | by rewrite R].
    - econstructor; eauto. rewrite Hs'. by rewrite lookup_insert_ne. }
  assert (quiet s' (Some n)) as Qn.
  { econstructor; [rewrite Hs'; apply lookup_insert_eq | done | done | |];
      [rewrite L | rewrite R]; auto. }
  split; [| done]. split. intros k kd Hk. rewrite Hs'.
  destruct (decide (n = k)) as [<- | Hne].
  - rewrite lookup_insert_eq. exists nd'. rewrite Hn in Hk. injection Hk as <-.
    split; [done |]. split; [done |].
    split; [congruence |]. split; [congruence |].
    split; [done |]. split; by left.
  - rewrite lookup_insert_ne by done. exists kd.
    split; [done |]. split; [apply node_stays_refl |].
    split; [done |]. split; [done |].
    split; [intros; congruence |]. split; by left.
Qed.

(** [detach] up to the hand-over to the collector *)
Lemma detach_pre n s nd :
  heap_wf s → nodes s !! n = Some nd →
  detach n s = GarbageCollector_add (brk s)
    {| nodes := <[n := with_dynamic_mods [] (with_right None (with_left None nd))]>
                  (<[brk s := {| kind := SNode; dynamic_mods := dynamic_mods nd;
                                 parent := 0; nleft := nleft nd; nright := nright nd;
                                 pending_update := false |}]> (nodes s));
       mods := mods s;
       garbage := garbage s;
       brk := brk s + ALIGN;
       history := history s |}.
Proof.
  intros (Wn & _) Hn. pose proof (Wn _ _ Hn) as Hlt. simpl in Hlt.
  assert (brk s ≠ n) as Hne by lia.
  unfold detach, get_node. rewrite Hn. simpl.
  unfold new_node, allocate.
  rewrite (update_node_Done n _ _ nd)
    by (simpl; rewrite lookup_insert_ne by done; exact Hn).
  simpl.
  erewrite set_left_empty; [| simpl; rewrite lookup_insert_ne by done;
                              apply lookup_insert_eq | done].
  simpl.
  erewrite update_node_Done by (simpl; rewrite lookup_insert_ne by done;
                                rewrite lookup_insert_eq; done).
  simpl.
  erewrite set_right_empty; [| simpl; rewrite lookup_insert_ne by done;
                               apply lookup_insert_eq | done].
  simpl.
  erewrite update_node_Done by (simpl; apply lookup_insert_eq).
  simpl.
  erewrite update_node_Done by (simpl; rewrite lookup_insert_ne by done;
                                rewrite lookup_insert_ne by done;
                                apply lookup_insert_eq).
  simpl. f_equal. unfold put_node, set_nodes. simpl. f_equal; [| unfold ALIGN; lia].
  apply map_eq. intros k.
  destruct (decide (k = n)) as [-> | Hkn]; [by rewrite !lookup_insert_eq |].
  rewrite !(lookup_insert_ne _ n k) by done.
  destruct (decide (k = brk s)) as [-> | Hkb]; [by rewrite !lookup_insert_eq |].
  by rewrite !lookup_insert_ne by done.
Qed.

Lemma settles_detach n s s' nd :
  heap_wf s → nodes s !! n = Some nd → detach n s = Done s' →
  settles (brk s) s s' ∧
  ∃ nd', nodes s' !! n = Some nd' ∧ nleft nd' = None ∧ nright nd' = None.
Proof.
  intros W Hn H. rewrite (detach_pre _ _ _ W Hn) in H.
  unfold GarbageCollector_add in H. simpl in H.
  destruct (garbage s !! worker_id); [| discriminate]. injection H as <-.
  pose proof (node_below_brk _ _ _ W Hn) as Hlt.
  split; [| simpl; rewrite lookup_insert_eq; eauto].
  split. intros k kd Hk. simpl.
  destruct (decide (n = k)) as [<- | Hne].
  - rewrite lookup_insert_eq. eexists. rewrite Hn in Hk. injection Hk as <-.
    split; [done |]. split; [split; [apply kind_stays_refl | done] |].
    split; [done |]. split; [done |].
    split; [unfold is_dirty; simpl; intros; congruence |].
    split; right; constructor.
  - rewrite lookup_insert_ne by done.
    rewrite lookup_insert_ne by (pose proof (node_below_brk _ _ _ W Hk); lia).
    exists kd. split; [done |]. split; [apply node_stays_refl |].
    split; [done |]. split; [done |].
    split; [intros; congruence |]. split; by left.
Qed.


Lemma settles_child_left b s s' n nd nd' :
  settles b s s' → nodes s !! n = Some nd → nodes s' !! n = Some nd' →
  quiet s' (nleft nd) → quiet s' (nleft nd').
Proof.
  intros St Hn Hn' Q.
  destruct (settles_nodes _ _ _ St _ _ Hn) as (x & Hx & _ & _ & _ & _ & [L | L] & _);
    rewrite Hn' in Hx; injection Hx as <-.
  - by rewrite L.
  - eapply quiet_from_quiet; eauto.
Qed.

Lemma settles_child_right b s s' n nd nd' :
  settles b s s' → nodes s !! n = Some nd → nodes s' !! n = Some nd' →
  quiet s' (nright nd) → quiet s' (nright nd').
Proof.
  intros St Hn Hn' Q.
  destruct (settles_nodes _ _ _ St _ _ Hn) as (x & Hx & _ & _ & _ & _ & _ & [L | L]);
    rewrite Hn' in Hx; injection Hx as <-.
  - by rewrite L.
  - eapply quiet_from_quiet; eauto.
Qed.

Lemma settles_pending b s s' n nd nd' :
  settles b s s' → nodes s !! n = Some nd → nodes s' !! n = Some nd' →
  pending_update nd = false → pending_update nd' = false.
Proof.
  intros St Hn Hn' P.
  destruct (settles_nodes _ _ _ St _ _ Hn) as (x & Hx & _ & _ & Hp & _).
  rewrite Hn' in Hx. injection Hx as <-. eapply not_true_false; eauto.
Qed.

(** The last statement of the three [propagate] bodies *)
Lemma finish_clean fuel b s s1 s' n nd1 :
  settles b s s1 → nodes s1 !! n = Some nd1 → pending_update nd1 = false →
  quiet s1 (nleft nd1) → quiet s1 (nright nd1) →
  set_dirty fuel n false s1 = Done s' →
  settles b s s' ∧ quiet s' (Some n).
Proof.
  intros S1 Hn1 P Ql Qr H.
  apply set_dirty_false in H as (x & Hx & ->). rewrite Hn1 in Hx. injection Hx as <-.
  destruct (settles_clean b s1
              (put_node n (with_parent (marked_ptr.set_mark (parent nd1) 0) nd1) s1)
              n nd1 _ Hn1 eq_refl (node_stays_mark nd1 false)
              (is_dirty_set_mark nd1 false) P eq_refl eq_refl Ql Qr) as [S2 Q2].
  split; [eapply settles_trans; eauto | done].
Qed.

Lemma covered_node_inv s n nd :
  covered s (Some n) → nodes s !! n = Some nd →
  (is_dirty nd = false → quiet s (Some n))
  ∧ (is_reader (kind nd) = false → pending_update nd = false)
  ∧ covered s (nleft nd) ∧ covered s (nright nd).
Proof.
  intros C Hn. inversion C as [| ? nd0 Hn0 Hq Hnp Cl Cr]; subst.
  rewrite Hn in Hn0. injection Hn0 as <-. done.
Qed.

Lemma propagate_settles fuel : ∀ n s s',
  heap_wf s → covered s (Some n) → propagate fuel n s = Done s' → no_notify s s' →
  settles (brk s) s s' ∧ quiet s' (Some n).
Proof.
  induction fuel as [| fuel IH]; intros n s s' W C H N; cbn [propagate] in H;
    [discriminate |].
  assert (∀ o s s', heap_wf s → covered s o →
            match o with Some c => propagate fuel c s | None => Done s end = Done s' →
            no_notify s s' → settles (brk s) s s' ∧ quiet s' o) as IHo.
  { intros [c |] x x' Wx Cx Hx Nx; [by eapply IH |].
    injection Hx as <-. split; [apply settles_refl | constructor]. }
  assert (∀ o s s',
            match o with Some c => propagate fuel c s | None => Done s end = Done s' →
            grows s s') as Go.
  { intros [c |] x x' Hx; [by eapply grows_propagate |].
    injection Hx as <-. apply grows_refl. }
  assert (∀ s s', heap_wf s → covered s (Some n) →
            (∀ nd, nodes s !! n = Some nd → pending_update nd = false) →
            (nd ← get_node n s;
             s ← match nleft nd with Some l => propagate fuel l s | None => Done s end;
             nd ← get_node n s;
             s ← match nright nd with Some r => propagate fuel r s | None => Done s end;
             set_dirty fuel n false s) = Done s' →
            no_notify s s' → settles (brk s) s s' ∧ quiet s' (Some n)) as Hch.
  { intros s1 s5 W1 C1 Pn Hc N1.
    apply res_bind_Done in Hc as (nd1 & Hn1 & Hc). apply get_node_Done in Hn1.
    apply res_bind_Done in Hc as (s2 & Hl & Hc).
    apply res_bind_Done in Hc as (nd2 & Hn2 & Hc). apply get_node_Done in Hn2.
    apply res_bind_Done in Hc as (s3 & Hr & Hc).
    pose proof (Go _ _ _ Hl) as G12. pose proof (Go _ _ _ Hr) as G23.
    pose proof (grows_set_dirty _ _ _ _ _ Hc) as G35.
    destruct (step_split _ _ _ G12 (grows_trans _ _ _ G23 G35) W1 N1)
      as (W2 & _ & N12 & N25 & B2).
    destruct (step_split _ _ _ G23 G35 W2 N25) as (W3 & _ & N23 & N35 & B3).
    destruct (covered_node_inv _ _ _ C1 Hn1) as (_ & _ & Cl & _).
    destruct (IHo _ _ _ W1 Cl Hl N12) as [S12 Q12].
    pose proof (covered_settles _ _ _ _ S12 C1) as C2.
    destruct (covered_node_inv _ _ _ C2 Hn2) as (_ & _ & _ & Cr).
    destruct (IHo _ _ _ W2 Cr Hr N23) as [S23 Q23].
    apply (settles_le _ (brk s1)) in S23; [| done].
    pose proof (settles_trans _ _ _ _ S12 S23) as S13.
    pose proof Hc as Hc'. apply set_dirty_false in Hc' as (nd3 & Hn3 & _).
    eapply finish_clean; [exact S13 | exact Hn3 | | | | exact Hc].
    - eapply settles_pending; [exact S13 | exact Hn1 | exact Hn3 | by apply Pn].
    - eapply settles_child_left; [exact S23 | exact Hn2 | exact Hn3 |].
      eapply quiet_settles; [exact S23 |].
      eapply settles_child_left; [exact S12 | exact Hn1 | exact Hn2 | exact Q12].
    - eapply settles_child_right; [exact S23 | exact Hn2 | exact Hn3 | exact Q23]. }
  apply res_bind_Done in H as (nd & Hn & H). apply get_node_Done in Hn.
  destruct (covered_node_inv _ _ _ C Hn) as (Hq & Hnp & Cl & Cr).
  assert (is_dirty nd = false → Done s = Done s' →
          settles (brk s) s s' ∧ quiet s' (Some n)) as Hclean.
  { intros D Q. injection Q as <-. split; [apply settles_refl | by apply Hq]. }
  assert (pending_update nd = false →
          ∀ x, nodes s !! n = Some x → pending_update x = false) as Hpn.
  { intros P x Hx. rewrite Hn in Hx. by injection Hx as <-. }
  destruct (kind nd) eqn:K.
  - destruct (is_dirty nd) eqn:D; [| by apply Hclean].
    apply Hch; auto.
  - destruct (is_dirty nd) eqn:D; [| by apply Hclean].
    apply res_bind_Done in H as (l & Hl & H).
    destruct (nleft nd) as [l0 |] eqn:El; [| discriminate]. injection Hl as ->.
    apply res_bind_Done in H as (ln & Hln & H). apply get_node_Done in Hln.
    apply res_bind_Done in H as (s1 & Hs1 & H).
    pose proof (grows_set_dirty _ _ _ _ _ H) as Gc.
    pose proof H as H'. apply set_dirty_false in H' as (nd1 & Hn1 & _).
    destruct (negb (is_dirty ln)) eqn:Dl.
    + apply res_bind_Done in Hs1 as (r & Hr & Hs1).
      destruct (nright nd) as [r0 |] eqn:Er; [| discriminate]. injection Hr as ->.
      destruct (step_split _ _ _ (grows_propagate _ _ _ _ Hs1) Gc W N)
        as (W1 & _ & N1 & _ & _).
      destruct (IH _ _ _ W Cr Hs1 N1) as [S1 Q1].
      eapply finish_clean; [exact S1 | exact Hn1 | | | | exact H].
      * eapply settles_pending; [exact S1 | exact Hn | exact Hn1 | by apply Hnp].
      * eapply settles_child_left; [exact S1 | exact Hn | exact Hn1 |].
        rewrite El. eapply quiet_settles; [exact S1 |].
        apply (covered_node_inv _ _ _ Cl Hln). by destruct (is_dirty ln).
      * eapply settles_child_right; [exact S1 | exact Hn | exact Hn1 |]. by rewrite Er.
    + apply res_bind_Done in Hs1 as (r & Hr & Hs1).
      destruct (nright nd) as [r0 |] eqn:Er; [| discriminate]. injection Hr as ->.
      apply res_bind_Done in Hs1 as (rn & Hrn & Hs1). apply get_node_Done in Hrn.
      destruct (negb (is_dirty rn)) eqn:Dr.
      * destruct (step_split _ _ _ (grows_propagate _ _ _ _ Hs1) Gc W N)
          as (W1 & _ & N1 & _ & _).
        destruct (IH _ _ _ W Cl Hs1 N1) as [S1 Q1].
        eapply finish_clean; [exact S1 | exact Hn1 | | | | exact H].
        -- eapply settles_pending; [exact S1 | exact Hn | exact Hn1 | by apply Hnp].
        -- eapply settles_child_left; [exact S1 | exact Hn | exact Hn1 |]. by rewrite El.
        -- eapply settles_child_right; [exact S1 | exact Hn | exact Hn1 |].
           rewrite Er. eapply quiet_settles; [exact S1 |].
           apply (covered_node_inv _ _ _ Cr Hrn). by destruct (is_dirty rn).
      * apply res_bind_Done in Hs1 as (s2 & Hs2 & Hs1).
        apply res_bind_Done in Hs1 as (nd2 & Hn2 & Hs1). apply get_node_Done in Hn2.
        apply res_bind_Done in Hs1 as (r2 & Hr2 & Hs1).
        destruct (nright nd2) as [r3 |] eqn:Er2; [| discriminate]. injection Hr2 as ->.
        pose proof (grows_propagate _ _ _ _ Hs2) as G12.
        pose proof (grows_propagate _ _ _ _ Hs1) as G21.
        destruct (step_split _ _ _ G12 (grows_trans _ _ _ G21 Gc) W N)
          as (W2 & _ & N12 & N2' & B2).
        destruct (step_split _ _ _ G21 Gc W2 N2') as (W1 & _ & N21 & _ & _).
        destruct (IH _ _ _ W Cl Hs2 N12) as [S12 Q12].
        pose proof (covered_settles _ _ _ _ S12 C) as C2.
        destruct (covered_node_inv _ _ _ C2 Hn2) as (_ & _ & _ & Cr2).
        rewrite Er2 in Cr2.
        destruct (IH _ _ _ W2 Cr2 Hs1 N21) as [S21 Q21].
        apply (settles_le _ (brk s)) in S21; [| done].
        pose proof (settles_trans _ _ _ _ S12 S21) as S1.
        eapply finish_clean; [exact S1 | exact Hn1 | | | | exact H].
        -- eapply settles_pending; [exact S1 | exact Hn | exact Hn1 | by apply Hnp].
        -- eapply settles_child_left; [exact S21 | exact Hn2 | exact Hn1 |].
           eapply quiet_settles; [exact S21 |].
           eapply settles_child_left; [exact S12 | exact Hn | exact Hn2 |].
           by rewrite El.
        -- eapply settles_child_right; [exact S21 | exact Hn2 | exact Hn1 |].
           by rewrite Er2.
  - destruct (pending_update nd) eqn:P;
      [| destruct (is_dirty nd) eqn:D; [apply Hch; auto | by apply Hclean]].
    apply res_bind_Done in H as (s1 & Hd & H).
    apply res_bind_Done in H as (u1 & _ & H).
    apply res_bind_Done in H as (pn & _ & H).
    apply res_bind_Done in H as (u2 & _ & H).
    apply res_bind_Done in H as (s2 & He & H).
    pose proof (grows_detach _ _ _ Hd) as G01.
    pose proof (grows_execute _ _ _ _ He) as G12.
    pose proof (grows_clear_pending_modification _ _ _ _ H) as G23.
    destruct (step_split _ _ _ G01 (grows_trans _ _ _ G12 G23) W N)
      as (W1 & _ & N01 & N1' & B1).
    destruct (step_split _ _ _ G12 G23 W1 N1') as (W2 & _ & N12 & _ & _).
    destruct (settles_detach _ _ _ _ W Hn Hd) as (S01 & nd1 & Hn1 & L1 & R1).
    pose proof (proj2 (calm_execute _ _ _ _ He) W1 N12) as S12.
    apply (settles_le _ (brk s)) in S12; [| done].
    pose proof (settles_trans _ _ _ _ S01 S12) as S02.
    unfold clear_pending_modification in H.
    apply res_bind_Done in H as (nd2 & Hn2 & H). apply get_node_Done in Hn2.
    apply set_dirty_false in H as (x & Hx & ->).
    simpl in Hx. rewrite lookup_insert_eq in Hx. injection Hx as <-.
    destruct (settles_clean (brk s) s2
                (put_node n (with_parent
                   (marked_ptr.set_mark (parent (with_pending false nd2)) 0)
                   (with_pending false nd2))
                   (put_node n (with_pending false nd2) s2))
                n nd2 _ Hn2 (insert_insert_eq _ _ _ _)
                (node_stays_trans _ _ _ (node_stays_with_pending nd2 false)
                   (node_stays_mark (with_pending false nd2) false))
                (is_dirty_set_mark (with_pending false nd2) false)
                eq_refl eq_refl eq_refl) as [S23 Q3].
    + eapply settles_child_left; [exact S12 | exact Hn1 | exact Hn2 |].
      rewrite L1. constructor.
    + eapply settles_child_right; [exact S12 | exact Hn1 | exact Hn2 |].
      rewrite R1. constructor.
    + split; [eapply settles_trans; eauto | done].
  - destruct (pending_update nd) eqn:P;
      [| destruct (is_dirty nd) eqn:D; [apply Hch; auto | by apply Hclean]].
    apply res_bind_Done in H as (s1 & Hd & H).
    apply res_bind_Done in H as (u1 & _ & H).
    apply res_bind_Done in H as (pn & _ & H).
    apply res_bind_Done in H as (u2 & _ & H).
    apply res_bind_Done in H as (s2 & He & H).
    pose proof (grows_detach _ _ _ Hd) as G01.
    pose proof (grows_execute _ _ _ _ He) as G12.
    pose proof (grows_clear_pending_modification _ _ _ _ H) as G23.
    destruct (step_split _ _ _ G01 (grows_trans _ _ _ G12 G23) W N)
      as (W1 & _ & N01 & N1' & B1).
    destruct (step_split _ _ _ G12 G23 W1 N1') as (W2 & _ & N12 & _ & _).
    destruct (settles_detach _ _ _ _ W Hn Hd) as (S01 & nd1 & Hn1 & L1 & R1).
    pose proof (proj2 (calm_execute _ _ _ _ He) W1 N12) as S12.
    apply (settles_le _ (brk s)) in S12; [| done].
    pose proof (settles_trans _ _ _ _ S01 S12) as S02.
    unfold clear_pending_modification in H.
    apply res_bind_Done in H as (nd2 & Hn2 & H). apply get_node_Done in Hn2.
    apply set_dirty_false in H as (x & Hx & ->).
    simpl in Hx. rewrite lookup_insert_eq in Hx. injection Hx as <-.
    destruct (settles_clean (brk s) s2
                (put_node n (with_parent
                   (marked_ptr.set_mark (parent (with_pending false nd2)) 0)
                   (with_pending false nd2))
                   (put_node n (with_pending false nd2) s2))
                n nd2 _ Hn2 (insert_insert_eq _ _ _ _)
                (node_stays_trans _ _ _ (node_stays_with_pending nd2 false)
                   (node_stays_mark (with_pending false nd2) false))
                (is_dirty_set_mark (with_pending false nd2) false)
                eq_refl eq_refl eq_refl) as [S23 Q3].
    + eapply settles_child_left; [exact S12 | exact Hn1 | exact Hn2 |].
      rewrite L1. constructor.
    + eapply settles_child_right; [exact S12 | exact Hn1 | exact Hn2 |].
      rewrite R1. constructor.
    + split; [eapply settles_trans; eauto | done].
  - destruct (pending_update nd) eqn:P;
      [| destruct (is_dirty nd) eqn:D; [apply Hch; auto | by apply Hclean]].
    apply res_bind_Done in H as (s1 & Hd & H).
    apply res_bind_Done in H as (u1 & _ & H).
    apply res_bind_Done in H as (pn & _ & H).
    apply res_bind_Done in H as (u2 & _ & H).
    apply res_bind_Done in H as (s2 & He & H).
    pose proof (grows_detach _ _ _ Hd) as G01.
    pose proof (grows_execute _ _ _ _ He) as G12.
    pose proof (grows_clear_pending_modification _ _ _ _ H) as G23.
    destruct (step_split _ _ _ G01 (grows_trans _ _ _ G12 G23) W N)
      as (W1 & _ & N01 & N1' & B1).
    destruct (step_split _ _ _ G12 G23 W1 N1') as (W2 & _ & N12 & _ & _).
    destruct (settles_detach _ _ _ _ W Hn Hd) as (S01 & nd1 & Hn1 & L1 & R1).
    pose proof (proj2 (calm_execute _ _ _ _ He) W1 N12) as S12.
    apply (settles_le _ (brk s)) in S12; [| done].
    pose proof (settles_trans _ _ _ _ S01 S12) as S02.
    unfold clear_pending_modification in H.
    apply res_bind_Done in H as (nd2 & Hn2 & H). apply get_node_Done in Hn2.
    apply set_dirty_false in H as (x & Hx & ->).
    simpl in Hx. rewrite lookup_insert_eq in Hx. injection Hx as <-.
    destruct (settles_clean (brk s) s2
                (put_node n (with_parent
                   (marked_ptr.set_mark (parent (with_pending false nd2)) 0)
                   (with_pending false nd2))
                   (put_node n (with_pending false nd2) s2))
                n nd2 _ Hn2 (insert_insert_eq _ _ _ _)
                (node_stays_trans _ _ _ (node_stays_with_pending nd2 false)
                   (node_stays_mark (with_pending false nd2) false))
                (is_dirty_set_mark (with_pending false nd2) false)
                eq_refl eq_refl eq_refl) as [S23 Q3].
    + eapply settles_child_left; [exact S12 | exact Hn1 | exact Hn2 |].
      rewrite L1. constructor.
    + eapply settles_child_right; [exact S12 | exact Hn1 | exact Hn2 |].
      rewrite R1. constructor.
    + split; [eapply settles_trans; eauto | done].
Qed.



(** ** The merge of the dependency lists of a scope reader

    On lists without duplicates the loop of [RScopeNode::execute] is the
    merge it is meant to be. *)

Lemma add_reader_history m r s s' :
  add_reader m r s = Done s' → history s' = history s ++ [EvAddReader m r].
Proof. unfold add_reader. intros H. inv_all. done. Qed.

Lemma remove_reader_history m r s s' :
  remove_reader m r s = Done s' → history s' = history s ++ [EvRemoveReader m r].
Proof. unfold remove_reader. intros H. inv_all. done. Qed.

(** What the merge may issue, and what it has to *)
Definition merge_events_ok (r : Z) (old new : list Z) (h : list event) : Prop :=
  NoDup h
  ∧ (∀ e, e ∈ h → (∃ m, e = EvRemoveReader m r ∧ m ∈ old ∧ m ∉ new)
                   ∨ (∃ m, e = EvAddReader m r ∧ m ∈ new ∧ m ∉ old))
  ∧ (∀ m, m ∈ old → m ∉ new → EvRemoveReader m r ∈ h)
  ∧ (∀ m, m ∈ new → m ∉ old → EvAddReader m r ∈ h).

Lemma sorted_head_fresh x l : StronglySorted Z.lt (x :: l) → ∀ m, m ∈ l → x < m.
Proof.
  intros H m Hm. apply StronglySorted_inv in H as [_ F].
  rewrite Forall_forall in F. by apply F.
Qed.

Lemma sorted_tail x l : StronglySorted Z.lt (x :: l) → StronglySorted Z.lt l.
Proof. intros H. by apply StronglySorted_inv in H as [? _]. Qed.

(** If neither run reads a modifiable twice, [remove_reader] is issued
    exactly for the modifiables read in the old run and not in the new one,
    [add_reader] exactly for those read in the new run and not in the old
    one, each once, and nothing is issued for a modifiable read in both. *)
Theorem merge_readers_without_duplicates r : ∀ old new s s',
  StronglySorted Z.lt old → StronglySorted Z.lt new →
  merge_readers r old new s = Done s' →
  ∃ h, history s' = history s ++ h ∧ merge_events_ok r old new h.
Proof.
  induction old as [| x old IH]; intros new.
  - induction new as [| y new IHn]; intros s s' So Sn H; cbn in H.
    + injection H as <-. exists []. rewrite app_nil_r. split; [done |].
      split; [constructor |]. split; [intros e He; by apply elem_of_nil in He |].
      split; intros m Hm; by apply elem_of_nil in Hm.
    + apply res_bind_Done in H as (s1 & H1 & H).
      apply add_reader_history in H1.
      destruct (IHn _ _ So (sorted_tail _ _ Sn) H) as (h & Hh & N & Only & Rem & Add).
      pose proof (sorted_head_fresh _ _ Sn) as Fy.
      exists (EvAddReader y r :: h). rewrite Hh, H1, <- app_assoc. split; [done |].
      split; [| split; [| split]].
      * constructor; [| done]. intros Hin.
        destruct (Only _ Hin) as [(m & E & _) | (m & E & Hm & _)]; [discriminate |].
        injection E as <-. specialize (Fy _ Hm). lia.
      * intros e He. apply elem_of_cons in He as [-> | He].
        -- right. exists y. split; [done |]. split; [apply list_elem_of_here |].
           intros Q. by apply elem_of_nil in Q.
        -- destruct (Only _ He) as [(m & E & Hm & _) | (m & E & Hm & Hn)];
             [by apply elem_of_nil in Hm |].
           right. exists m. split; [done |]. split; [by apply list_elem_of_further | done].
      * intros m Hm. by apply elem_of_nil in Hm.
      * intros m Hm Hn. apply elem_of_cons in Hm as [-> | Hm];
          [apply list_elem_of_here | apply list_elem_of_further; auto].
  - induction new as [| y new IHn]; intros s s' So Sn H; cbn in H.
    + apply res_bind_Done in H as (s1 & H1 & H).
      apply remove_reader_history in H1.
      destruct (IH _ _ _ (sorted_tail _ _ So) Sn H) as (h & Hh & N & Only & Rem & Add).
      pose proof (sorted_head_fresh _ _ So) as Fx.
      exists (EvRemoveReader x r :: h). rewrite Hh, H1, <- app_assoc. split; [done |].
      split; [| split; [| split]].
      * constructor; [| done]. intros Hin.
        destruct (Only _ Hin) as [(m & E & Hm & _) | (m & E & _)]; [| discriminate].
        injection E as <-. specialize (Fx _ Hm). lia.
      * intros e He. apply elem_of_cons in He as [-> | He].
        -- left. exists x. split; [done |]. split; [apply list_elem_of_here |].
           intros Q. by apply elem_of_nil in Q.
        -- destruct (Only _ He) as [(m & E & Hm & Hn) | (m & E & Hm & _)];
             [| by apply elem_of_nil in Hm].
           left. exists m. split; [done |]. split; [by apply list_elem_of_further | done].
      * intros m Hm Hn. apply elem_of_cons in Hm as [-> | Hm];
          [apply list_elem_of_here | apply list_elem_of_further; auto].
      * intros m Hm. by apply elem_of_nil in Hm.
    + pose proof (sorted_head_fresh _ _ So) as Fx.
      pose proof (sorted_head_fresh _ _ Sn) as Fy.
      destruct (Z.eqb_spec x y) as [<- | Hxy].
      { destruct (IH _ _ _ (sorted_tail _ _ So) (sorted_tail _ _ Sn) H)
          as (h & Hh & N & Only & Rem & Add).
        exists h. split; [done |]. split; [done |]. split; [| split].
        - intros e He.
          destruct (Only _ He) as [(m & E & Hm & Hn) | (m & E & Hm & Hn)]; [left | right];
            exists m; (split; [done |]); (split; [by apply list_elem_of_further |]);
            intros Q; apply elem_of_cons in Q as [-> | Q]; try done.
          + specialize (Fx _ Hm). lia.
          + specialize (Fy _ Hm). lia.
        - intros m Hm Hn. apply not_elem_of_cons in Hn as [Hne Hn].
          apply elem_of_cons in Hm as [-> | Hm]; [done | auto].
        - intros m Hm Hn. apply not_elem_of_cons in Hn as [Hne Hn].
          apply elem_of_cons in Hm as [-> | Hm]; [done | auto]. }
      destruct (Z.ltb_spec x y) as [Hlt | Hge].
      { apply res_bind_Done in H as (s1 & H1 & H).
        apply remove_reader_history in H1.
        destruct (IH _ _ _ (sorted_tail _ _ So) Sn H) as (h & Hh & N & Only & Rem & Add).
        assert (Hx : x ∉ y :: new).
        { intros Q. apply elem_of_cons in Q as [-> | Q]; [lia |].
          specialize (Fy _ Q). lia. }
        exists (EvRemoveReader x r :: h). rewrite Hh, H1, <- app_assoc. split; [done |].
        split; [| split; [| split]].
        - constructor; [| done]. intros Hin.
          destruct (Only _ Hin) as [(m & E & Hm & _) | (m & E & _)]; [| discriminate].
          injection E as <-. specialize (Fx _ Hm). lia.
        - intros e He. apply elem_of_cons in He as [-> | He].
          + left. exists x. split; [done |]. split; [apply list_elem_of_here | done].
          + destruct (Only _ He) as [(m & E & Hm & Hn) | (m & E & Hm & Hn)].
            * left. exists m. split; [done |].
              split; [by apply list_elem_of_further | done].
            * right. exists m. split; [done |]. split; [done |].
              intros Q. apply elem_of_cons in Q as [-> | Q]; [done | done].
        - intros m Hm Hn. apply elem_of_cons in Hm as [-> | Hm];
            [apply list_elem_of_here | apply list_elem_of_further; auto].
        - intros m Hm Hn. apply not_elem_of_cons in Hn as [Hne Hn].
          apply list_elem_of_further. auto. }
      apply res_bind_Done in H as (s1 & H1 & H).
      apply add_reader_history in H1.
      destruct (IHn _ _ So (sorted_tail _ _ Sn) H) as (h & Hh & N & Only & Rem & Add).
      assert (Hy : y ∉ x :: old).
      { intros Q. apply elem_of_cons in Q as [-> | Q]; [lia |].
        specialize (Fx _ Q). lia. }
      exists (EvAddReader y r :: h). rewrite Hh, H1, <- app_assoc. split; [done |].
      split; [| split; [| split]].
      * constructor; [| done]. intros Hin.
        destruct (Only _ Hin) as [(m & E & _) | (m & E & Hm & _)]; [discriminate |].
        injection E as <-. specialize (Fy _ Hm). lia.
      * intros e He. apply elem_of_cons in He as [-> | He].
        -- right. exists y. split; [done |]. split; [apply list_elem_of_here | done].
        -- destruct (Only _ He) as [(m & E & Hm & Hn) | (m & E & Hm & Hn)].
           ++ left. exists m. split; [done |]. split; [done |].
              intros Q. apply elem_of_cons in Q as [-> | Q]; [done | done].
           ++ right. exists m. split; [done |].
              split; [by apply list_elem_of_further | done].
      * intros m Hm Hn. apply not_elem_of_cons in Hn as [Hne Hn].
        apply list_elem_of_further. auto.
      * intros m Hm Hn. apply elem_of_cons in Hm as [-> | Hm];
          [apply list_elem_of_here | apply list_elem_of_further; auto].
Qed.

(** ** Propagation against a run from scratch: chains of readers

    A chain is a function body made of reads in sequence; each read takes a
    tuple of modifiables and writes a function of their values to its own
    destination. *)
Record step := { srcs : list Z; dst : Z; fn : list T → T }.

Definition body (st : step) (vs : list T) : prog := Write (dst st) (fn st vs) Ret.

Fixpoint chain (steps : list step) : prog :=
  match steps with
  | [] => Ret
  | st :: rest => Read (srcs st) (body st) (chain rest)
  end.

(** The values of the modifiables, and what a reader function is handed. *)
Definition vals (s : state) : gmap Z T := value <$> mods s.

Fixpoint lookup_all (e : gmap Z T) (ms : list Z) : option (list T) :=
  match ms with
  | [] => Some []
  | m :: ms' =>
      match e !! m, lookup_all e ms' with
      | Some v, Some vs => Some (v :: vs)
      | _, _ => None
      end
  end.

(** The destination of a step holds the function of the current values of
    its sources. *)
Definition consistent (e : gmap Z T) (st : step) : Prop :=
  ∃ vs, lookup_all e (srcs st) = Some vs ∧ e !! dst st = Some (fn st vs).

Lemma read_values_vals ms : ∀ s vs,
  read_values ms s = Done vs → lookup_all (vals s) ms = Some vs.
Proof.
  induction ms as [| m ms IH]; intros s vs H; cbn in H; inv_all; [done |].
  cbn. unfold vals at 1. rewrite lookup_fmap, Hm. cbn. by rewrite (IH _ _ Hm0).
Qed.

Lemma lookup_all_ext e e' ms :
  (∀ m, m ∈ ms → e !! m = e' !! m) → lookup_all e ms = lookup_all e' ms.
Proof.
  induction ms as [| m ms IH]; intros H; [done |]. cbn.
  rewrite (H m) by apply list_elem_of_here.
  rewrite IH; [done |]. intros m' Hm'. apply H. by apply list_elem_of_further.
Qed.

(** *** Dirty bits and pending flags, by address *)

Definition up (nd : SPNode) : Z := marked_ptr.get_ptr (parent nd).

Definition dirty_at (s : state) (a : Z) : Prop :=
  ∃ nd, nodes s !! a = Some nd ∧ is_dirty nd = true.
Definition pending_at (s : state) (a : Z) : Prop :=
  ∃ nd, nodes s !! a = Some nd ∧ pending_update nd = true.

(** A dirty node has a dirty parent, and a pending node is dirty: what
    [set_modified] establishes and [propagate] relies on to find the pending
    readers. *)
Definition closure_at (s : state) (a : Z) : Prop :=
  ∀ nd, nodes s !! a = Some nd → is_dirty nd = true → up nd = 0 ∨ dirty_at s (up nd).
Definition ok_at (s : state) (a : Z) : Prop :=
  closure_at s a ∧ (pending_at s a → dirty_at s a).

(** Everything of a node but its two flags *)
Definition skel_eq (nd nd' : SPNode) : Prop :=
  kind nd' = kind nd ∧ up nd' = up nd ∧ nleft nd' = nleft nd
  ∧ nright nd' = nright nd ∧ dynamic_mods nd' = dynamic_mods nd.

Lemma skel_eq_refl nd : skel_eq nd nd.
Proof. by repeat split. Qed.

Lemma skel_eq_trans n1 n2 n3 : skel_eq n1 n2 → skel_eq n2 n3 → skel_eq n1 n3.
Proof. unfold skel_eq. intuition congruence. Qed.

(** The upward walk of [set_dirty]: dirty bits are set, nothing else moves. *)
Record marks (s s' : state) : Prop := {
  marks_nodes : ∀ a nd, nodes s !! a = Some nd →
    ∃ nd', nodes s' !! a = Some nd' ∧ skel_eq nd nd'
           ∧ pending_update nd' = pending_update nd
           ∧ (is_dirty nd = true → is_dirty nd' = true);
  marks_dom : ∀ a, nodes s !! a = None → nodes s' !! a = None;
  marks_mods : mods s' = mods s;
}.

(** Flags are only raised, and the nodes that were in order stay so. *)
Record raises (s s' : state) : Prop := {
  raises_nodes : ∀ a nd, nodes s !! a = Some nd →
    ∃ nd', nodes s' !! a = Some nd' ∧ skel_eq nd nd'
           ∧ (is_dirty nd = true → is_dirty nd' = true)
           ∧ (pending_update nd = true → pending_update nd' = true);
  raises_ok : ∀ a, is_Some (nodes s !! a) → ok_at s a → ok_at s' a;
}.

Lemma marks_refl s : marks s s.
Proof. split; [| done | done]. intros a nd H. exists nd. by repeat split. Qed.

Lemma marks_trans s1 s2 s3 : marks s1 s2 → marks s2 s3 → marks s1 s3.
Proof.
  intros [N1 D1 M1] [N2 D2 M2]. split.
  - intros a nd H. destruct (N1 _ _ H) as (nd2 & H2 & K2 & P2 & Y2).
    destruct (N2 _ _ H2) as (nd3 & H3 & K3 & P3 & Y3).
    exists nd3. repeat split; try apply (skel_eq_trans _ _ _ K2 K3); try congruence; auto.
  - auto.
  - congruence.
Qed.

Lemma raises_refl s : raises s s.
Proof. split; [| done]. intros a nd H. exists nd. by repeat split. Qed.

Lemma raises_trans s1 s2 s3 : raises s1 s2 → raises s2 s3 → raises s1 s3.
Proof.
  intros [N1 O1] [N2 O2]. split.
  - intros a nd H. destruct (N1 _ _ H) as (nd2 & H2 & K2 & Y2 & P2).
    destruct (N2 _ _ H2) as (nd3 & H3 & K3 & Y3 & P3).
    exists nd3. repeat split; try apply (skel_eq_trans _ _ _ K2 K3); auto.
  - intros a [nd H] Hok. apply O2; [| by apply O1].
    destruct (N1 _ _ H) as (nd2 & H2 & _). by exists nd2.
Qed.

Lemma dirty_at_marks s s' a : marks s s' → dirty_at s a → dirty_at s' a.
Proof.
  intros [N _ _] (nd & H & D). destruct (N _ _ H) as (nd' & H' & _ & _ & Y).
  exists nd'. auto.
Qed.

Lemma pending_at_raises s s' a : raises s s' → pending_at s a → pending_at s' a.
Proof.
  intros [N _] (nd & H & D). destruct (N _ _ H) as (nd' & H' & _ & _ & Y).
  exists nd'. auto.
Qed.

Lemma dirty_at_raises s s' a : raises s s' → dirty_at s a → dirty_at s' a.
Proof.
  intros [N _] (nd & H & D). destruct (N _ _ H) as (nd' & H' & _ & Y & _).
  exists nd'. auto.
Qed.

Lemma up_marked nd :
  up (with_parent (marked_ptr.set_mark (parent nd) 1) nd) = up nd.
Proof. exact (marked_ptr.get_ptr_set_mark (parent nd) true). Qed.

Lemma up_unmarked nd :
  up (with_parent (marked_ptr.set_mark (parent nd) 0) nd) = up nd.
Proof. exact (marked_ptr.get_ptr_set_mark (parent nd) false). Qed.

Lemma is_dirty_marked nd :
  is_dirty (with_parent (marked_ptr.set_mark (parent nd) 1) nd) = true.
Proof. exact (is_dirty_set_mark nd true). Qed.

Lemma is_dirty_unmarked nd :
  is_dirty (with_parent (marked_ptr.set_mark (parent nd) 0) nd) = false.
Proof. exact (is_dirty_set_mark nd false). Qed.

Lemma skel_eq_marked nd :
  skel_eq nd (with_parent (marked_ptr.set_mark (parent nd) 1) nd).
Proof. split; [done |]. split; [apply up_marked | done]. Qed.

Lemma skel_eq_unmarked nd :
  skel_eq nd (with_parent (marked_ptr.set_mark (parent nd) 0) nd).
Proof. split; [done |]. split; [apply up_unmarked | done]. Qed.

(** Setting the dirty bit of one node *)
Lemma marks_put_dirty s n nd :
  nodes s !! n = Some nd →
  marks s (put_node n (with_parent (marked_ptr.set_mark (parent nd) 1) nd) s).
Proof.
  intros Hn. split; [| | done].
  - intros a nd0 H. destruct (decide (a = n)) as [-> | Hne].
    + rewrite Hn in H. injection H as <-. eexists.
      split; [apply lookup_insert_eq |].
      split; [apply skel_eq_marked |]. split; [done |].
      intros _. apply is_dirty_marked.
    + exists nd0. cbn. rewrite lookup_insert_ne by done. by repeat split.
  - intros a H. cbn. rewrite lookup_insert_ne; [done |]. intros ->. congruence.
Qed.

Lemma closure_at_marks_other s s' a :
  marks s s' →
  (∀ nd, nodes s !! a = Some nd → nodes s' !! a = Some nd) →
  closure_at s a → closure_at s' a.
Proof.
  intros M Same C nd' H' D.
  destruct (nodes s !! a) as [nd |] eqn:H.
  - rewrite (Same _ eq_refl) in H'. injection H' as <-.
    destruct (C _ H D) as [Z | Y]; [by left | right]. eapply dirty_at_marks; eauto.
  - rewrite (marks_dom _ _ M _ H) in H'. discriminate.
Qed.

(** The walk leaves every node it marked with a dirty parent, or at the
    root, and keeps the nodes that were in order so. *)
Lemma set_dirty_true_spec fuel : ∀ n s s',
  set_dirty fuel n true s = Done s' →
  marks s s' ∧ dirty_at s' n ∧ closure_at s' n
  ∧ (∀ a, closure_at s a → closure_at s' a).
Proof.
  induction fuel as [| fuel IH]; intros n s s' H; cbn in H.
  all: apply res_bind_Done in H as (nd & Hn & H); apply get_node_Done in Hn.
  all: pose proof (marks_put_dirty s n nd Hn) as M1.
  all: set (s1 := put_node n _ s) in *.
  all: assert (D1 : dirty_at s1 n)
    by (eexists; split; [apply lookup_insert_eq | apply is_dirty_marked]).
  all: assert (O1 : ∀ a, a ≠ n → closure_at s a → closure_at s1 a)
    by (intros a Hne; apply closure_at_marks_other; [done |];
        intros nd0 H0; subst s1; cbn; by rewrite lookup_insert_ne).
  all: assert (Stop : (up nd = 0 ∨ dirty_at s1 (up nd)) →
                      marks s s1 ∧ dirty_at s1 n ∧ closure_at s1 n
                      ∧ (∀ a, closure_at s a → closure_at s1 a)).
  1,3: intros Hup; split; [done |]; split; [done |];
       assert (C1 : closure_at s1 n);
       [ intros nd1 H1 _; subst s1; cbn in H1; rewrite lookup_insert_eq in H1;
         injection H1 as <-; by rewrite up_marked
       | split; [done |]; intros a Ca; destruct (decide (a = n)) as [-> | Hne]; auto ].
  all: destruct (marked_ptr.to_bool (parent nd)) eqn:Hp.
  all: try (injection H as <-; apply Stop; left;
            unfold marked_ptr.to_bool in Hp; apply negb_false_iff, Z.eqb_eq in Hp;
            exact Hp).
  all: apply res_bind_Done in H as (pn & Hpn & H); apply get_node_Done in Hpn.
  all: destruct (is_dirty pn) eqn:Dp; cbn in H.
  all: try (injection H as <-; apply Stop; right; by exists pn).
  - discriminate.
  - destruct (IH _ _ _ H) as (M2 & D2 & C2 & O2).
    split; [by eapply marks_trans |].
    split; [by eapply dirty_at_marks |].
    assert (Cn : closure_at s' n).
    { intros nd' H' _. right.
      destruct (marks_nodes _ _ M1 _ _ Hn) as (nd1 & Hn1 & K1 & _).
      destruct (marks_nodes _ _ M2 _ _ Hn1) as (nd2 & Hn2 & K2 & _).
      rewrite Hn2 in H'. injection H' as <-.
      destruct K1 as (_ & U1 & _), K2 as (_ & U2 & _). by rewrite U2, U1. }
    split; [done |].
    intros a Ca. destruct (decide (a = n)) as [-> | Hne]; auto.
Qed.

(** [set_modified]: the reader is pending and dirty afterwards. *)
Lemma set_modified_spec fuel r s s' :
  set_modified fuel r s = Done s' →
  raises s s' ∧ mods s' = mods s ∧ pending_at s' r.
Proof.
  unfold set_modified. intros H.
  apply res_bind_Done in H as (nd & Hn & H). apply get_node_Done in Hn.
  set (sp := record (EvNotify r) (put_node r (with_pending true nd) s)) in *.
  destruct (set_dirty_true_spec _ _ _ _ H) as (M & D & C & O).
  assert (Nsp : ∀ a nd0, nodes s !! a = Some nd0 →
            ∃ nd1, nodes sp !! a = Some nd1 ∧ skel_eq nd0 nd1
                   ∧ is_dirty nd1 = is_dirty nd0
                   ∧ (a ≠ r → pending_update nd1 = pending_update nd0)
                   ∧ (a = r → pending_update nd1 = true)).
  { intros a nd0 H0. destruct (decide (a = r)) as [-> | Hne].
    - rewrite Hn in H0. injection H0 as <-. eexists.
      split; [apply lookup_insert_eq |]. by repeat split.
    - exists nd0. subst sp. cbn. rewrite lookup_insert_ne by done. by repeat split. }
  assert (Dsp : ∀ a, dirty_at s a → dirty_at sp a).
  { intros a (nd0 & H0 & D0). destruct (Nsp _ _ H0) as (nd1 & H1 & _ & E & _).
    exists nd1. split; [done | congruence]. }
  assert (Pr : pending_at s' r).
  { destruct (Nsp _ _ Hn) as (nd1 & H1 & _ & _ & _ & P1).
    destruct (marks_nodes _ _ M _ _ H1) as (nd2 & H2 & _ & P2 & _).
    exists nd2. split; [done |]. rewrite P2. by apply P1. }
  split; [| split; [by rewrite (marks_mods _ _ M) | done]].
  split.
  - intros a nd0 H0. destruct (Nsp _ _ H0) as (nd1 & H1 & K1 & E1 & P1 & P1').
    destruct (marks_nodes _ _ M _ _ H1) as (nd2 & H2 & K2 & P2 & Y2).
    exists nd2. split; [done |]. split; [by eapply skel_eq_trans |].
    split; [intros Y; apply Y2; congruence |].
    intros P. rewrite P2. destruct (decide (a = r)) as [-> | Hne]; [auto |].
    rewrite P1 by done. done.
  - intros a [nd0 H0] [Ca Pa]. split.
    + apply O. intros nd1 H1 D1.
      destruct (Nsp _ _ H0) as (nd1' & H1' & K1 & E1 & _).
      rewrite H1' in H1. injection H1 as <-.
      destruct K1 as (_ & U & _). rewrite U.
      destruct (Ca _ H0) as [Z | Y]; [congruence | by left | right; auto].
    + intros (nd2 & H2 & P2). destruct (decide (a = r)) as [-> | Hne]; [done |].
      eapply dirty_at_marks; [exact M |]. apply Dsp, Pa.
      destruct (Nsp _ _ H0) as (nd1 & H1 & _ & _ & P1 & _).
      destruct (marks_nodes _ _ M _ _ H1) as (nd2' & H2' & _ & P2' & _).
      rewrite H2' in H2. injection H2 as <-.
      exists nd0. split; [done |]. rewrite <- P1 by done. congruence.
Qed.

Lemma for_each_set_modified_spec fuel rs : ∀ s s',
  for_each (set_modified fuel) rs s = Done s' →
  raises s s' ∧ mods s' = mods s ∧ (∀ r, r ∈ rs → pending_at s' r).
Proof.
  induction rs as [| r rs IH]; intros s s' H; cbn in H.
  - injection H as <-. split; [apply raises_refl |]. split; [done |].
    intros r Hr. by apply elem_of_nil in Hr.
  - apply res_bind_Done in H as (s1 & H1 & H).
    destruct (set_modified_spec _ _ _ _ H1) as (R1 & M1 & P1).
    destruct (IH _ _ H) as (R2 & M2 & P2).
    split; [by eapply raises_trans |]. split; [congruence |].
    intros r' Hr. apply elem_of_cons in Hr as [-> | Hr]; [| auto].
    by eapply pending_at_raises.
Qed.

(** *** Reader sets without removals *)

Definition elements (rs : CRS.t) : list Z :=
  match rs with
  | CRS.Empty => []
  | CRS.Single item => [item]
  | CRS.Linked l => CRS.value <$> l
  end.

Definition intact (rs : CRS.t) : Prop :=
  match rs with
  | CRS.Linked l => l ≠ [] ∧ Forall (λ n, CRS.deleted n = false) l
  | _ => True
  end.

Lemma for_all_loop_intact l :
  Forall (λ n, CRS.deleted n = false) l → CRS.for_all_loop l = (CRS.value <$> l, l).
Proof.
  induction 1 as [| n l Hn _ IH]; [done |]. cbn. by rewrite IH, Hn.
Qed.

Lemma for_all_intact rs : intact rs → CRS.for_all rs = (elements rs, rs).
Proof.
  destruct rs as [| item | l]; [done | done |]. intros [Hne Hl].
  cbn. rewrite for_all_loop_intact by done. by destruct l.
Qed.

Lemma insert_intact v rs rs' :
  CRS.insert v rs = Done rs' → intact rs →
  intact rs' ∧ elements rs' = v :: elements rs.
Proof.
  unfold CRS.insert. intros H Hi. apply res_bind_Done in H as (u & _ & H).
  destruct rs as [| item | l]; injection H as <-; cbn.
  - done.
  - split; [| done]. split; [done |]. by repeat constructor.
  - destruct Hi as [_ Hl]. split; [| done]. split; [done |]. by constructor.
Qed.

(** *** Writes *)

Lemma vals_put_mod m md s :
  vals (put_mod m md s) = <[m := value md]> (vals s).
Proof. unfold vals. cbn. by rewrite fmap_insert. Qed.

(** [Mod<T>::write] on a modifiable with an intact reader set: the value is
    the new one afterwards, the reader sets are the same, and either the
    value was that already or every reader is pending. *)
Lemma Mod_write_spec fuel m v s s' md :
  (∀ a b, T_ne a b = false → a = b) →
  Mod_write fuel m v s = Done s' →
  mods s !! m = Some md → intact (readers md) →
  raises s s'
  ∧ vals s' = <[m := v]> (vals s)
  ∧ (∀ m', readers <$> mods s' !! m' = readers <$> mods s !! m')
  ∧ (vals s' = vals s ∨ ∀ r, r ∈ elements (readers md) → pending_at s' r).
Proof.
  intros Sound H Hm Hi. unfold Mod_write in H.
  apply res_bind_Done in H as (md0 & Hm0 & H). apply get_mod_Done in Hm0.
  rewrite Hm in Hm0. injection Hm0 as <-.
  destruct (negb (written md) || T_ne (value md) v) eqn:Hc.
  - apply res_bind_Done in H as (s1 & H1 & H).
    apply res_bind_Done in H as (md1 & Hm1 & H). apply get_mod_Done in Hm1.
    injection H as <-.
    unfold notify_readers in H1.
    apply res_bind_Done in H1 as (md2 & Hm2 & H1). apply get_mod_Done in Hm2.
    cbn in Hm2. rewrite lookup_insert_eq in Hm2. injection Hm2 as <-.
    cbn [readers with_value] in H1. rewrite for_all_intact in H1 by done.
    destruct (for_each_set_modified_spec _ _ _ _ H1) as (R & M & P).
    cbn in M. rewrite M in Hm1. rewrite insert_insert_eq, lookup_insert_eq in Hm1.
    injection Hm1 as <-.
    split.
    { split.
      - intros a nd Ha. destruct (raises_nodes _ _ R a nd Ha) as (nd' & H' & K).
        by exists nd'.
      - intros a Ha Ok. destruct (raises_ok _ _ R a Ha) as [C' P'].
        + destruct Ok as [C0 P0]. split; [exact C0 | exact P0].
        + split; [exact C' | exact P']. }
    split; [| split].
    + unfold vals. cbn. rewrite M, !insert_insert_eq, fmap_insert. done.
    + intros m'. cbn. rewrite M, !insert_insert_eq.
      destruct (decide (m' = m)) as [-> | Hne].
      * by rewrite lookup_insert_eq, Hm.
      * by rewrite lookup_insert_ne.
    + right. intros r Hr. destruct (P r Hr) as (nd & Hn & Pn). by exists nd.
  - injection H as <-. apply orb_false_iff in Hc as [_ Hc]. apply Sound in Hc.
    split; [apply raises_refl |].
    assert (E : <[m := v]> (vals s) = vals s).
    { apply insert_id. unfold vals. rewrite lookup_fmap, Hm. cbn. congruence. }
    split; [by rewrite E |]. split; [done | by left].
Qed.

(** *** Frames *)

(** The skeleton of every node is kept. *)
Definition keeps (s s' : state) : Prop :=
  ∀ a nd, nodes s !! a = Some nd → ∃ nd', nodes s' !! a = Some nd' ∧ skel_eq nd nd'.

Lemma keeps_refl s : keeps s s.
Proof. intros a nd H. exists nd. split; [done | apply skel_eq_refl]. Qed.

Lemma keeps_trans s1 s2 s3 : keeps s1 s2 → keeps s2 s3 → keeps s1 s3.
Proof.
  intros K1 K2 a nd H. destruct (K1 _ _ H) as (nd2 & H2 & E2).
  destruct (K2 _ _ H2) as (nd3 & H3 & E3). exists nd3.
  split; [done | by eapply skel_eq_trans].
Qed.

Lemma raises_keeps s s' : raises s s' → keeps s s'.
Proof.
  intros R a nd H. destruct (raises_nodes _ _ R _ _ H) as (nd' & H' & K & _).
  by exists nd'.
Qed.

(** A step that keeps the flags of the nodes it finds *)
Lemma raises_same_flags s s' :
  (∀ a nd, nodes s !! a = Some nd →
     ∃ nd', nodes s' !! a = Some nd' ∧ skel_eq nd nd'
            ∧ is_dirty nd' = is_dirty nd ∧ pending_update nd' = pending_update nd) →
  raises s s'.
Proof.
  intros N.
  assert (D : ∀ a, dirty_at s a → dirty_at s' a).
  { intros a (nd & H & Y). destruct (N _ _ H) as (nd' & H' & _ & E & _).
    exists nd'. split; [done | congruence]. }
  split.
  - intros a nd H. destruct (N _ _ H) as (nd' & H' & K & E1 & E2).
    exists nd'. repeat split; try apply K; congruence.
  - intros a [nd H] [C P]. destruct (N _ _ H) as (nd' & H' & K & E1 & E2). split.
    + intros nd1 H1 Y1. rewrite H' in H1. injection H1 as <-.
      destruct K as (_ & U & _). rewrite U.
      destruct (C _ H) as [Z | Y]; [congruence | by left | right; auto].
    + intros (nd1 & H1 & P1). rewrite H' in H1. injection H1 as <-.
      apply D, P. exists nd. split; [done | congruence].
Qed.

(** One node has its flags lowered; the nodes that are neither it nor its
    children are not concerned. *)
Lemma lowered_ok s s' n nd' a :
  nodes s' = <[n := nd']> (nodes s) →
  a ≠ n → (∀ x, nodes s !! a = Some x → up x ≠ n ∨ up x = 0) →
  ok_at s a → ok_at s' a.
Proof.
  intros E Hne Hup [C P].
  assert (Same : nodes s' !! a = nodes s !! a) by (by rewrite E, lookup_insert_ne).
  assert (D : ∀ c, c ≠ n → dirty_at s c → dirty_at s' c).
  { intros c Hc (x & H & Y). exists x. by rewrite E, lookup_insert_ne. }
  split.
  - intros x H Y. rewrite Same in H.
    destruct (C _ H Y) as [Z | Y']; [by left |].
    destruct (Hup _ H) as [U | U]; [right; by apply D | by left].
  - intros (x & H & Px). rewrite Same in H. apply D; [done |]. apply P. by exists x.
Qed.

Lemma lowered_keeps s s' n nd nd' :
  nodes s' = <[n := nd']> (nodes s) → nodes s !! n = Some nd → skel_eq nd nd' →
  keeps s s'.
Proof.
  intros E Hn K a x H. rewrite E. destruct (decide (a = n)) as [-> | Hne].
  - rewrite Hn in H. injection H as <-. exists nd'. by rewrite lookup_insert_eq.
  - exists x. rewrite lookup_insert_ne by done. split; [done | apply skel_eq_refl].
Qed.

Lemma lowered_pending s s' n nd' a :
  nodes s' = <[n := nd']> (nodes s) → a ≠ n →
  pending_at s a → pending_at s' a.
Proof. intros E Hne (x & H & P). exists x. by rewrite E, lookup_insert_ne. Qed.

Lemma set_dirty_false_spec fuel n s s' :
  set_dirty fuel n false s = Done s' →
  ∃ nd nd', nodes s !! n = Some nd ∧ nodes s' = <[n := nd']> (nodes s)
            ∧ mods s' = mods s ∧ skel_eq nd nd'
            ∧ is_dirty nd' = false ∧ pending_update nd' = pending_update nd.
Proof.
  intros H. apply set_dirty_false in H as (nd & Hn & ->).
  exists nd. eexists. split; [done |]. split; [reflexivity |]. split; [done |].
  split; [apply skel_eq_unmarked |]. split; [apply is_dirty_unmarked | done].
Qed.

Lemma clear_pending_modification_spec fuel n s s' :
  clear_pending_modification fuel n s = Done s' →
  ∃ nd nd', nodes s !! n = Some nd ∧ nodes s' = <[n := nd']> (nodes s)
            ∧ mods s' = mods s ∧ skel_eq nd nd'
            ∧ is_dirty nd' = false ∧ pending_update nd' = false.
Proof.
  unfold clear_pending_modification. intros H.
  apply res_bind_Done in H as (nd & Hn & H). apply get_node_Done in Hn.
  apply set_dirty_false_spec in H as (nd1 & nd' & H1 & E & M & K & D & P).
  cbn in H1. rewrite lookup_insert_eq in H1. injection H1 as <-.
  exists nd, nd'. split; [done |]. cbn in E. rewrite insert_insert_eq in E.
  split; [done |]. split; [done |]. split; [| done].
  destruct K as (K1 & K2 & K3 & K4 & K5). by repeat split.
Qed.

(** [execute] on the reader of a step: the values of the sources are read
    and the function of them is written to the destination. *)
Lemma execute_chain_reader fuel r s s' rnd st :
  nodes s !! r = Some rnd → kind rnd = RTupleNode (body st) (srcs st) →
  execute fuel r s = Done s' →
  ∃ f vs, lookup_all (vals s) (srcs st) = Some vs
          ∧ Mod_write f (dst st) (fn st vs) (record (EvExecute r) s) = Done s'.
Proof.
  intros Hr Hk H. unfold execute, execute_with in H.
  apply res_bind_Done in H as (nd & Hn & H). apply get_node_Done in Hn.
  rewrite Hr in Hn. injection Hn as <-. rewrite Hk in H.
  apply res_bind_Done in H as (vs & Hv & H).
  apply read_values_vals in Hv.
  apply res_bind_Done in H as ([[ctx cur] s1] & He & H). injection H as <-.
  destruct fuel as [| fuel]; [discriminate |]. cbn in He.
  apply res_bind_Done in He as (s2 & Hw & He).
  destruct fuel as [| fuel]; [discriminate |]. cbn in He. injection He as <- <- <-.
  exists (S fuel), vs. split; [exact Hv | exact Hw].
Qed.

(** [detach] of a node without children and dynamic mods: an empty dummy
    goes to the pile, and no flag of any node changes. *)
Lemma detach_childless n s s' nd pile :
  heap_wf s → nodes s !! n = Some nd → garbage s !! worker_id = Some pile →
  nleft nd = None → nright nd = None → dynamic_mods nd = [] →
  detach n s = Done s' →
  raises s s' ∧ mods s' = mods s
  ∧ ∃ nd', nodes s' !! n = Some nd' ∧ skel_eq nd nd'
           ∧ is_dirty nd' = is_dirty nd ∧ pending_update nd' = pending_update nd.
Proof.
  intros Wf Hn Hp L R Dm H. rewrite (detach_spec n s nd pile Wf Hn Hp) in H.
  injection H as <-. cbn [nodes mods].
  assert (Hb : nodes s !! brk s = None).
  { destruct (nodes s !! brk s) as [x |] eqn:E; [| done].
    destruct Wf as (Wn & _). specialize (Wn _ _ E). cbn in Wn. lia. }
  assert (Kn : skel_eq nd (with_dynamic_mods [] (with_right None (with_left None nd)))).
  { unfold skel_eq, up. cbn. by rewrite L, R, Dm. }
  split; [| split; [done |]].
  - apply raises_same_flags. intros a x Ha. cbn [nodes].
    destruct (decide (a = n)) as [-> | Hne].
    + rewrite Hn in Ha. injection Ha as <-. eexists.
      split; [apply lookup_insert_eq |]. by split.
    + exists x. rewrite lookup_insert_ne by done.
      rewrite lookup_insert_ne by (intros <-; congruence).
      split; [done |]. split; [apply skel_eq_refl | done].
  - eexists. split; [apply lookup_insert_eq |]. by split.
Qed.

Section chains.

Variable steps : list step.
(** The address of the root of the trace *)
Variable b : Z.

Hypothesis T_ne_sound : ∀ x y, T_ne x y = false → x = y.
Hypothesis b_pos : 0 < b.

(** Data flows forward: a step reads neither its own destination nor the
    destination of a later step, and no two steps share a destination. *)
Definition forward : Prop :=
  ∀ i j sti stj, steps !! i = Some sti → steps !! j = Some stj →
    ((i ≤ j)%nat → dst stj ∉ srcs sti) ∧ (i ≠ j → dst sti ≠ dst stj).

Hypothesis steps_forward : forward.

(** The trace of a chain: the S node of step [j], its reader to the left,
    the S node of the next step to the right. *)
Definition S_addr (j : nat) : Z := b + 16 * Z.of_nat j.
Definition R_addr (j : nat) : Z := b + 16 * Z.of_nat j + 8.
Definition up_of (j : nat) : Z :=
  match j with
  | O => 0
  | S i => S_addr i
  end.

Definition cell (l : nat) (s : state) (j : nat) (st : step) : Prop :=
  ∃ nd rnd,
    nodes s !! S_addr j = Some nd ∧ kind nd = SNode ∧ up nd = up_of j
    ∧ nleft nd = Some (R_addr j)
    ∧ nright nd = (if decide (S j < l)%nat then Some (S_addr (S j)) else None)
    ∧ nodes s !! R_addr j = Some rnd ∧ kind rnd = RTupleNode (body st) (srcs st)
    ∧ up rnd = S_addr j ∧ nleft rnd = None ∧ nright rnd = None
    ∧ dynamic_mods rnd = [].

(** The first [j] cells are built, the first [l] S nodes are linked. *)
Definition Shape (l j : nat) (s : state) : Prop :=
  ∀ i st, steps !! i = Some st → (i < j)%nat → cell l s i st.

(** Every reader set holds exactly the readers of the first [j] steps that
    read the modifiable. *)
Definition Subs (j : nat) (s : state) : Prop :=
  ∀ m md, mods s !! m = Some md →
    intact (readers md)
    ∧ ∀ r, r ∈ elements (readers md)
           ↔ ∃ i st, steps !! i = Some st ∧ (i < j)%nat ∧ r = R_addr i ∧ m ∈ srcs st.

Lemma Shape_keeps l j s s' : keeps s s' → Shape l j s → Shape l j s'.
Proof.
  intros K Sh i st Hst Hi.
  destruct (Sh i st Hst Hi) as (nd & rnd & H1 & H2 & H3 & H4 & H5 & H6 & H7 & H8 & H9 & H10 & H11).
  destruct (K _ _ H1) as (nd' & H1' & E1 & E2 & E3 & E4 & E5).
  destruct (K _ _ H6) as (rnd' & H6' & F1 & F2 & F3 & F4 & F5).
  exists nd', rnd'. repeat split; congruence.
Qed.

Lemma Subs_same_readers j s s' :
  (∀ m, readers <$> mods s' !! m = readers <$> mods s !! m) → Subs j s → Subs j s'.
Proof.
  intros E Su m md' Hm. specialize (E m). rewrite Hm in E. cbn in E.
  destruct (mods s !! m) as [md |] eqn:Hm0; [| discriminate].
  cbn in E. injection E as E. rewrite E. by apply Su.
Qed.

Lemma Subs_same_mods j s s' : mods s' = mods s → Subs j s → Subs j s'.
Proof. intros E. apply Subs_same_readers. intros m. by rewrite E. Qed.

(** The state between two steps of a propagation: the steps before [j] are
    done, and a later step whose output is out of date has a pending reader
    that the dirty bits lead to. *)
Record Inv (j : nat) (s : state) : Prop := {
  Inv_wf : heap_wf s;
  Inv_pile : is_Some (garbage s !! worker_id);
  Inv_shape : Shape (length steps) (length steps) s;
  Inv_subs : Subs (length steps) s;
  Inv_ok : ∀ i, (j ≤ i < length steps)%nat → ok_at s (S_addr i) ∧ ok_at s (R_addr i);
  Inv_done : ∀ i st, steps !! i = Some st → (i < j)%nat → consistent (vals s) st;
  Inv_ready : ∀ i st, steps !! i = Some st → (j ≤ i)%nat →
                pending_at s (R_addr i) ∨ consistent (vals s) st;
}.

Lemma consistent_insert_other e m v st :
  m ∉ srcs st → m ≠ dst st → consistent e st → consistent (<[m := v]> e) st.
Proof.
  intros Hs Hd (vs & L & D). exists vs. split.
  - rewrite <- L. apply lookup_all_ext. intros m' Hm'.
    rewrite lookup_insert_ne; [done |]. intros <-. done.
  - by rewrite lookup_insert_ne.
Qed.

(** A write to [m], as the steps that do not write [m] see it: a step that
    reads [m] is pending unless the value stayed. *)
Lemma write_ready fuel m v s s' i st :
  Subs (length steps) s →
  Mod_write fuel m v s = Done s' →
  steps !! i = Some st → m ≠ dst st →
  pending_at s (R_addr i) ∨ consistent (vals s) st →
  pending_at s' (R_addr i) ∨ consistent (vals s') st.
Proof.
  intros Su H Hst Hd Hr.
  assert (Hm : is_Some (mods s !! m)).
  { unfold Mod_write in H. apply res_bind_Done in H as (md & Hm & _).
    apply get_mod_Done in Hm. by exists md. }
  destruct Hm as [md Hm]. destruct (Su _ _ Hm) as [Hi He].
  destruct (Mod_write_spec _ _ _ _ _ _ T_ne_sound H Hm Hi) as (R & V & _ & Cases).
  destruct Hr as [P | C]; [left; by eapply pending_at_raises |].
  destruct Cases as [Same | Pend]; [right; by rewrite Same |].
  destruct (decide (m ∈ srcs st)) as [Hin | Hnin].
  - left. apply Pend, He. exists i, st. repeat split; try done.
    by eapply lookup_lt_Some.
  - right. rewrite V. by apply consistent_insert_other.
Qed.

Lemma addr_facts i j :
  S_addr i ≠ R_addr j ∧ (S_addr i = S_addr j → i = j) ∧ (R_addr i = R_addr j → i = j)
  ∧ 0 < S_addr i ∧ 0 < R_addr i.
Proof. unfold S_addr, R_addr. repeat split; lia. Qed.

Lemma pile_ext s s' :
  ext s s' → is_Some (garbage s !! worker_id) → is_Some (garbage s' !! worker_id).
Proof.
  intros E [pile Hp]. destruct (ext_garbage _ _ E _ _ Hp) as (more & H). eauto.
Qed.

Lemma cell_nodes l s j st :
  cell l s j st → is_Some (nodes s !! S_addr j) ∧ is_Some (nodes s !! R_addr j).
Proof. intros (nd & rnd & H1 & _ & _ & _ & _ & H6 & _). eauto. Qed.

(** The invariant across a step that raises flags and writes nothing *)
Lemma Inv_raised k s s' :
  Inv k s → raises s s' → mods s' = mods s → grows s s' → Inv k s'.
Proof.
  intros [Wf Pile Sh Su Ok Dn Rd] R M G. destruct (G Wf) as [Wf' E].
  assert (V : vals s' = vals s) by (unfold vals; by rewrite M).
  split.
  - done.
  - by eapply pile_ext.
  - eapply Shape_keeps; [by apply raises_keeps | done].
  - by eapply Subs_same_mods.
  - intros i Hi.
    destruct (lookup_lt_is_Some_2 steps i) as [st Hst]; [lia |].
    destruct (cell_nodes _ _ _ _ (Sh i st Hst ltac:(lia))) as [N1 N2].
    destruct (Ok i Hi) as [O1 O2].
    split; by apply (raises_ok _ _ R).
  - intros i st Hst Hi. rewrite V. eauto.
  - intros i st Hst Hi. rewrite V.
    destruct (Rd i st Hst Hi) as [P | C]; [left; by eapply pending_at_raises | by right].
Qed.

Lemma raises_record e s s' : raises (record e s) s' → raises s s'.
Proof. intros [N O]. split; [exact N | exact O]. Qed.

(** The invariant across the write of step [j] to its destination *)
Lemma Inv_write f j s s' st vs e :
  Inv j s → steps !! j = Some st →
  lookup_all (vals s) (srcs st) = Some vs →
  Mod_write f (dst st) (fn st vs) (record e s) = Done s' →
  is_destroy e = false →
  Inv (S j) s' ∧ vals s' = <[dst st := fn st vs]> (vals s).
Proof.
  intros [Wf Pile Sh Su Ok Dn Rd] Hst Hvs H He.
  assert (G : grows s s').
  { eapply grows_trans; [apply grows_record; exact He | eapply grows_Mod_write; eauto]. }
  destruct (G Wf) as [Wf' E].
  assert (Hm : is_Some (mods s !! dst st)).
  { unfold Mod_write in H. apply res_bind_Done in H as (md & Hm & _).
    apply get_mod_Done in Hm. by exists md. }
  destruct Hm as [md Hm]. destruct (Su _ _ Hm) as [Hi Hel].
  destruct (Mod_write_spec _ _ _ _ _ _ T_ne_sound H Hm Hi) as (R & V & Rs & _).
  apply raises_record in R.
  change (vals (record e s)) with (vals s) in V.
  split; [| exact V]. split.
  - done.
  - by eapply pile_ext.
  - eapply Shape_keeps; [by apply raises_keeps | done].
  - eapply Subs_same_readers; [| exact Su]. exact Rs.
  - intros i Hi'.
    destruct (lookup_lt_is_Some_2 steps i) as [sti Hsti]; [lia |].
    destruct (cell_nodes _ _ _ _ (Sh i sti Hsti ltac:(lia))) as [N1 N2].
    destruct (Ok i ltac:(lia)) as [O1 O2].
    split; by apply (raises_ok _ _ R).
  - intros i sti Hsti Hi'. rewrite V.
    destruct (decide (i = j)) as [-> | Hne].
    + rewrite Hst in Hsti. injection Hsti as <-.
      destruct (steps_forward j j st st Hst Hst) as [F _].
      exists vs. split; [| apply lookup_insert_eq].
      rewrite <- Hvs. apply lookup_all_ext. intros m Hm'.
      rewrite lookup_insert_ne; [done |]. intros <-. by apply F.
    + destruct (steps_forward i j sti st Hsti Hst) as [F1 F2].
      apply consistent_insert_other; [apply F1; lia | | apply (Dn i); [done | lia]].
      intros Q. by apply F2.
  - intros i sti Hsti Hi'.
    destruct (steps_forward i j sti st Hsti Hst) as [_ F2].
    eapply (write_ready f (dst st) (fn st vs) (record e s) s' i sti); try done.
    + intros Q. apply F2; [lia | done].
    + apply Rd; [done | lia].
Qed.

(** The invariant across the clearing of the flags of the reader of step
    [j], once the step is done *)
Lemma Inv_lowered j s s' nd nd' :
  Inv (S j) s → grows s s' →
  nodes s !! R_addr j = Some nd → nodes s' = <[R_addr j := nd']> (nodes s) →
  mods s' = mods s → skel_eq nd nd' →
  Inv (S j) s'.
Proof.
  intros [Wf Pile Sh Su Ok Dn Rd] G Hn En M K. destruct (G Wf) as [Wf' E].
  assert (V : vals s' = vals s) by (unfold vals; by rewrite M).
  split.
  - done.
  - by eapply pile_ext.
  - eapply Shape_keeps; [by eapply lowered_keeps | done].
  - by eapply Subs_same_mods.
  - intros i Hi.
    destruct (lookup_lt_is_Some_2 steps i) as [sti Hsti]; [lia |].
    destruct (Sh i sti Hsti ltac:(lia))
      as (x & rx & H1 & _ & U1 & _ & _ & H6 & _ & U6 & _).
    destruct (Ok i Hi) as [O1 O2].
    pose proof (addr_facts i j) as (A1 & A2 & A3 & A4 & A5).
    split; (eapply lowered_ok; [exact En | | | done]).
    + done.
    + intros y Hy. rewrite H1 in Hy. injection Hy as <-. rewrite U1.
      destruct i as [| i']; [by right | left].
      cbn. apply (addr_facts i' j).
    + intros Q. apply A3 in Q. lia.
    + intros y Hy. rewrite H6 in Hy. injection Hy as <-. rewrite U6. by left.
  - intros i st Hst Hi. rewrite V. eauto.
  - intros i st Hst Hi. rewrite V.
    destruct (Rd i st Hst Hi) as [P | C]; [left | by right].
    eapply lowered_pending; [exact En | | done].
    intros Q. apply (addr_facts i j) in Q. lia.
Qed.

Lemma Inv_next j s st :
  Inv j s → steps !! j = Some st → ¬ pending_at s (R_addr j) → Inv (S j) s.
Proof.
  intros [Wf Pile Sh Su Ok Dn Rd] Hst Np. split; try done.
  - intros i Hi. apply Ok. lia.
  - intros i sti Hsti Hi. destruct (decide (i = j)) as [-> | Hne].
    + destruct (Rd j sti Hsti ltac:(lia)) as [P | C]; [done | done].
    + apply (Dn i); [done | lia].
  - intros i sti Hsti Hi. apply Rd; [done | lia].
Qed.

(** [RNode::propagate] on the reader of step [j] *)
Lemma R_step fuel j s s' st :
  Inv j s → steps !! j = Some st →
  propagate fuel (R_addr j) s = Done s' →
  Inv (S j) s' ∧ (∀ m, m ≠ dst st → vals s' !! m = vals s !! m).
Proof.
  intros I Hst H. pose proof I as [Wf Pile Sh Su Ok Dn Rd].
  destruct (Sh j st Hst ltac:(by eapply lookup_lt_Some))
    as (nd & rnd & H1 & K1 & U1 & L1 & R1 & H6 & K6 & U6 & L6 & R6 & D6).
  destruct fuel as [| fuel]; [discriminate |]. cbn [propagate] in H.
  apply res_bind_Done in H as (x & Hx & H). apply get_node_Done in Hx.
  rewrite H6 in Hx. injection Hx as <-. rewrite K6 in H.
  destruct (pending_update rnd) eqn:Pr.
  - apply res_bind_Done in H as (sa & Hdet & H).
    apply res_bind_Done in H as (u1 & _ & H).
    apply res_bind_Done in H as (pn & _ & H).
    apply res_bind_Done in H as (u2 & _ & H).
    apply res_bind_Done in H as (sb & Hex & H).
    destruct Pile as [pile Hpile].
    destruct (detach_childless _ _ _ _ _ Wf H6 Hpile L6 R6 D6 Hdet)
      as (Ra & Ma & rnda & Ha & Ka & _).
    assert (Ia : Inv j sa).
    { eapply Inv_raised; eauto. by eapply grows_detach. }
    destruct Ka as (Kk & _).
    destruct (execute_chain_reader _ _ _ _ _ st Ha ltac:(congruence) Hex)
      as (f & vs & Hvs & Hw).
    destruct (Inv_write _ _ _ _ _ _ _ Ia Hst Hvs Hw eq_refl) as [Ib Vb].
    destruct (clear_pending_modification_spec _ _ _ _ H)
      as (y & y' & Hy & En & Mc & Ky & _).
    split.
    + apply (Inv_lowered j sb s' y y'); try done.
      by eapply grows_clear_pending_modification.
    + intros m Hm. unfold vals at 1. rewrite Mc. fold (vals sb).
      rewrite Vb, lookup_insert_ne by done. unfold vals. by rewrite Ma.
  - assert (Np : ¬ pending_at s (R_addr j)).
    { intros (y & Hy & Py). congruence. }
    pose proof (Inv_next _ _ _ I Hst Np) as I'.
    destruct (is_dirty rnd) eqn:Dr; [| injection H as <-; by split].
    apply res_bind_Done in H as (x & Hx & H). apply get_node_Done in Hx.
    rewrite H6 in Hx. injection Hx as <-. rewrite L6 in H. cbn in H.
    apply res_bind_Done in H as (x & Hx & H). apply get_node_Done in Hx.
    rewrite H6 in Hx. injection Hx as <-. rewrite R6 in H. cbn in H.
    pose proof H as G. apply grows_set_dirty in G.
    apply set_dirty_false_spec in H as (y & y' & Hy & En & Mc & Ky & _).
    split.
    + by apply (Inv_lowered j s s' y y').
    + intros m Hm. unfold vals. by rewrite Mc.
Qed.

(** Below a clean S node of the chain nothing is dirty and no reader is
    pending. *)
Lemma clean_below j s :
  Inv j s → ¬ dirty_at s (S_addr j) →
  ∀ i, (j ≤ i < length steps)%nat →
    ¬ dirty_at s (S_addr i) ∧ ¬ pending_at s (R_addr i).
Proof.
  intros [Wf Pile Sh Su Ok Dn Rd] Hj.
  assert (HS : ∀ d, (j + d < length steps)%nat → ¬ dirty_at s (S_addr (j + d))).
  { induction d as [| d IH]; intros Hd.
    - by rewrite Nat.add_0_r.
    - intros (x & Hx & Dx).
      destruct (lookup_lt_is_Some_2 steps (j + S d)) as [st Hst]; [lia |].
      destruct (Sh _ st Hst ltac:(lia)) as (nd & rnd & H1 & _ & U1 & _).
      rewrite H1 in Hx. injection Hx as <-.
      destruct (Ok (j + S d)%nat ltac:(lia)) as [[C _] _].
      destruct (C _ H1 Dx) as [Z | Y].
      + rewrite U1 in Z. replace (j + S d)%nat with (S (j + d)) in Z by lia.
        cbn in Z. pose proof (addr_facts (j + d) 0). lia.
      + rewrite U1 in Y. replace (j + S d)%nat with (S (j + d)) in Y by lia.
        apply IH; [lia | exact Y]. }
  intros i Hi. replace i with (j + (i - j))%nat by lia.
  split; [apply HS; lia |].
  intros P.
  destruct (lookup_lt_is_Some_2 steps (j + (i - j))) as [st Hst]; [lia |].
  destruct (Sh _ st Hst ltac:(lia))
    as (nd & rnd & H1 & _ & _ & _ & _ & H6 & _ & U6 & _).
  destruct (Ok (j + (i - j))%nat ltac:(lia)) as [_ [C PD]].
  destruct (PD P) as (x & Hx & Dx). rewrite H6 in Hx. injection Hx as <-.
  destruct (C _ H6 Dx) as [Z | Y].
  - rewrite U6 in Z. pose proof (addr_facts (j + (i - j)) 0). lia.
  - rewrite U6 in Y. apply (HS (i - j)%nat); [lia | exact Y].
Qed.

Lemma dst_in_steps i st : steps !! i = Some st → dst st ∈ dst <$> steps.
Proof. intros H. apply list_elem_of_fmap. exists st. split; [done |]. by eapply list_elem_of_lookup_2. Qed.

(** [SNode::propagate] on the S node of step [j]: when it returns every
    step is consistent, and only destinations changed. *)
Lemma propagate_chain k : ∀ j fuel s s',
  (j < length steps ≤ j + k)%nat → Inv j s →
  propagate fuel (S_addr j) s = Done s' →
  (∀ i st, steps !! i = Some st → consistent (vals s') st)
  ∧ (∀ m, m ∉ dst <$> steps → vals s' !! m = vals s !! m).
Proof.
  induction k as [| k IH]; intros j fuel s s' Hj I H; [lia |].
  destruct (lookup_lt_is_Some_2 steps j) as [st Hst]; [lia |].
  pose proof I as [Wf Pile Sh Su Ok Dn Rd].
  destruct (Sh j st Hst ltac:(lia)) as (nd & rnd & H1 & K1 & U1 & L1 & R1 & H6 & _).
  destruct fuel as [| fuel]; [discriminate |]. cbn [propagate] in H.
  apply res_bind_Done in H as (x & Hx & H). apply get_node_Done in Hx.
  rewrite H1 in Hx. injection Hx as <-. rewrite K1 in H.
  destruct (is_dirty nd) eqn:Dj.
  - apply res_bind_Done in H as (x & Hx & H). apply get_node_Done in Hx.
    rewrite H1 in Hx. injection Hx as <-. rewrite L1 in H.
    apply res_bind_Done in H as (s1 & Hr & H).
    destruct (R_step _ _ _ _ _ I Hst Hr) as [I1 V1].
    pose proof I1 as [Wf1 Pile1 Sh1 Su1 Ok1 Dn1 Rd1].
    destruct (Sh1 j st Hst ltac:(lia)) as (nd1 & rnd1 & G1 & _ & _ & _ & Q1 & _).
    apply res_bind_Done in H as (x & Hx & H). apply get_node_Done in Hx.
    rewrite G1 in Hx. injection Hx as <-. rewrite Q1 in H.
    apply res_bind_Done in H as (s2 & Hn & H).
    apply set_dirty_false_spec in H as (y & y' & _ & _ & Mc & _).
    assert (V' : vals s' = vals s2) by (unfold vals; by rewrite Mc).
    rewrite V'.
    assert (F1 : ∀ m, m ∉ dst <$> steps → vals s1 !! m = vals s !! m).
    { intros m Hm. apply V1. intros ->. apply Hm. by eapply dst_in_steps. }
    destruct (decide (S j < length steps)%nat) as [Hlt | Hge].
    + destruct (IH (S j) fuel s1 s2 ltac:(lia) I1 Hn) as [C2 V2].
      split; [done |]. intros m Hm. rewrite V2 by done. by apply F1.
    + injection Hn as <-. split; [| done].
      intros i sti Hsti. apply (Dn1 i); [done |].
      apply lookup_lt_Some in Hsti. lia.
  - injection H as <-. split; [| done].
    assert (Nd : ¬ dirty_at s (S_addr j)).
    { intros (x & Hx & Dx). congruence. }
    intros i sti Hsti. destruct (decide (i < j)%nat) as [Hlt | Hge].
    + by apply (Dn i).
    + destruct (Rd i sti Hsti ltac:(lia)) as [P | C]; [| done].
      exfalso. apply (clean_below j s I Nd i); [| done].
      apply lookup_lt_Some in Hsti. lia.
Qed.

(** *** The initial run of a chain *)

Lemma add_reader_spec m a s s' :
  add_reader m a s = Done s' →
  ∃ md rs, mods s !! m = Some md ∧ CRS.insert a (readers md) = Done rs
           ∧ mods s' = <[m := with_readers rs md]> (mods s).
Proof.
  unfold add_reader. intros H.
  apply res_bind_Done in H as (md & Hm & H). apply get_mod_Done in Hm.
  apply res_bind_Done in H as (u & _ & H).
  apply res_bind_Done in H as (rs & Hrs & H). injection H as <-.
  by exists md, rs.
Qed.

Lemma vals_same_value (g : gmap Z Mod) m md md' :
  g !! m = Some md → value md' = value md →
  value <$> <[m := md']> g = value <$> g.
Proof.
  intros H E. rewrite fmap_insert, E. apply insert_id. by rewrite lookup_fmap, H.
Qed.

(** The constructor of a read node registers it with each of its
    dependencies, once for every occurrence. *)
Lemma add_readers_spec a ms : ∀ s s',
  for_each (λ m, add_reader m a) ms s = Done s' →
  vals s' = vals s
  ∧ ∀ m md', mods s' !! m = Some md' →
      ∃ md, mods s !! m = Some md
            ∧ (intact (readers md) →
               intact (readers md')
               ∧ ∀ r, r ∈ elements (readers md')
                      ↔ r ∈ elements (readers md) ∨ (r = a ∧ m ∈ ms)).
Proof.
  induction ms as [| m0 ms IH]; intros s s' H; cbn in H.
  - injection H as <-. split; [done |]. intros m md' Hm. exists md'.
    split; [done |]. intros Hi. split; [done |]. intros r. split; [by left |].
    intros [? | [_ Hin]]; [done | by apply elem_of_nil in Hin].
  - apply res_bind_Done in H as (s1 & H1 & H).
    destruct (add_reader_spec _ _ _ _ H1) as (md0 & rs & Hm0 & Hrs & E1).
    destruct (IH _ _ H) as (V & Sub).
    split.
    { rewrite V. unfold vals. rewrite E1. by apply (vals_same_value _ _ md0). }
    intros m md' Hm. destruct (Sub _ _ Hm) as (md1 & Hm1 & Hmd1).
    rewrite E1 in Hm1. destruct (decide (m = m0)) as [-> | Hne].
    + rewrite lookup_insert_eq in Hm1. injection Hm1 as <-.
      exists md0. split; [done |]. intros Hi.
      destruct (insert_intact _ _ _ Hrs Hi) as [Hi' El].
      destruct (Hmd1 Hi') as [Hi'' Iff]. split; [done |].
      intros r. rewrite Iff. cbn [readers with_readers]. rewrite El.
      rewrite !elem_of_cons. clear. intuition.
    + rewrite lookup_insert_ne in Hm1 by done.
      exists md1. split; [done |]. intros Hi.
      destruct (Hmd1 Hi) as [Hi'' Iff]. split; [done |].
      intros r. rewrite Iff. rewrite elem_of_cons. clear -Hne. intuition congruence.
Qed.

(** A write to a modifiable that nobody reads moves no node. *)
Lemma Mod_write_quiet fuel m v s s' md :
  Mod_write fuel m v s = Done s' →
  mods s !! m = Some md → intact (readers md) → elements (readers md) = [] →
  nodes s' = nodes s ∧ brk s' = brk s
  ∧ vals s' = <[m := v]> (vals s)
  ∧ (∀ m', readers <$> mods s' !! m' = readers <$> mods s !! m').
Proof.
  intros H Hm Hi He.
  destruct (Mod_write_spec _ _ _ _ _ _ T_ne_sound H Hm Hi) as (_ & V & Rs & _).
  split; [| split; [| by split]]; unfold Mod_write in H;
    apply res_bind_Done in H as (md0 & Hm0 & H); apply get_mod_Done in Hm0;
    rewrite Hm in Hm0; injection Hm0 as <-;
    (destruct (negb (written md) || T_ne (value md) v); [| by injection H as <-]);
    apply res_bind_Done in H as (s1 & H1 & H);
    apply res_bind_Done in H as (md1 & Hm1 & H); injection H as <-;
    unfold notify_readers in H1;
    apply res_bind_Done in H1 as (md2 & Hm2 & H1); apply get_mod_Done in Hm2;
    cbn in Hm2; rewrite lookup_insert_eq in Hm2; injection Hm2 as <-;
    cbn [readers with_value] in H1; rewrite for_all_intact, He in H1 by done;
    cbn in H1; by injection H1 as <-.
Qed.

Definition clean_at (s : state) (a : Z) : Prop :=
  ∀ nd, nodes s !! a = Some nd → is_dirty nd = false ∧ pending_update nd = false.

(** The state of the builder: [j] cells are built; in the middle of a read
    the S node of the next cell is there as well. *)
Record BuildInv (e0 : gmap Z T) (j : nat) (mid : bool) (s : state) : Prop := {
  B_wf : heap_wf s;
  B_brk : brk s = b + 16 * Z.of_nat j + (if mid then 8 else 0);
  B_shape : Shape (if mid then S j else j) j s;
  B_top : mid = true →
          ∃ nd, nodes s !! S_addr j = Some nd ∧ kind nd = SNode ∧ up nd = up_of j
                ∧ nleft nd = None ∧ nright nd = None
                ∧ is_dirty nd = false ∧ pending_update nd = false;
  B_subs : Subs j s;
  B_clean : ∀ i, (i < j)%nat → clean_at s (S_addr i) ∧ clean_at s (R_addr i);
  B_done : ∀ i st, steps !! i = Some st → (i < j)%nat → consistent (vals s) st;
  B_frame : ∀ m, m ∉ dst <$> steps → vals s !! m = e0 !! m;
}.

Lemma cell_other_nodes l l' s s' i st :
  nodes s' !! S_addr i = nodes s !! S_addr i →
  nodes s' !! R_addr i = nodes s !! R_addr i →
  (if decide (S i < l')%nat then Some (S_addr (S i)) else None)
  = (if decide (S i < l)%nat then Some (S_addr (S i)) else None) →
  cell l s i st → cell l' s' i st.
Proof.
  intros E1 E2 El (nd & rnd & H1 & H2 & H3 & H4 & H5 & H6 & H7 & H8 & H9 & H10 & H11).
  exists nd, rnd. rewrite E1, E2, El. by repeat split.
Qed.

Lemma clean_at_same s s' a :
  nodes s' !! a = nodes s !! a → clean_at s a → clean_at s' a.
Proof. intros E C nd H. rewrite E in H. by apply C. Qed.

Lemma nil_of_no_elem (l : list Z) : (∀ r, r ∉ l) → l = [].
Proof.
  destruct l as [| x l]; [done |]. intros H. exfalso. apply (H x), list_elem_of_here.
Qed.

Lemma S_addr_aligned s j nd :
  heap_wf s → nodes s !! S_addr j = Some nd →
  marked_ptr.get_ptr (S_addr j) = S_addr j ∧ marked_ptr.get_mark (S_addr j) = 0.
Proof.
  intros (Wn & _) H. destruct (Wn _ _ H) as [_ A].
  split; [by apply marked_ptr.get_ptr_aligned | by apply marked_ptr.get_mark_aligned].
Qed.

(** One read of the chain, from the S node of its cell on: the reader is
    created and subscribed, and the first execution writes the destination,
    which nobody reads yet. *)
Lemma read_step e0 fuel j s st r s1 s2 :
  BuildInv e0 j true s → steps !! j = Some st →
  make_read_tuple_node (body st) (srcs st) (S_addr j) s = Done (r, s1) →
  execute fuel r s1 = Done s2 →
  r = R_addr j ∧ BuildInv e0 (S j) false s2.
Proof.
  intros [Wf Bk Sh Top Su Cl Dn Fr] Hst Hmk Hex.
  destruct (Top eq_refl) as (nd & Hn & Kn & Un & Ln & Rn & Dy & Pn).
  destruct (S_addr_aligned _ _ _ Wf Hn) as [Aptr Amark].
  pose proof Hmk as Gmk. apply grows_make_read_node in Gmk.
  destruct (Gmk Wf) as [Wf1 E1].
  pose proof Hex as Gex. apply grows_execute in Gex.
  destruct (Gex Wf1) as [Wf2 E2].
  unfold make_read_tuple_node, make_read_node in Hmk.
  apply res_bind_Done in Hmk as (x & Hx & Hmk). apply get_node_Done in Hx.
  rewrite Hn in Hx. injection Hx as <-.
  rewrite Ln in Hmk. cbn [gc_opt mbind res_bind] in Hmk.
  destruct (new_node (RTupleNode (body st) (srcs st)) (S_addr j) s) as [a sn] eqn:Hnew.
  apply res_bind_Done in Hmk as (sr & Hadd & Hmk).
  apply res_bind_Done in Hmk as (x & Hx & Hmk). apply get_node_Done in Hx.
  injection Hmk as <- <-.
  destruct (grows_new_node _ _ _ _ _ Hnew) as (_ & Ea & Bn & Nn & Mn & _).
  destruct (for_each_add_reader_frame _ _ _ _ Hadd) as (Nr & Br).
  destruct (add_readers_spec _ _ _ _ Hadd) as (Vr & Sr).
  subst a. assert (Ha : brk s = R_addr j) by (unfold R_addr; lia).
  rewrite Ha in *.
  pose proof (addr_facts j j) as (Asr & _).
  set (newR := {| kind := RTupleNode (body st) (srcs st); dynamic_mods := [];
                  parent := S_addr j; nleft := None; nright := None;
                  pending_update := false |}) in *.
  rewrite Nr, Nn, lookup_insert_ne in Hx by done.
  rewrite Hn in Hx. injection Hx as <-.
  set (s1 := put_node (S_addr j) (with_left (Some (R_addr j)) nd) sr) in *.
  assert (N1 : nodes s1 = <[S_addr j := with_left (Some (R_addr j)) nd]>
                            (<[R_addr j := newR]> (nodes s))).
  { subst s1. cbn. by rewrite Nr, Nn. }
  assert (V1 : vals s1 = vals s).
  { change (vals s1) with (vals sr). rewrite Vr. unfold vals. by rewrite Mn. }
  assert (Su1 : Subs (S j) s1).
  { intros m md' Hm. change (mods s1) with (mods sr) in Hm.
    destruct (Sr m md' Hm) as (md & Hmd & Himp). rewrite Mn in Hmd.
    destruct (Su m md Hmd) as [Hi Iff]. destruct (Himp Hi) as [Hi' Iff'].
    split; [done |]. intros r. rewrite Iff', Iff. split.
    - intros [(i & sti & Hsti & Hlt & -> & Hin) | [-> Hin]].
      + exists i, sti. repeat split; try done. lia.
      + exists j, st. repeat split; try done. lia.
    - intros (i & sti & Hsti & Hlt & -> & Hin).
      destruct (decide (i = j)) as [-> | Hne].
      + right. rewrite Hst in Hsti. injection Hsti as <-. done.
      + left. exists i, sti. repeat split; try done. lia. }
  assert (HR : nodes s1 !! R_addr j = Some newR).
  { rewrite N1, lookup_insert_ne by done. apply lookup_insert_eq. }
  destruct (execute_chain_reader _ _ _ _ _ st HR eq_refl Hex) as (f & vs & Hvs & Hw).
  assert (Hm : is_Some (mods s1 !! dst st)).
  { unfold Mod_write in Hw. apply res_bind_Done in Hw as (md & Hm & _).
    apply get_mod_Done in Hm. by exists md. }
  destruct Hm as [md Hm]. destruct (Su1 _ _ Hm) as [Hi Hel].
  assert (He : elements (readers md) = []).
  { apply nil_of_no_elem. intros r Hr. apply Hel in Hr as (i & sti & Hsti & Hlt & _ & Hin).
    destruct (steps_forward i j sti st Hsti Hst) as [F _]. apply F; [lia | done]. }
  destruct (Mod_write_quiet _ _ _ _ _ _ Hw Hm Hi He) as (N2 & B2 & V2 & R2).
  change (nodes (record (EvExecute (R_addr j)) s1)) with (nodes s1) in N2.
  change (brk (record (EvExecute (R_addr j)) s1)) with (brk sr) in B2.
  change (vals (record (EvExecute (R_addr j)) s1)) with (vals s1) in V2.
  rewrite N1 in N2. rewrite V1 in V2, Hvs.
  assert (Old : ∀ i, (i < j)%nat →
            nodes s2 !! S_addr i = nodes s !! S_addr i
            ∧ nodes s2 !! R_addr i = nodes s !! R_addr i).
  { intros i Hi'. rewrite N2.
    by rewrite !lookup_insert_ne by (unfold S_addr, R_addr; lia). }
  split; [done |]. split.
  - done.
  - rewrite B2, Br, Bn. unfold ALIGN, R_addr. lia.
  - intros i sti Hsti Hi'. destruct (decide (i = j)) as [-> | Hne].
    + rewrite Hst in Hsti. injection Hsti as <-.
      exists (with_left (Some (R_addr j)) nd), newR. rewrite N2.
      rewrite lookup_insert_eq, lookup_insert_ne, lookup_insert_eq by done.
      repeat split; try done.
      destruct (decide (S j < S j)%nat); [lia | done].
    + destruct (Old i ltac:(lia)) as [O1 O2].
      eapply cell_other_nodes; [exact O1 | exact O2 | done | apply Sh; [done | lia]].
  - discriminate.
  - eapply Subs_same_readers; [| exact Su1]. exact R2.
  - intros i Hi'. destruct (decide (i = j)) as [-> | Hne].
    + split; intros x Hx; rewrite N2 in Hx.
      * rewrite lookup_insert_eq in Hx. injection Hx as <-. by split.
      * rewrite lookup_insert_ne, lookup_insert_eq in Hx by done. injection Hx as <-.
        split; [| done]. unfold is_dirty. cbn. by rewrite Amark.
    + destruct (Old i ltac:(lia)) as [O1 O2]. destruct (Cl i ltac:(lia)) as [C1 C2].
      split; by eapply clean_at_same.
  - intros i sti Hsti Hi'. rewrite V2.
    destruct (decide (i = j)) as [-> | Hne].
    + rewrite Hst in Hsti. injection Hsti as <-.
      destruct (steps_forward j j st st Hst Hst) as [F _].
      exists vs. split; [| apply lookup_insert_eq].
      rewrite <- Hvs. apply lookup_all_ext. intros m Hm'.
      rewrite lookup_insert_ne; [done |]. intros <-. by apply F.
    + destruct (steps_forward i j sti st Hsti Hst) as [F1 F2].
      apply consistent_insert_other; [apply F1; lia | | apply (Dn i); [done | lia]].
      intros Q. by apply F2.
  - intros m Hm'. rewrite V2, lookup_insert_ne; [by apply Fr |].
    intros <-. apply Hm'. by eapply dst_in_steps.
Qed.

(** The next read finds the right slot of the last cell empty and fills it
    with the S node of its own cell. *)
Lemma materialize_step e0 j s n s' :
  (j < length steps)%nat →
  BuildInv e0 (S j) false s →
  materialize (AtRight (S_addr j)) s = Done (n, s') →
  n = S_addr (S j) ∧ BuildInv e0 (S j) true s'.
Proof.
  intros Hj [Wf Bk Sh _ Su Cl Dn Fr] H.
  destruct (lookup_lt_is_Some_2 steps j Hj) as [st Hst].
  destruct (Sh j st Hst ltac:(lia))
    as (nd & rnd & H1 & K1 & U1 & L1 & R1 & H6 & K6 & U6 & L6 & R6 & D6).
  destruct (decide (S j < S j)%nat) as [? | _]; [lia |].
  destruct (S_addr_aligned _ _ _ Wf H1) as [Aptr Amark].
  pose proof H as G. apply grows_materialize in G. destruct (G Wf) as [Wf' _].
  unfold materialize in H.
  apply res_bind_Done in H as (x & Hx & H). apply get_node_Done in Hx.
  rewrite H1 in Hx. injection Hx as <-. rewrite R1 in H.
  apply res_bind_Done in H as (u & _ & H).
  destruct (new_node SNode (S_addr j) s) as [a sn] eqn:Hnew.
  apply res_bind_Done in H as (x & Hx & H). apply get_node_Done in Hx.
  injection H as <- <-.
  destruct (grows_new_node _ _ _ _ _ Hnew) as (_ & Ea & Bn & Nn & Mn & _).
  subst a. assert (Ha : brk s = S_addr (S j)) by (unfold S_addr; lia).
  rewrite Ha in *.
  set (newS := {| kind := SNode; dynamic_mods := []; parent := S_addr j;
                  nleft := None; nright := None; pending_update := false |}) in *.
  rewrite Nn, lookup_insert_ne in Hx by (unfold S_addr; lia).
  rewrite H1 in Hx. injection Hx as <-.
  set (s' := put_node (S_addr j) (with_right (Some (S_addr (S j))) nd) sn) in *.
  assert (N' : nodes s' = <[S_addr j := with_right (Some (S_addr (S j))) nd]>
                            (<[S_addr (S j) := newS]> (nodes s))).
  { subst s'. cbn. by rewrite Nn. }
  assert (V' : vals s' = vals s).
  { change (vals s') with (vals sn). unfold vals. by rewrite Mn. }
  split; [done |]. split.
  - done.
  - change (brk s') with (brk sn). rewrite Bn. unfold ALIGN, S_addr. lia.
  - intros i sti Hsti Hi'. destruct (decide (i = j)) as [-> | Hne].
    + rewrite Hst in Hsti. injection Hsti as <-.
      exists (with_right (Some (S_addr (S j))) nd), rnd. rewrite N'.
      rewrite lookup_insert_eq.
      rewrite !lookup_insert_ne by (unfold S_addr, R_addr; lia).
      repeat split; try done.
      cbn. destruct (decide (S j < S (S j))%nat); [done | lia].
    + eapply cell_other_nodes; [| | | apply (Sh i sti Hsti Hi')].
      * rewrite N'. by rewrite !lookup_insert_ne by (unfold S_addr, R_addr; lia).
      * rewrite N'. by rewrite !lookup_insert_ne by (unfold S_addr, R_addr; lia).
      * repeat destruct (decide _); try done; lia.
  - intros _. exists newS. rewrite N'.
    rewrite lookup_insert_ne by (unfold S_addr; lia). rewrite lookup_insert_eq.
    repeat split; try done. unfold is_dirty. cbn. by rewrite Amark.
  - by eapply Subs_same_mods.
  - intros i Hi'. destruct (Cl i Hi') as [C1 C2].
    split; [| eapply clean_at_same; [| exact C2]; rewrite N';
              by rewrite !lookup_insert_ne by (unfold S_addr, R_addr; lia)].
    destruct (decide (i = j)) as [-> | Hne].
    + intros x Hx. rewrite N', lookup_insert_eq in Hx. injection Hx as <-.
      exact (C1 _ H1).
    + eapply clean_at_same; [| exact C1]. rewrite N'.
      by rewrite !lookup_insert_ne by (unfold S_addr, R_addr; lia).
  - intros i sti Hsti Hi'. rewrite V'. by apply (Dn i).
  - intros m Hm. rewrite V'. by apply Fr.
Qed.

(** The builder on the rest of the chain *)
Lemma build_chain e0 k : ∀ j fuel cur s ctx cur' s',
  (length steps = j + k)%nat →
  match j with
  | O => cur = AtNode b ∧ BuildInv e0 0 true s
  | S i => cur = AtRight (S_addr i) ∧ BuildInv e0 (S i) false s
  end →
  exec fuel (chain (drop j steps)) None cur s = Done (ctx, cur', s') →
  BuildInv e0 (length steps) (bool_decide (length steps = 0%nat)) s'.
Proof.
  induction k as [| k IH]; intros j fuel cur s ctx cur' s' Hlen Start H.
  - rewrite drop_ge in H by lia. destruct fuel as [| fuel]; [discriminate |].
    cbn in H. injection H as <- <- <-. rewrite Hlen, Nat.add_0_r.
    destruct j as [| i]; cbn; apply Start.
  - destruct (lookup_lt_is_Some_2 steps j) as [st Hst]; [lia |].
    rewrite (drop_S _ _ _ Hst) in H.
    destruct fuel as [| fuel]; [discriminate |]. cbn [chain exec] in H.
    apply res_bind_Done in H as ([n sm] & Hmat & H).
    assert (Mid : n = S_addr j ∧ BuildInv e0 j true sm).
    { destruct j as [| i]; destruct Start as [-> B0].
      - unfold materialize in Hmat. apply res_bind_Done in Hmat as (x & _ & Hmat).
        injection Hmat as <- <-. split; [unfold S_addr; lia | done].
      - apply (materialize_step e0 i s n sm); [lia | done | done]. }
    destruct Mid as [-> Bm].
    apply res_bind_Done in H as ([r s1] & Hmk & H).
    apply res_bind_Done in H as (s2 & Hex & H).
    destruct (read_step _ _ _ _ _ _ _ _ Bm Hst Hmk Hex) as [-> B2].
    apply res_bind_Done in H as (cur2 & Hadv & H).
    unfold advance in Hadv. apply res_bind_Done in Hadv as (x & _ & Hadv).
    apply res_bind_Done in Hadv as (u & _ & Hadv). injection Hadv as <-.
    apply (IH (S j) fuel _ _ _ _ _ ltac:(lia) (conj eq_refl B2) H).
Qed.

(** The initial run of a chain on fresh modifiables: the trace is the chain
    of cells from the root at [brk], no flag is set, every step is
    consistent and only destinations changed. *)
Lemma run_chain e0 fuel s0 root s1 :
  heap_wf s0 → brk s0 = b →
  (∀ m md, mods s0 !! m = Some md → readers md = CRS.Empty) →
  (∀ m, m ∉ dst <$> steps → vals s0 !! m = e0 !! m) →
  run fuel (chain steps) s0 = Done (root, s1) →
  root = b ∧ BuildInv e0 (length steps) (bool_decide (length steps = 0%nat)) s1.
Proof.
  intros Wf Hb Fresh Fr H. unfold run in H.
  destruct (new_node SNode 0 s0) as [a sr] eqn:Hnew.
  apply res_bind_Done in H as ([[ctx cur] s'] & Hex & H). injection H as <- <-.
  destruct (grows_new_node _ _ _ _ _ Hnew) as (G & Ea & Bn & Nn & Mn & _).
  destruct (G Wf) as [Wfr _]. rewrite Hb in Ea. subst a.
  assert (S0 : S_addr 0 = b) by (unfold S_addr; lia).
  split; [done |].
  apply (build_chain e0 (length steps) 0 fuel (AtNode b) sr ctx cur s' eq_refl);
    [| by rewrite drop_0].
  split; [done |]. split.
  - done.
  - rewrite Bn, Hb. unfold ALIGN. lia.
  - intros i st _ Hi. lia.
  - intros _. eexists. rewrite S0, Nn, lookup_insert_eq.
    split; [done |]. by repeat split.
  - intros m md Hm. rewrite Mn in Hm. rewrite (Fresh _ _ Hm).
    split; [done |]. intros r. split; [intros Hr; by apply elem_of_nil in Hr |].
    intros (i & _ & _ & Hi & _). lia.
  - intros i Hi. lia.
  - intros i st _ Hi. lia.
  - intros m Hm. unfold vals. rewrite Mn. by apply Fr.
Qed.

(** *** Writes from outside, and the comparison of the two runs *)

Definition applyW (e : gmap Z T) (W : list (Z * T)) : gmap Z T :=
  foldl (λ e w, <[w.1 := w.2]> e) e W.

Lemma applyW_pointwise W : ∀ e1 e2 m,
  e1 !! m = e2 !! m → applyW e1 W !! m = applyW e2 W !! m.
Proof.
  induction W as [| [m0 v0] W IH]; intros e1 e2 m H; [done |].
  cbn. apply IH. cbn. destruct (decide (m = m0)) as [-> | Hne].
  - by rewrite !lookup_insert_eq.
  - by rewrite !lookup_insert_ne.
Qed.

Definition fresh_mods (s : state) : Prop :=
  ∀ m md, mods s !! m = Some md → readers md = CRS.Empty.

Lemma Mod_write_fresh fuel m v s s' :
  fresh_mods s → Mod_write fuel m v s = Done s' →
  fresh_mods s' ∧ nodes s' = nodes s ∧ brk s' = brk s ∧ vals s' = <[m := v]> (vals s).
Proof.
  intros Fr H.
  assert (Hm : is_Some (mods s !! m)).
  { unfold Mod_write in H. apply res_bind_Done in H as (md & Hm & _).
    apply get_mod_Done in Hm. by exists md. }
  destruct Hm as [md Hm]. pose proof (Fr _ _ Hm) as E.
  destruct (Mod_write_quiet _ _ _ _ _ _ H Hm) as (N & B & V & R);
    [by rewrite E | by rewrite E |].
  split; [| done]. intros m' md' Hm'. specialize (R m'). rewrite Hm' in R.
  destruct (mods s !! m') as [md0 |] eqn:Hm0; [| discriminate].
  cbn in R. injection R as ->. by eapply Fr.
Qed.

Lemma apply_writes_fresh fuel W : ∀ s s',
  fresh_mods s → apply_writes fuel W s = Done s' →
  fresh_mods s' ∧ nodes s' = nodes s ∧ brk s' = brk s ∧ vals s' = applyW (vals s) W.
Proof.
  induction W as [| [m v] W IH]; intros s s' Fr H; cbn in H.
  - by injection H as <-.
  - apply res_bind_Done in H as (s1 & H1 & H). cbn in H1.
    destruct (Mod_write_fresh _ _ _ _ _ Fr H1) as (Fr1 & N1 & B1 & V1).
    destruct (IH _ _ Fr1 H) as (Fr' & N' & B' & V').
    split; [done |]. split; [congruence |]. split; [congruence |].
    rewrite V', V1. done.
Qed.

(** A write from outside to a modifiable that is no destination *)
Lemma Inv_outside_write fuel m v s s' :
  Inv 0 s → m ∉ dst <$> steps → Mod_write fuel m v s = Done s' →
  Inv 0 s' ∧ vals s' = <[m := v]> (vals s).
Proof.
  intros [Wf Pile Sh Su Ok Dn Rd] Hm H.
  pose proof H as G. apply grows_Mod_write in G. destruct (G Wf) as [Wf' E].
  assert (Hmd : is_Some (mods s !! m)).
  { unfold Mod_write in H. apply res_bind_Done in H as (md & Hmd & _).
    apply get_mod_Done in Hmd. by exists md. }
  destruct Hmd as [md Hmd]. destruct (Su _ _ Hmd) as [Hi Hel].
  destruct (Mod_write_spec _ _ _ _ _ _ T_ne_sound H Hmd Hi) as (R & V & Rs & _).
  split; [| exact V]. split.
  - done.
  - by eapply pile_ext.
  - eapply Shape_keeps; [by apply raises_keeps | done].
  - eapply Subs_same_readers; [| exact Su]. exact Rs.
  - intros i Hi'.
    destruct (lookup_lt_is_Some_2 steps i) as [sti Hsti]; [lia |].
    destruct (cell_nodes _ _ _ _ (Sh i sti Hsti ltac:(lia))) as [N1 N2].
    destruct (Ok i Hi') as [O1 O2].
    split; by apply (raises_ok _ _ R).
  - intros i st _ Hi'. lia.
  - intros i sti Hsti Hi'.
    apply (write_ready fuel m v s s' i sti); try done.
    + intros ->. apply Hm. by eapply dst_in_steps.
    + by apply Rd.
Qed.

Lemma Inv_outside_writes fuel W : ∀ s s',
  Inv 0 s → (∀ w, w ∈ W → w.1 ∉ dst <$> steps) →
  apply_writes fuel W s = Done s' →
  Inv 0 s' ∧ vals s' = applyW (vals s) W.
Proof.
  induction W as [| [m v] W IH]; intros s s' I HW H; cbn in H.
  - by injection H as <-.
  - apply res_bind_Done in H as (s1 & H1 & H). cbn in H1.
    destruct (Inv_outside_write _ _ _ _ _ I (HW (m, v) (list_elem_of_here _ _)) H1)
      as [I1 V1].
    destruct (IH _ _ I1 (λ w Hw, HW w (list_elem_of_further _ _ _ Hw)) H) as [I' V'].
    split; [done |]. rewrite V', V1. done.
Qed.

(** After the initial run the state is one that a propagation starts from. *)
Lemma BuildInv_Inv e0 s :
  (0 < length steps)%nat → is_Some (garbage s !! worker_id) →
  BuildInv e0 (length steps) false s → Inv 0 s.
Proof.
  intros Hn Pile [Wf Bk Sh _ Su Cl Dn Fr]. split; try done.
  - intros i Hi. destruct (Cl i ltac:(lia)) as [C1 C2].
    split; (split; [intros nd H D | intros (nd & H & P)]).
    + destruct (C1 _ H). congruence.
    + destruct (C1 _ H). congruence.
    + destruct (C2 _ H). congruence.
    + destruct (C2 _ H). congruence.
  - intros i st _ Hi. lia.
  - intros i st Hst _. right. apply (Dn i); [done |]. by eapply lookup_lt_Some.
Qed.

(** The values of the destinations are determined by the others. *)
Lemma consistent_unique (e1 e2 : gmap Z T) :
  (∀ i st, steps !! i = Some st → consistent e1 st) →
  (∀ i st, steps !! i = Some st → consistent e2 st) →
  (∀ m, m ∉ dst <$> steps → e1 !! m = e2 !! m) →
  ∀ m, e1 !! m = e2 !! m.
Proof.
  intros C1 C2 Out.
  assert (D : ∀ i st, steps !! i = Some st → e1 !! dst st = e2 !! dst st).
  { induction i as [i IH] using lt_wf_ind. intros st Hst.
    destruct (C1 i st Hst) as (vs1 & L1 & D1).
    destruct (C2 i st Hst) as (vs2 & L2 & D2).
    assert (E : lookup_all e1 (srcs st) = lookup_all e2 (srcs st)).
    { apply lookup_all_ext. intros m Hm.
      destruct (decide (m ∈ dst <$> steps)) as [Hin | Hnin]; [| by apply Out].
      apply list_elem_of_fmap in Hin as (stk & -> & Hin).
      apply list_elem_of_lookup in Hin as (k & Hk).
      destruct (steps_forward i k st stk Hst Hk) as [F _].
      destruct (decide (i ≤ k)%nat) as [Hle | Hgt]; [by destruct (F Hle) |].
      apply (IH k); [lia | done]. }
    rewrite D1, D2. rewrite E, L2 in L1. by injection L1 as ->. }
  intros m. destruct (decide (m ∈ dst <$> steps)) as [Hin | Hnin]; [| by apply Out].
  apply list_elem_of_fmap in Hin as (stk & -> & Hin).
  apply list_elem_of_lookup in Hin as (k & Hk). by apply (D k).
Qed.

(** *** The propagation returns

    With fuel for the depth of the chain no step of the propagation runs
    out of it, and no assertion fails. *)

Lemma marks_keeps s s' : marks s s' → keeps s s'.
Proof.
  intros M a nd H. destruct (marks_nodes _ _ M _ _ H) as (nd' & H' & K & _).
  by exists nd'.
Qed.

(** The nodes of the chain and their depth *)
Definition on_chain (a : Z) (lvl : nat) : Prop :=
  (∃ j, a = S_addr j ∧ (j < length steps)%nat ∧ lvl = j)
  ∨ (∃ j, a = R_addr j ∧ (j < length steps)%nat ∧ lvl = S j).

Lemma chain_parent s a lvl :
  Shape (length steps) (length steps) s → on_chain a lvl →
  ∃ nd, nodes s !! a = Some nd
        ∧ match lvl with
          | O => up nd = 0
          | S lvl' => up nd ≠ 0 ∧ on_chain (up nd) lvl'
          end.
Proof.
  intros Sh [(j & -> & Hj & ->) | (j & -> & Hj & ->)];
    destruct (lookup_lt_is_Some_2 steps j Hj) as [st Hst];
    destruct (Sh j st Hst Hj)
      as (nd & rnd & H1 & _ & U1 & _ & _ & H6 & _ & U6 & _).
  - exists nd. split; [done |]. rewrite U1. destruct j as [| i]; [done |].
    cbn. split; [pose proof (addr_facts i 0); lia |].
    left. exists i. repeat split; lia.
  - exists rnd. split; [done |]. rewrite U6.
    split; [pose proof (addr_facts j 0); lia |].
    left. exists j. by repeat split.
Qed.

Lemma to_bool_up nd : marked_ptr.to_bool (parent nd) = negb (up nd =? 0).
Proof. done. Qed.

Lemma set_dirty_true_total lvl : ∀ fuel a s,
  Shape (length steps) (length steps) s → on_chain a lvl → (lvl ≤ fuel)%nat →
  ∃ s', set_dirty fuel a true s = Done s'.
Proof.
  induction lvl as [| lvl IH]; intros fuel a s Sh Ha Hf;
    destruct (chain_parent _ _ _ Sh Ha) as (nd & Hn & Hup);
    pose proof (proj2 (get_node_Done _ _ _) Hn) as G.
  - destruct fuel; cbn [set_dirty]; rewrite G; cbn [mbind res_bind];
      rewrite to_bool_up, Hup; cbn; eauto.
  - destruct Hup as [Hne Hp].
    destruct fuel as [| fuel]; [lia |]. cbn [set_dirty].
    rewrite G. cbn [mbind res_bind].
    rewrite to_bool_up. apply Z.eqb_neq in Hne. rewrite Hne. cbn [negb].
    pose proof (marks_put_dirty s a nd Hn) as M1.
    change (marked_ptr.of_bool true) with 1.
    set (s1 := put_node a _ s) in *.
    assert (Sh1 : Shape (length steps) (length steps) s1).
    { eapply Shape_keeps; [| exact Sh]. by apply marks_keeps. }
    destruct (chain_parent _ _ _ Sh1 Hp) as (pn & Hpn & _).
    apply get_node_Done in Hpn. unfold up in Hpn. rewrite Hpn. cbn [mbind res_bind].
    destruct (is_dirty pn); cbn [negb]; [eauto |].
    apply IH; [done | done | lia].
Qed.

Lemma set_modified_total fuel j s :
  Shape (length steps) (length steps) s → (j < length steps ≤ fuel)%nat →
  ∃ s', set_modified fuel (R_addr j) s = Done s'.
Proof.
  intros Sh Hj.
  assert (Ha : on_chain (R_addr j) (S j)) by (right; exists j; repeat split; lia).
  destruct (chain_parent _ _ _ Sh Ha) as (nd & Hn & _).
  unfold set_modified. rewrite (proj2 (get_node_Done _ _ _) Hn). cbn [mbind res_bind].
  apply (set_dirty_true_total (S j)); [| done | lia].
  eapply Shape_keeps; [| exact Sh].
  apply (lowered_keeps s _ (R_addr j) nd (with_pending true nd)); [done | done |].
  by repeat split.
Qed.

Lemma for_each_set_modified_total fuel rs : ∀ s,
  Shape (length steps) (length steps) s → (length steps ≤ fuel)%nat →
  (∀ r, r ∈ rs → ∃ j, r = R_addr j ∧ (j < length steps)%nat) →
  ∃ s', for_each (set_modified fuel) rs s = Done s'.
Proof.
  induction rs as [| r rs IH]; intros s Sh Hf Hrs; cbn; [eauto |].
  destruct (Hrs r (list_elem_of_here _ _)) as (j & -> & Hj).
  destruct (set_modified_total fuel j s Sh ltac:(lia)) as (s1 & H1).
  rewrite H1. cbn.
  destruct (set_modified_spec _ _ _ _ H1) as (R1 & _ & _).
  apply IH; [| done |].
  - eapply Shape_keeps; [by apply raises_keeps | done].
  - intros r' Hr'. apply Hrs. by apply list_elem_of_further.
Qed.

(** A write returns: every reader it notifies is a reader of the chain. *)
Lemma Mod_write_total fuel m v s :
  Shape (length steps) (length steps) s → Subs (length steps) s →
  is_Some (mods s !! m) → (length steps ≤ fuel)%nat →
  ∃ s', Mod_write fuel m v s = Done s'.
Proof.
  intros Sh Su [md Hm] Hf. destruct (Su _ _ Hm) as [Hi Hel].
  unfold Mod_write, get_mod. rewrite Hm. cbn.
  destruct (negb (written md) || T_ne (value md) v); [| eauto].
  unfold notify_readers, get_mod. cbn. rewrite lookup_insert_eq. cbn.
  rewrite for_all_intact by done.
  edestruct (for_each_set_modified_total fuel (elements (readers md))) as (s1 & H1);
    [| exact Hf | | rewrite H1].
  - exact Sh.
  - intros r Hr. apply Hel in Hr as (i & st & _ & Hi' & -> & _). eauto.
  - cbn. destruct (for_each_set_modified_spec _ _ _ _ H1) as (_ & M & _).
    rewrite M. cbn. rewrite lookup_insert_eq. cbn. eauto.
Qed.

(** The modifiables that the steps name are alive. *)
Definition Live (s : state) : Prop :=
  ∀ i st, steps !! i = Some st →
    (∀ m, m ∈ srcs st → is_Some (mods s !! m)) ∧ is_Some (mods s !! dst st).

Lemma Live_ext s s' : ext s s' → Live s → Live s'.
Proof.
  intros E L i st Hst. destruct (L i st Hst) as [L1 L2].
  split; [intros m Hm; destruct (L1 m Hm) as [md H] | destruct L2 as [md H]];
    destruct (ext_mods _ _ E _ _ H) as (md' & H' & _); eauto.
Qed.

Lemma lookup_all_live e ms vs m :
  lookup_all e ms = Some vs → m ∈ ms → is_Some (e !! m).
Proof.
  revert vs. induction ms as [| m0 ms IH]; intros vs H Hm; [by apply elem_of_nil in Hm |].
  cbn in H. destruct (e !! m0) as [v |] eqn:E; [| discriminate].
  destruct (lookup_all e ms) as [vs' |]; [| discriminate].
  apply elem_of_cons in Hm as [-> | Hm]; [by rewrite E | by eapply IH].
Qed.

Lemma consistent_live s :
  (∀ i st, steps !! i = Some st → consistent (vals s) st) → Live s.
Proof.
  intros C i st Hst. destruct (C i st Hst) as (vs & L & D).
  assert (F : ∀ m, is_Some (vals s !! m) → is_Some (mods s !! m)).
  { intros m [v H]. unfold vals in H. rewrite lookup_fmap in H.
    destruct (mods s !! m); [eauto | discriminate]. }
  split; [intros m Hm; apply F; by eapply lookup_all_live | apply F; by rewrite D].
Qed.

Lemma read_values_total ms s :
  (∀ m, m ∈ ms → is_Some (mods s !! m)) → ∃ vs, read_values ms s = Done vs.
Proof.
  induction ms as [| m ms IH]; intros H; cbn; [eauto |].
  destruct (H m (list_elem_of_here _ _)) as [md Hm].
  unfold get_mod. rewrite Hm. cbn.
  destruct IH as (vs & ->); [| cbn; eauto].
  intros m' Hm'. apply H. by apply list_elem_of_further.
Qed.


Lemma set_dirty_false_total fuel n s :
  is_Some (nodes s !! n) → ∃ s', set_dirty fuel n false s = Done s'.
Proof.
  intros [nd Hn]. apply get_node_Done in Hn.
  destruct fuel; cbn [set_dirty]; rewrite Hn; cbn; eauto.
Qed.

Lemma clear_pending_modification_total fuel n s :
  is_Some (nodes s !! n) → ∃ s', clear_pending_modification fuel n s = Done s'.
Proof.
  intros [nd Hn]. unfold clear_pending_modification.
  rewrite (proj2 (get_node_Done _ _ _) Hn). cbn [mbind res_bind].
  apply set_dirty_false_total. cbn. rewrite lookup_insert_eq. eauto.
Qed.

(** The re-execution of the reader of a step returns. *)
Lemma execute_total fuel r s rnd st :
  Shape (length steps) (length steps) s → Subs (length steps) s →
  nodes s !! r = Some rnd → kind rnd = RTupleNode (body st) (srcs st) →
  (∀ m, m ∈ srcs st → is_Some (mods s !! m)) → is_Some (mods s !! dst st) →
  (length steps + 2 ≤ fuel)%nat →
  ∃ s', execute fuel r s = Done s'.
Proof.
  intros Sh Su Hr Hk Ls Ld Hf. unfold execute, execute_with.
  rewrite (proj2 (get_node_Done _ _ _) Hr). cbn [mbind res_bind]. rewrite Hk.
  destruct (read_values_total (srcs st) (record (EvExecute r) s) Ls) as (vs & ->).
  cbn [mbind res_bind].
  destruct fuel as [| fuel]; [lia |]. cbn [body exec].
  destruct (Mod_write_total fuel (dst st) (fn st vs) (record (EvExecute r) s))
    as (s1 & ->); [exact Sh | exact Su | exact Ld | lia |].
  cbn [mbind res_bind].
  destruct fuel as [| fuel]; [lia |]. cbn. eauto.
Qed.

(** [RNode::propagate] on the reader of step [j] returns. *)
Lemma R_step_total fuel j s st :
  Inv j s → Live s → steps !! j = Some st → (length steps + 3 ≤ fuel)%nat →
  ∃ s', propagate fuel (R_addr j) s = Done s'.
Proof.
  intros I Lv Hst Hf. pose proof I as [Wf Pile Sh Su Ok Dn Rd].
  destruct (Sh j st Hst ltac:(by eapply lookup_lt_Some))
    as (nd & rnd & H1 & K1 & U1 & L1 & R1 & H6 & K6 & U6 & L6 & R6 & D6).
  destruct fuel as [| fuel]; [lia |]. cbn [propagate].
  rewrite (proj2 (get_node_Done _ _ _) H6). cbn [mbind res_bind]. rewrite K6.
  destruct (pending_update rnd) eqn:Pr.
  - destruct Pile as [pile Hpile].
    pose proof (detach_spec _ _ _ _ Wf H6 Hpile) as Hdet.
    rewrite Hdet. cbn [mbind res_bind].
    set (sa := {| nodes := _ |}) in *.
    destruct (detach_childless _ _ _ _ _ Wf H6 Hpile L6 R6 D6 Hdet)
      as (Ra & Ma & rnda & Ha & Ka & _).
    assert (Ia : Inv j sa).
    { eapply Inv_raised; eauto. by eapply grows_detach. }
    destruct (grows_detach _ _ _ Hdet Wf) as [_ Ea].
    pose proof (Live_ext _ _ Ea Lv) as Lva.
    pose proof Ia as [Wfa _ Sha Sua _ _ _].
    destruct (Sha j st Hst ltac:(by eapply lookup_lt_Some))
      as (nda & rnda' & G1 & _ & _ & GL & _).
    rewrite to_bool_up, U6.
    replace (S_addr j =? 0) with false
      by (symmetry; apply Z.eqb_neq; pose proof (addr_facts j 0); lia).
    cbn [negb cassert mbind res_bind].
    change (marked_ptr.get_ptr (parent rnd)) with (up rnd). rewrite U6.
    rewrite (proj2 (get_node_Done _ _ _) G1). cbn [mbind res_bind].
    rewrite GL, Z.eqb_refl. cbn [cassert mbind res_bind].
    destruct Ka as (Kk & _).
    destruct (Lva j st Hst) as [Ls Ld].
    destruct (execute_total fuel (R_addr j) sa rnda st Sha Sua Ha ltac:(congruence)
                Ls Ld ltac:(lia)) as (sb & Hex).
    rewrite Hex. cbn [mbind res_bind].
    apply clear_pending_modification_total.
    destruct (grows_execute _ _ _ _ Hex Wfa) as [_ Eb].
    destruct (ext_nodes _ _ Eb _ _ Ha) as (x & Hx & _). eauto.
  - destruct (is_dirty rnd); [| eauto].
    rewrite L6. cbn [mbind res_bind].
    rewrite (proj2 (get_node_Done _ _ _) H6). cbn [mbind res_bind].
    rewrite R6. cbn [mbind res_bind].
    apply set_dirty_false_total. eauto.
Qed.

(** [SNode::propagate] on the S node of step [j] returns. *)
Lemma propagate_chain_total k : ∀ j fuel s,
  (j < length steps ≤ j + k)%nat → Inv j s → Live s →
  (k + length steps + 3 ≤ fuel)%nat →
  ∃ s', propagate fuel (S_addr j) s = Done s'.
Proof.
  induction k as [| k IH]; intros j fuel s Hj I Lv Hf; [lia |].
  destruct (lookup_lt_is_Some_2 steps j) as [st Hst]; [lia |].
  pose proof I as [Wf Pile Sh Su Ok Dn Rd].
  destruct (Sh j st Hst ltac:(lia)) as (nd & rnd & H1 & K1 & U1 & L1 & R1 & H6 & _).
  destruct fuel as [| fuel]; [lia |]. cbn [propagate].
  rewrite (proj2 (get_node_Done _ _ _) H1). cbn [mbind res_bind]. rewrite K1.
  destruct (is_dirty nd); [| eauto].
  rewrite L1.
  destruct (R_step_total fuel j s st I Lv Hst ltac:(lia)) as (s1 & Hr).
  rewrite Hr. cbn [mbind res_bind].
  destruct (R_step _ _ _ _ _ I Hst Hr) as [I1 _].
  destruct (grows_propagate _ _ _ _ Hr Wf) as [Wf1 E1].
  pose proof (Live_ext _ _ E1 Lv) as Lv1.
  pose proof I1 as [_ _ Sh1 _ _ _ _].
  destruct (Sh1 j st Hst ltac:(lia)) as (nd1 & rnd1 & G1 & _ & _ & _ & Q1 & _).
  rewrite (proj2 (get_node_Done _ _ _) G1). cbn [mbind res_bind]. rewrite Q1.
  destruct (decide (S j < length steps)%nat) as [Hlt | Hge].
  - destruct (IH (S j) fuel s1 ltac:(lia) I1 Lv1 ltac:(lia)) as (s2 & Hn).
    rewrite Hn. cbn [mbind res_bind].
    apply set_dirty_false_total.
    destruct (grows_propagate _ _ _ _ Hn Wf1) as [_ E2].
    destruct (ext_nodes _ _ E2 _ _ G1) as (x & Hx & _). eauto.
  - cbn [mbind res_bind]. apply set_dirty_false_total. eauto.
Qed.


(** *** No dirty bit is left behind

    The steps of a chain write forward: a re-executed reader notifies
    readers further down, whose marking stops at the S node the walk of
    [propagate] is in.  So the walk meets every node it marks, and leaves
    the part of the chain it has passed clean. *)

(** The cells from [j] on *)
Definition Reg (j : nat) (a : Z) : Prop :=
  ∃ i, (j ≤ i < length steps)%nat ∧ (a = S_addr i ∨ a = R_addr i).

(** The S node above the cells from [j] on is dirty: the walk is in it. *)
Definition Top (j : nat) (s : state) : Prop :=
  match j with
  | O => True
  | S i => dirty_at s (S_addr i)
  end.

(** Only nodes of the region [P] change, and only readers become pending. *)
Definition confined (P : Z → Prop) (s s' : state) : Prop :=
  ∀ c nd, nodes s !! c = Some nd →
    ∃ nd', nodes s' !! c = Some nd' ∧ (¬ P c → nd' = nd)
           ∧ ((∀ i, c ≠ R_addr i) → pending_update nd' = pending_update nd).

Lemma confined_refl P s : confined P s s.
Proof. intros c nd H. by exists nd. Qed.

Lemma confined_trans P s1 s2 s3 : confined P s1 s2 → confined P s2 s3 → confined P s1 s3.
Proof.
  intros C1 C2 c nd H. destruct (C1 _ _ H) as (nd2 & H2 & E2 & P2).
  destruct (C2 _ _ H2) as (nd3 & H3 & E3 & P3). exists nd3.
  split; [done |]. split.
  - intros Hc. by rewrite E3, E2.
  - intros Hc. by rewrite P3, P2.
Qed.

Lemma confined_weaken (P Q : Z → Prop) s s' :
  (∀ c, P c → Q c) → confined P s s' → confined Q s s'.
Proof.
  intros PQ C c nd H. destruct (C _ _ H) as (nd' & H' & E & Pn).
  exists nd'. split; [done |]. split; [| done]. intros Hc. apply E. auto.
Qed.

Lemma confined_put P s a nd nd' :
  nodes s !! a = Some nd → P a →
  ((∀ i, a ≠ R_addr i) → pending_update nd' = pending_update nd) →
  confined P s (put_node a nd' s).
Proof.
  intros Ha Pa Pe c x Hc. cbn. destruct (decide (c = a)) as [-> | Hne].
  - rewrite Ha in Hc. injection Hc as <-. exists nd'. rewrite lookup_insert_eq.
    split; [done |]. by split.
  - exists x. rewrite lookup_insert_ne by done. by repeat split.
Qed.

Lemma Top_marks j s s' : marks s s' → Top j s → Top j s'.
Proof. destruct j; [done |]. apply dirty_at_marks. Qed.

Lemma Top_raises j s s' : raises s s' → Top j s → Top j s'.
Proof. destruct j; [done |]. apply dirty_at_raises. Qed.

Lemma parent_in_region s a lvl j nd :
  Shape (length steps) (length steps) s → on_chain a (S lvl) → Reg j a → Top j s →
  nodes s !! a = Some nd →
  Reg j (up nd) ∨ dirty_at s (up nd).
Proof.
  intros Sh Ha (i' & Hi' & Hreg) Tp Hn.
  destruct Ha as [(i & -> & Hi & Hl) | (i & -> & Hi & Hl)].
  - subst i. destruct (lookup_lt_is_Some_2 steps (S lvl) Hi) as [st Hst].
    destruct (Sh _ st Hst Hi) as (x & rx & H1 & _ & U1 & _).
    rewrite Hn in H1. injection H1 as <-. rewrite U1. cbn.
    destruct Hreg as [Q | Q]; [| pose proof (addr_facts (S lvl) i'); tauto].
    apply (addr_facts (S lvl) i') in Q. subst i'.
    destruct (decide (j ≤ lvl)%nat) as [Hle | Hgt].
    + left. exists lvl. split; [lia | by left].
    + right. assert (j = S lvl) as -> by lia. exact Tp.
  - injection Hl as <-. destruct (lookup_lt_is_Some_2 steps lvl Hi) as [st Hst].
    destruct (Sh _ st Hst Hi) as (x & rx & _ & _ & _ & _ & _ & H6 & _ & U6 & _).
    rewrite Hn in H6. injection H6 as <-. rewrite U6.
    destruct Hreg as [Q | Q]; [pose proof (addr_facts i' lvl); symmetry in Q; tauto |].
    apply (addr_facts lvl i') in Q. subst i'.
    left. exists lvl. split; [lia | by left].
Qed.

(** The marking of [set_dirty] stays below the S node the walk is in. *)
Lemma walk_confined lvl : ∀ fuel a s s' j,
  Shape (length steps) (length steps) s → on_chain a lvl → Reg j a → Top j s →
  set_dirty fuel a true s = Done s' → confined (Reg j) s s'.
Proof.
  induction lvl as [| lvl IH]; intros fuel a s s' j Sh Ha Hreg Tp H;
    destruct (chain_parent _ _ _ Sh Ha) as (nd & Hn & Hup);
    pose proof (marks_put_dirty s a nd Hn) as M1;
    assert (C1 : confined (Reg j) s
                   (put_node a (with_parent (marked_ptr.set_mark (parent nd) 1) nd) s))
      by (by apply (confined_put _ _ _ nd));
    destruct fuel as [| fuel]; cbn [set_dirty] in H;
    rewrite (proj2 (get_node_Done _ _ _) Hn) in H; cbn [mbind res_bind] in H;
    change (marked_ptr.of_bool true) with 1 in H;
    set (s1 := put_node a _ s) in *; rewrite to_bool_up in H.
  - rewrite Hup in H. cbn in H. by injection H as <-.
  - rewrite Hup in H. cbn in H. by injection H as <-.
  - destruct Hup as [Hne Hp]. apply Z.eqb_neq in Hne. rewrite Hne in H. cbn [negb] in H.
    apply res_bind_Done in H as (pn & Hpn & H).
    destruct (is_dirty pn); cbn in H; [by injection H as <- | discriminate].
  - destruct Hup as [Hne Hp]. apply Z.eqb_neq in Hne. rewrite Hne in H. cbn [negb] in H.
    apply res_bind_Done in H as (pn & Hpn & H). apply get_node_Done in Hpn.
    fold (up nd) in Hpn.
    destruct (is_dirty pn) eqn:Dp; cbn [negb] in H; [by injection H as <- |].
    assert (Sh1 : Shape (length steps) (length steps) s1).
    { eapply Shape_keeps; [| exact Sh]. by apply marks_keeps. }
    eapply confined_trans; [exact C1 |].
    apply (IH fuel (up nd) s1 s' j); try done.
    + destruct (parent_in_region _ _ _ _ _ Sh Ha Hreg Tp Hn) as [R | D]; [done |].
      exfalso. apply (dirty_at_marks _ _ _ M1) in D as (x & Hx & Dx).
      rewrite Hpn in Hx. injection Hx as <-. congruence.
    + by eapply Top_marks.
Qed.

Lemma set_modified_confined fuel i j s s' :
  Shape (length steps) (length steps) s → (j ≤ i < length steps)%nat → Top j s →
  set_modified fuel (R_addr i) s = Done s' → confined (Reg j) s s'.
Proof.
  intros Sh Hi Tp H. unfold set_modified in H.
  apply res_bind_Done in H as (nd & Hn & H). apply get_node_Done in Hn.
  assert (Hreg : Reg j (R_addr i)) by (exists i; split; [done | by right]).
  set (sp := record (EvNotify (R_addr i)) (put_node (R_addr i) (with_pending true nd) s))
    in *.
  assert (C1 : confined (Reg j) s sp).
  { apply (confined_put (Reg j) s (R_addr i) nd (with_pending true nd)); [done | done |].
    intros Q. by destruct (Q i). }
  eapply confined_trans; [exact C1 |].
  apply (walk_confined (S i) fuel (R_addr i) sp s' j); try done.
  - eapply Shape_keeps; [| exact Sh].
    apply (lowered_keeps s _ (R_addr i) nd (with_pending true nd)); [done | done |].
    by repeat split.
  - right. exists i. repeat split; lia.
  - destruct j as [| j']; [done |]. destruct Tp as (x & Hx & Dx).
    exists x. split; [| done]. cbn.
    rewrite lookup_insert_ne; [done |]. pose proof (addr_facts j' i). intros Q.
    symmetry in Q. tauto.
Qed.

Lemma for_each_set_modified_confined fuel j rs : ∀ s s',
  Shape (length steps) (length steps) s → Top j s →
  (∀ r, r ∈ rs → ∃ i, r = R_addr i ∧ (j ≤ i < length steps)%nat) →
  for_each (set_modified fuel) rs s = Done s' → confined (Reg j) s s'.
Proof.
  induction rs as [| r rs IH]; intros s s' Sh Tp Hrs H; cbn in H.
  - injection H as <-. apply confined_refl.
  - apply res_bind_Done in H as (s1 & H1 & H).
    destruct (Hrs r (list_elem_of_here _ _)) as (i & -> & Hi).
    destruct (set_modified_spec _ _ _ _ H1) as (R1 & _ & _).
    eapply confined_trans; [by eapply set_modified_confined |].
    apply IH; try done.
    + eapply Shape_keeps; [by apply raises_keeps | done].
    + by eapply Top_raises.
    + intros r' Hr'. apply Hrs. by apply list_elem_of_further.
Qed.

(** A write whose readers are all in the cells from [j] on *)
Lemma Mod_write_confined fuel j m v s s' md :
  Shape (length steps) (length steps) s → Top j s →
  mods s !! m = Some md → intact (readers md) →
  (∀ r, r ∈ elements (readers md) → ∃ i, r = R_addr i ∧ (j ≤ i < length steps)%nat) →
  Mod_write fuel m v s = Done s' → confined (Reg j) s s'.
Proof.
  intros Sh Tp Hm Hi Hel H. unfold Mod_write in H.
  apply res_bind_Done in H as (md0 & Hm0 & H). apply get_mod_Done in Hm0.
  rewrite Hm in Hm0. injection Hm0 as <-.
  destruct (negb (written md) || T_ne (value md) v);
    [| injection H as <-; apply confined_refl].
  apply res_bind_Done in H as (s1 & H1 & H).
  apply res_bind_Done in H as (md1 & Hm1 & H). injection H as <-.
  unfold notify_readers in H1.
  apply res_bind_Done in H1 as (md2 & Hm2 & H1). apply get_mod_Done in Hm2.
  cbn in Hm2. rewrite lookup_insert_eq in Hm2. injection Hm2 as <-.
  cbn [readers with_value] in H1. rewrite for_all_intact in H1 by done.
  assert (C : confined (Reg j)
                (put_mod m (with_readers (readers md) (with_value v md))
                   (put_mod m (with_value v md) s)) s1).
  { apply (for_each_set_modified_confined fuel j (elements (readers md)));
      [exact Sh | exact Tp | exact Hel | exact H1]. }
  intros c nd Hc. destruct (C c nd Hc) as (nd' & H' & E). by exists nd'.
Qed.


Lemma not_in_next_region j : ¬ Reg (S j) (S_addr j) ∧ ¬ Reg (S j) (R_addr j).
Proof.
  split; intros (i & Hi & [Q | Q]); unfold S_addr, R_addr in Q; lia.
Qed.

(** [RNode::propagate] on the reader of step [j], in the S node of its cell:
    the reader is clean afterwards, and nothing above it has changed. *)
Lemma R_step_clean fuel j s s' st :
  Inv j s → steps !! j = Some st → dirty_at s (S_addr j) →
  propagate fuel (R_addr j) s = Done s' →
  ¬ dirty_at s' (R_addr j) ∧ ¬ pending_at s' (R_addr j)
  ∧ confined (λ c, c = R_addr j ∨ Reg (S j) c) s s'.
Proof.
  intros I Hst Tp H. pose proof I as [Wf Pile Sh Su Ok Dn Rd].
  destruct (Sh j st Hst ltac:(by eapply lookup_lt_Some))
    as (nd & rnd & H1 & K1 & U1 & L1 & R1 & H6 & K6 & U6 & L6 & R6 & D6).
  assert (Lower : ∀ s0 s1 y y',
            nodes s0 !! R_addr j = Some y → nodes s1 = <[R_addr j := y']> (nodes s0) →
            is_dirty y' = false → pending_update y' = false →
            ¬ dirty_at s1 (R_addr j) ∧ ¬ pending_at s1 (R_addr j)
            ∧ confined (λ c, c = R_addr j ∨ Reg (S j) c) s0 s1).
  { intros s0 s1 y y' Hy En Dy Py.
    split; [| split].
    - intros (x & Hx & Dx). rewrite En, lookup_insert_eq in Hx. congruence.
    - intros (x & Hx & Px). rewrite En, lookup_insert_eq in Hx. congruence.
    - intros c x Hc. rewrite En. destruct (decide (c = R_addr j)) as [-> | Hne].
      + exists y'. rewrite lookup_insert_eq. split; [done |].
        split; [intros Q; exfalso; apply Q; by left | intros Q; by destruct (Q j)].
      + exists x. rewrite lookup_insert_ne by done. by repeat split. }
  destruct fuel as [| fuel]; [discriminate |]. cbn [propagate] in H.
  apply res_bind_Done in H as (x & Hx & H). apply get_node_Done in Hx.
  rewrite H6 in Hx. injection Hx as <-. rewrite K6 in H.
  destruct (pending_update rnd) eqn:Pr.
  - apply res_bind_Done in H as (sa & Hdet & H).
    apply res_bind_Done in H as (u1 & _ & H).
    apply res_bind_Done in H as (pn & _ & H).
    apply res_bind_Done in H as (u2 & _ & H).
    apply res_bind_Done in H as (sb & Hex & H).
    destruct Pile as [pile Hpile].
    destruct (detach_childless _ _ _ _ _ Wf H6 Hpile L6 R6 D6 Hdet)
      as (Ra & Ma & rnda & Ha & Ka & _).
    assert (Ia : Inv j sa).
    { eapply Inv_raised; eauto. by eapply grows_detach. }
    assert (Ca : confined (λ c, c = R_addr j ∨ Reg (S j) c) s sa).
    { rewrite (detach_spec _ _ _ _ Wf H6 Hpile) in Hdet. injection Hdet as <-.
      intros c x Hc. cbn [nodes]. destruct (decide (c = R_addr j)) as [-> | Hne].
      - eexists. rewrite lookup_insert_eq. split; [done |].
        split; [intros Q; exfalso; apply Q; by left | intros Q; by destruct (Q j)].
      - exists x. rewrite lookup_insert_ne by done.
        rewrite lookup_insert_ne; [by repeat split |].
        intros <-. destruct Wf as (Wn & _). specialize (Wn _ _ Hc). cbn in Wn. lia. }
    destruct Ka as (Kk & _).
    destruct (execute_chain_reader _ _ _ _ _ st Ha ltac:(congruence) Hex)
      as (f & vs & Hvs & Hw).
    pose proof Ia as [Wfa _ Sha Sua _ _ _].
    assert (Hm : is_Some (mods sa !! dst st)).
    { unfold Mod_write in Hw. apply res_bind_Done in Hw as (md & Hm & _).
      apply get_mod_Done in Hm. by exists md. }
    destruct Hm as [md Hm]. destruct (Sua _ _ Hm) as [Hi Hel].
    assert (Cb : confined (Reg (S j)) sa sb).
    { assert (C : confined (Reg (S j)) (record (EvExecute (R_addr j)) sa) sb).
      { apply (Mod_write_confined f (S j) (dst st) (fn st vs) _ sb md);
          [exact Sha | | exact Hm | exact Hi | | exact Hw].
        - apply (dirty_at_raises _ _ _ Ra Tp).
        - intros r Hr. apply Hel in Hr as (i & sti & Hsti & Hlt & -> & Hin).
          exists i. split; [done |].
          destruct (steps_forward i j sti st Hsti Hst) as [F _].
          destruct (decide (i ≤ j)%nat) as [Hle | Hgt]; [by destruct (F Hle) | lia]. }
      intros c x Hc. destruct (C c x Hc) as (x' & Hx' & E). by exists x'. }
    destruct (clear_pending_modification_spec _ _ _ _ H)
      as (y & y' & Hy & En & Mc & Ky & Dy & Py).
    destruct (Lower sb s' y y' Hy En Dy Py) as (N1 & N2 & Cc).
    split; [done |]. split; [done |].
    eapply confined_trans; [exact Ca |].
    eapply confined_trans; [| exact Cc].
    eapply confined_weaken; [| exact Cb]. intros c Hc. by right.
  - destruct (is_dirty rnd) eqn:Dr.
    + apply res_bind_Done in H as (x & Hx & H). apply get_node_Done in Hx.
      rewrite H6 in Hx. injection Hx as <-. rewrite L6 in H. cbn in H.
      apply res_bind_Done in H as (x & Hx & H). apply get_node_Done in Hx.
      rewrite H6 in Hx. injection Hx as <-. rewrite R6 in H. cbn in H.
      apply set_dirty_false_spec in H as (y & y' & Hy & En & Mc & Ky & Dy & Py).
      rewrite H6 in Hy. injection Hy as <-.
      apply (Lower s s' rnd y' H6 En Dy). congruence.
    + injection H as <-. split; [| split; [| apply confined_refl]].
      * intros (x & Hx & Dx). congruence.
      * intros (x & Hx & Px). congruence.
Qed.

(** [SNode::propagate] on the S node of step [j]: afterwards no node of the
    cells from [j] on is dirty and no reader there is pending, and nothing
    above them has changed. *)
Lemma propagate_chain_clean k : ∀ j fuel s s',
  (j < length steps ≤ j + k)%nat → Inv j s → Top j s →
  propagate fuel (S_addr j) s = Done s' →
  (∀ i, (j ≤ i < length steps)%nat →
     ¬ dirty_at s' (S_addr i) ∧ ¬ dirty_at s' (R_addr i) ∧ ¬ pending_at s' (R_addr i))
  ∧ confined (Reg j) s s'
  ∧ Shape (length steps) (length steps) s'.
Proof.
  induction k as [| k IH]; intros j fuel s s' Hj I Tp H; [lia |].
  destruct (lookup_lt_is_Some_2 steps j) as [st Hst]; [lia |].
  pose proof I as [Wf Pile Sh Su Ok Dn Rd].
  destruct (Sh j st Hst ltac:(lia)) as (nd & rnd & H1 & K1 & U1 & L1 & R1 & H6 & _).
  destruct fuel as [| fuel]; [discriminate |]. cbn [propagate] in H.
  apply res_bind_Done in H as (x & Hx & H). apply get_node_Done in Hx.
  rewrite H1 in Hx. injection Hx as <-. rewrite K1 in H.
  destruct (is_dirty nd) eqn:Dj.
  - apply res_bind_Done in H as (x & Hx & H). apply get_node_Done in Hx.
    rewrite H1 in Hx. injection Hx as <-. rewrite L1 in H.
    apply res_bind_Done in H as (s1 & Hr & H).
    assert (Dsj : dirty_at s (S_addr j)) by (by exists nd).
    destruct (R_step _ _ _ _ _ I Hst Hr) as [I1 _].
    destruct (R_step_clean _ _ _ _ _ I Hst Dsj Hr) as (N1 & N2 & C1).
    pose proof I1 as [Wf1 Pile1 Sh1 Su1 Ok1 Dn1 Rd1].
    destruct (not_in_next_region j) as [NS NR].
    assert (Tp1 : Top (S j) s1).
    { destruct (C1 _ _ H1) as (x & Hx & E & _). exists x. split; [done |].
      rewrite E; [done |]. intros [Q | Q]; [| done].
      pose proof (addr_facts j j). tauto. }
    destruct (Sh1 j st Hst ltac:(lia)) as (nd1 & rnd1 & G1 & _ & _ & _ & Q1 & G6 & _).
    apply res_bind_Done in H as (x & Hx & H). apply get_node_Done in Hx.
    rewrite G1 in Hx. injection Hx as <-. rewrite Q1 in H.
    apply res_bind_Done in H as (s2 & Hn & H).
    assert (Mid : (∀ i, (S j ≤ i < length steps)%nat →
                     ¬ dirty_at s2 (S_addr i) ∧ ¬ dirty_at s2 (R_addr i)
                     ∧ ¬ pending_at s2 (R_addr i))
                  ∧ confined (Reg (S j)) s1 s2
                  ∧ Shape (length steps) (length steps) s2).
    { destruct (decide (S j < length steps)%nat) as [Hlt | Hge].
      - apply (IH (S j) fuel s1 s2); [lia | done | done | done].
      - injection Hn as <-.
        split; [intros i Hi; lia | split; [apply confined_refl | done]]. }
    destruct Mid as (Cl2 & C2 & Sh2).
    destruct (C2 _ _ G6) as (r2 & Hr2 & Er2 & _). specialize (Er2 NR). subst r2.
    destruct (C2 _ _ G1) as (n2 & Hn2 & En2 & _). specialize (En2 NS). subst n2.
    apply set_dirty_false_spec in H as (y & y' & Hy & En & Mc & Ky & Dy & Py).
    rewrite Hn2 in Hy. injection Hy as <-.
    assert (Other : ∀ c, c ≠ S_addr j → nodes s' !! c = nodes s2 !! c).
    { intros c Hc. by rewrite En, lookup_insert_ne. }
    split; [| split].
    3: { eapply Shape_keeps; [| exact Sh2]. by eapply lowered_keeps. }
    + intros i Hi. destruct (decide (i = j)) as [-> | Hne].
      * pose proof (addr_facts j j) as (A & _).
        split; [| split].
        -- intros (x & Hx & Dx). rewrite En, lookup_insert_eq in Hx. congruence.
        -- intros (x & Hx & Dx). rewrite Other in Hx by done.
           apply N1. exists x. split; [congruence | done].
        -- intros (x & Hx & Px). rewrite Other in Hx by done.
           apply N2. exists x. split; [congruence | done].
      * destruct (Cl2 i ltac:(lia)) as (D1 & D2 & D3).
        pose proof (addr_facts j i) as (A1 & A2 & _).
        pose proof (addr_facts i j) as (A3 & A4 & _).
        assert (S_addr i ≠ S_addr j) by (intros Q; apply A4 in Q; lia).
        assert (R_addr i ≠ S_addr j) by (intros Q; symmetry in Q; tauto).
        split; [| split]; intros (x & Hx & Fx); rewrite Other in Hx by done;
          [apply D1 | apply D2 | apply D3]; by exists x.
    + eapply confined_trans;
        [eapply confined_weaken; [| exact C1] |
         eapply confined_trans; [eapply confined_weaken; [| exact C2] |]].
      * intros c [-> | (i & Hi & Q)]; [exists j; split; [lia | by right] |].
        exists i. split; [lia | done].
      * intros c (i & Hi & Q). exists i. split; [lia | done].
      * intros c x Hc. rewrite En. destruct (decide (c = S_addr j)) as [-> | Hne].
        -- rewrite Hn2 in Hc. injection Hc as <-. exists y'. rewrite lookup_insert_eq.
           split; [done |]. split; [| done].
           intros Q. exfalso. apply Q. exists j. split; [lia | by left].
        -- exists x. rewrite lookup_insert_ne by done. by repeat split.
  - injection H as <-. split; [| split; [apply confined_refl | done]].
    assert (Nd : ¬ dirty_at s (S_addr j)).
    { intros (x & Hx & Dx). congruence. }
    intros i Hi. destruct (clean_below j s I Nd i Hi) as [D1 D3].
    split; [done |]. split; [| done].
    intros (x & Hx & Dx).
    destruct (lookup_lt_is_Some_2 steps i) as [sti Hsti]; [lia |].
    destruct (Sh i sti Hsti ltac:(lia)) as (y & ry & _ & _ & _ & _ & _ & Y6 & _ & V6 & _).
    rewrite Y6 in Hx. injection Hx as <-.
    destruct (Ok i Hi) as [_ [C _]].
    destruct (C _ Y6 Dx) as [Z | Y]; rewrite V6 in *.
    + pose proof (addr_facts i 0). lia.
    + done.
Qed.


Lemma outside_writes_confined fuel W : ∀ s s',
  Inv 0 s → (∀ w, w ∈ W → w.1 ∉ dst <$> steps) →
  apply_writes fuel W s = Done s' → confined (Reg 0) s s'.
Proof.
  induction W as [| [m v] W IH]; intros s s' I HW H; cbn in H.
  - injection H as <-. apply confined_refl.
  - apply res_bind_Done in H as (s1 & H1 & H). cbn in H1.
    destruct (Inv_outside_write _ _ _ _ _ I (HW (m, v) (list_elem_of_here _ _)) H1)
      as [I1 _].
    pose proof I as [Wf Pile Sh Su Ok Dn Rd].
    assert (Hm : is_Some (mods s !! m)).
    { unfold Mod_write in H1. apply res_bind_Done in H1 as (md & Hm & _).
      apply get_mod_Done in Hm. by exists md. }
    destruct Hm as [md Hm]. destruct (Su _ _ Hm) as [Hi Hel].
    eapply confined_trans.
    + apply (Mod_write_confined fuel 0 m v s s1 md); try done.
      intros r Hr. apply Hel in Hr as (i & sti & Hsti & Hlt & -> & _).
      exists i. split; [done | lia].
    + apply IH; [done | | done]. intros w Hw. apply HW. by apply list_elem_of_further.
Qed.

(** A chain without flags is a quiet tree. *)
Lemma quiet_chain s :
  Shape (length steps) (length steps) s →
  (∀ i, (i < length steps)%nat →
     ¬ dirty_at s (S_addr i) ∧ ¬ pending_at s (S_addr i)
     ∧ ¬ dirty_at s (R_addr i) ∧ ¬ pending_at s (R_addr i)) →
  ∀ k i, (i < length steps ≤ i + k)%nat → quiet s (Some (S_addr i)).
Proof.
  intros Sh Cl. induction k as [| k IH]; intros i Hi; [lia |].
  destruct (lookup_lt_is_Some_2 steps i) as [st Hst]; [lia |].
  destruct (Sh i st Hst ltac:(lia))
    as (nd & rnd & H1 & K1 & U1 & L1 & R1 & H6 & K6 & U6 & L6 & R6 & D6).
  destruct (Cl i ltac:(lia)) as (C1 & C2 & C3 & C4).
  assert (F : ∀ a x (f : SPNode → bool),
            nodes s !! a = Some x → ¬ (∃ y, nodes s !! a = Some y ∧ f y = true) →
            f x = false).
  { intros a x f Hx N. destruct (f x) eqn:E; [| done]. exfalso. apply N. eauto. }
  apply (quiet_cons _ _ nd H1); [by apply (F _ _ is_dirty H1) |
                                  by apply (F _ _ pending_update H1) | |].
  - rewrite L1. apply (quiet_cons _ _ rnd H6);
      [by apply (F _ _ is_dirty H6) | by apply (F _ _ pending_update H6) | |].
    + rewrite L6. apply quiet_nil.
    + rewrite R6. apply quiet_nil.
  - rewrite R1. destruct (decide (S i < length steps)%nat); [| apply quiet_nil].
    apply IH. lia.
Qed.

End chains.

Lemma Subs_0_fresh steps b s : Subs steps b 0 s → fresh_mods s.
Proof.
  intros Su m md Hm. destruct (Su m md Hm) as [Hi Iff].
  assert (E : elements (readers md) = []).
  { apply nil_of_no_elem. intros r Hr. apply Iff in Hr as (i & _ & _ & Hi' & _). lia. }
  destruct (readers md) as [| item | l]; [done | discriminate |].
  destruct Hi as [Hne _]. by destruct l.
Qed.


(** The propagation of a chain leaves a clean trace, although re-executed
    readers write modifiables that later readers read: when the initial
    run, the writes from outside and the propagation have returned, no node
    of the trace tree has its dirty bit or its pending flag set. *)
Theorem propagation_of_a_chain_leaves_a_clean_trace
    (f1 f2 f3 : nat) (steps : list step) (W : list (Z * T))
    (s0 s1 s2 s3 : state) (root : Z) :
  (∀ x y, T_ne x y = false → x = y) →
  heap_wf s0 → 0 < brk s0 → is_Some (garbage s0 !! worker_id) →
  fresh_mods s0 →
  forward steps →
  (∀ w, w ∈ W → w.1 ∉ dst <$> steps) →
  run f1 (chain steps) s0 = Done (root, s1) →
  apply_writes f2 W s1 = Done s2 →
  update f3 (Some root) s2 = Done s3 →
  quiet s3 (Some root).
Proof.
  intros Sound Wf Hb Pile Fresh Fwd HW Hrun HW1 Hup.
  set (b := brk s0) in *.
  destruct (run_chain steps b Sound Hb Fwd (vals s0) f1 s0 root s1 Wf eq_refl Fresh
              (λ m _, eq_refl) Hrun) as [-> B1].
  unfold update in Hup. cbn [deref mbind res_bind] in Hup.
  destruct (decide (0 < length steps)%nat) as [Hn | Hz].
  - assert (Eb : bool_decide (length steps = 0%nat) = false)
      by (apply bool_decide_eq_false; lia).
    rewrite Eb in B1.
    destruct (grows_run _ _ _ _ _ Hrun Wf) as [Wf1 E1].
    pose proof (pile_ext _ _ E1 Pile) as Pile1.
    pose proof (BuildInv_Inv steps b _ s1 Hn Pile1 B1) as I1.
    destruct (Inv_outside_writes steps b Sound f2 W s1 s2 I1 HW HW1) as [I2 _].
    pose proof (outside_writes_confined steps b Sound Hb f2 W s1 s2 I1 HW HW1) as C12.
    replace b with (S_addr b 0) in Hup by (unfold S_addr; lia).
    destruct (propagate_chain_clean steps b Sound Hb Fwd (length steps) 0 f3 s2 s3
                ltac:(lia) I2 I Hup) as (Cl & C23 & Sh3).
    pose proof (confined_trans b _ _ _ _ C12 C23) as C13.
    replace b with (S_addr b 0) by (unfold S_addr; lia).
    apply (quiet_chain steps b s3 Sh3) with (k := length steps); [| lia].
    intros i Hi. destruct (Cl i ltac:(lia)) as (D1 & D2 & D3).
    split; [done |]. split; [| by split].
    intros (x & Hx & Px).
    destruct (lookup_lt_is_Some_2 steps i Hi) as [st Hst].
    destruct (B_shape _ _ _ _ _ _ B1 i st Hst Hi) as (nd & rnd & H1 & _).
    destruct (C13 _ _ H1) as (nd' & H1' & _ & Pe).
    rewrite H1' in Hx. injection Hx as <-.
    rewrite Pe in Px by (intros i'; unfold S_addr, R_addr; lia).
    destruct (B_clean _ _ _ _ _ _ B1 i Hi) as [C1 _].
    destruct (C1 _ H1). congruence.
  - assert (Es : steps = []) by (destruct steps; [done | cbn in Hz; lia]).
    rewrite Es in *. cbn in B1.
    destruct (B_top _ _ _ _ _ _ B1 eq_refl) as (nd & Hn & Kn & _ & Ln & Rn & Dn & Pn).
    pose proof (Subs_0_fresh _ _ _ (B_subs _ _ _ _ _ _ B1)) as Fresh1.
    destruct (apply_writes_fresh Sound f2 W s1 s2 Fresh1 HW1) as (_ & N2 & _ & _).
    replace (S_addr b 0) with b in Hn by (unfold S_addr; lia).
    destruct f3 as [| f3]; [discriminate |]. cbn [propagate] in Hup.
    unfold get_node in Hup. rewrite N2, Hn in Hup. cbn [mbind res_bind] in Hup.
    rewrite Kn, Dn in Hup. injection Hup as <-.
    rewrite <- N2 in Hn.
    apply (quiet_cons _ _ nd Hn Dn Pn); [rewrite Ln | rewrite Rn]; apply quiet_nil.
Qed.

End psac.

(** ** Concrete runs

    The value type is [int], with its own [!=]; one worker, two piles;
    user-declared modifiables live below the first address the allocator
    hands out. *)

Definition int_ne (a b : Z) : bool := negb (a =? b).

Abbreviation int_state := (@state Z).
Abbreviation int_prog := (@prog Z).

Definition fresh_state (user_mods : list Z) : int_state :=
  {| nodes := ∅;
     mods := list_to_map ((λ m, (m, Mod_new (0 : Z))) <$> user_mods);
     garbage := [[]; []];
     brk := 4096;
     history := [] |}.

Definition the_state (r : res (Z * int_state)) : int_state :=
  match r with
  | Done (_, s) => s
  | _ => fresh_state []
  end.

Definition the_root (r : res (Z * int_state)) : Z :=
  match r with
  | Done (root, _) => root
  | _ => 0
  end.

#[global] Instance heap_wf_dec (s : int_state) : Decision (heap_wf s).
Proof. unfold heap_wf. apply _. Defined.

(** [test_prop] of tests/test_propagate.cpp *)
Definition test_prop (i o : Z) : int_prog :=
  Read [i] (λ vs, match vs with [x] => Write o (x + 1) Ret | _ => Ret end) Ret.

(** [TestSingle]: write 5, run, write 6. *)
Definition single_written : res (Z * int_state) :=
  s ← Mod_write int_ne 8 8 5 (fresh_state [8; 16]);
  Done (0, s).
Definition single_ran : res (Z * int_state) :=
  run int_ne 0 0 8 (test_prop 8 16) (the_state single_written).
Definition single_changed : res (Z * int_state) :=
  s ← apply_writes int_ne 8 [(8, 6)] (the_state single_ran);
  Done (the_root single_ran, s).
Definition single_propagated : res (Z * int_state) :=
  s ← update int_ne 0 0 8 (Some (the_root single_ran)) (the_state single_changed);
  Done (the_root single_ran, s).
Definition single_collected : res (Z * int_state) :=
  s ← GarbageCollector_run 8 (the_state single_propagated);
  Done (the_root single_ran, s).

Example TestSingle :
  value <$> mods (the_state single_ran) !! 16 = Some 6
  ∧ value <$> mods (the_state single_propagated) !! 16 = Some 7.
Proof. split; vm_compute; reflexivity. Qed.


Lemma propagate_twice_witness :
  update int_ne 0 0 1 (Some (the_root single_ran)) (the_state single_propagated)
  = Done (the_state single_propagated).
Proof.
  apply (propagate_twice_is_propagate_once int_ne 0 0 8 8 8 0
           (test_prop 8 16) [(8, 6)] (the_state single_written)
           (the_root single_ran) (the_state single_ran) (the_state single_changed)
           (the_state single_propagated)).
  - apply (bool_decide_unpack _). vm_compute. reflexivity.
  - vm_compute. reflexivity.
  - vm_compute. reflexivity.
  - vm_compute. reflexivity.
Defined.

Definition the_node (s : int_state) (n : Z) : SPNode :=
  default {| kind := SNode; dynamic_mods := []; parent := 0; nleft := None;
             nright := None; pending_update := false |} (nodes s !! n).


(** The reader of [TestSingle], pending after the write, propagated alone *)
Definition single_reexecuted : res (Z * int_state) :=
  s ← propagate int_ne 0 0 8 4104 (the_state single_changed);
  Done (the_root single_ran, s).



(** A reader of [b] followed by a reader of [a] that writes [b]: the second
    closure writes a modifiable that the first one, already propagated, reads.
    The initial run and a first propagation bring the trace to rest; then [a]
    is written and the computation is propagated again. *)
Definition backward_write : int_prog :=
  Read [16] (λ vs, match vs with [x] => Write 24 x Ret | _ => Ret end)
    (Read [8] (λ vs, match vs with [x] => Write 16 x Ret | _ => Ret end) Ret).

Definition backward_ran : res (Z * int_state) :=
  s ← apply_writes int_ne 8 [(8, 1); (16, 5)] (fresh_state [8; 16; 24]);
  '(root, s) ← run int_ne 0 0 8 backward_write s;
  s ← update int_ne 0 0 8 (Some root) s;
  Done (root, s).
Definition backward_propagated : res (Z * int_state) :=
  s ← apply_writes int_ne 8 [(8, 7)] (the_state backward_ran);
  s ← update int_ne 0 0 8 (Some (the_root backward_ran)) s;
  Done (the_root backward_ran, s).


(** Two readers that write the same modifiable [c]. *)
Definition two_writers : int_prog :=
  Read [8] (λ vs, match vs with [x] => Write 24 x Ret | _ => Ret end)
    (Read [16] (λ vs, match vs with [x] => Write 24 (x + 1) Ret | _ => Ret end) Ret).

Definition two_writers_inputs : res int_state :=
  apply_writes int_ne 8 [(8, 1); (16, 5)] (fresh_state [8; 16; 24]).

(** [run; apply W; propagate] *)
Definition two_writers_propagated : res (Z * int_state) :=
  s ← two_writers_inputs;
  '(root, s) ← run int_ne 0 0 8 two_writers s;
  s ← apply_writes int_ne 8 [(8, 2)] s;
  s ← update int_ne 0 0 8 (Some root) s;
  Done (root, s).

(** [apply W; run] *)
Definition two_writers_from_scratch : res (Z * int_state) :=
  s ← two_writers_inputs;
  s ← apply_writes int_ne 8 [(8, 2)] s;
  run int_ne 0 0 8 two_writers s.


(** A dynamic context that reads [m] once when the selector is 0 and twice
    otherwise. *)
Definition reads_twice : int_prog :=
  DynamicContext
    (DynamicContextRead 16 (λ sel,
       DynamicContextRead 8 (λ _,
         if sel =? 0 then Ret else DynamicContextRead 8 (λ _, Ret))))
    Ret.

Definition reads_twice_ran : res (Z * int_state) :=
  s ← apply_writes int_ne 8 [(8, 5); (16, 0)] (fresh_state [8; 16]);
  run int_ne 0 0 8 reads_twice s.
Definition reads_twice_changed : res (Z * int_state) :=
  s ← apply_writes int_ne 8 [(16, 1)] (the_state reads_twice_ran);
  Done (the_root reads_twice_ran, s).
Definition reads_twice_propagated : res (Z * int_state) :=
  s ← update int_ne 0 0 8 (Some (the_root reads_twice_ran)) (the_state reads_twice_changed);
  Done (the_root reads_twice_ran, s).
Definition reads_twice_destroyed : res (Z * int_state) :=
  s ← GarbageCollector_run 8 (the_state reads_twice_propagated);
  s ← Computation_destroy 8 (Some (the_root reads_twice_ran)) s;
  Done (the_root reads_twice_ran, s).

(** C6, evaluated on the code.  The modifiable 8 is read in the old run and
    in the new run of the scope reader 4104, and the re-execution issues
    [add_reader] for it all the same, because the new run reads it twice.
    The reader is then registered twice; when the whole trace has been
    destroyed both [remove_reader] calls have marked the same list node, and
    the reader set of 8 still holds the destroyed reader. *)
Theorem duplicate_dynamic_read_subscribes_again :
  drop (length (history (the_state reads_twice_changed)))
       (history (the_state reads_twice_propagated))
  = [EvExecute 4104; EvAddReader 8 4104]
  ∧ kind (the_node (the_state reads_twice_ran) 4104)
    = RScopeNode (match reads_twice with DynamicContext b _ => b | _ => Ret end) [8; 16]
  ∧ nodes (the_state reads_twice_destroyed) = ∅
  ∧ readers <$> mods (the_state reads_twice_destroyed) !! 8
    = Some (CRS.Linked [{| CRS.value := 4104; CRS.deleted := true |};
                        {| CRS.value := 4104; CRS.deleted := false |}]).
Proof. repeat split; vm_compute; reflexivity. Qed.

(** ** The tree reader set of [reader_set.hpp] *)

Module TRS := TreeReaderSet.

(** The unmarked readers of a tree, in order. *)
Fixpoint live (node : TRS.Node) : list Z :=
  match node with
  | TRS.Null => []
  | TRS.Nd _ x l r _ d => live l ++ (if d then [] else [x]) ++ live r
  end.

(** The tree as [compute_tree_size] leaves it. *)
Fixpoint sized (node : TRS.Node) : TRS.Node :=
  match node with
  | TRS.Null => TRS.Null
  | TRS.Nd k x l r _ d =>
      TRS.Nd k x (sized l) (sized r)
        (TRS.alive_of d + length (live l) + length (live r)) d
  end.

Fixpoint no_deleted (node : TRS.Node) : Prop :=
  match node with
  | TRS.Null => True
  | TRS.Nd _ _ l r _ d => d = false ∧ no_deleted l ∧ no_deleted r
  end.

(** Size balance: at every node the left subtree has as many nodes as the
    right one, or one more. *)
Fixpoint balanced (node : TRS.Node) : Prop :=
  match node with
  | TRS.Null => True
  | TRS.Nd _ _ l r _ _ =>
      (TRS._size r ≤ TRS._size l ≤ TRS._size r + 1)%nat ∧ balanced l ∧ balanced r
  end.

Definition readers_of (rs : TRS.t) : list Z :=
  match rs with
  | TRS.Empty => []
  | TRS.Single item => [item]
  | TRS.Tree root => live root
  end.

Definition is_reader_ptr (v : Z) : Prop := v ≠ 0 ∧ Z.odd v = false.

Definition reader_set_wf (rs : TRS.t) : Prop :=
  match rs with
  | TRS.Empty => True
  | TRS.Single item => is_reader_ptr item
  | TRS.Tree root => root ≠ TRS.Null ∧ Forall is_reader_ptr (live root)
  end.

Definition flatten_opt (node : TRS.Node) (b : TRS.buffer) (offset : nat) : res TRS.buffer :=
  match node with
  | TRS.Null => Done b
  | _ => TRS.flatten node b offset
  end.

Lemma live_sized node : live (sized node) = live node.
Proof. induction node as [| k x l IHl r IHr sz d]; cbn; [done |]. by rewrite IHl, IHr. Qed.

Lemma size_of_sized node : TRS.size_of (sized node) = length (live node).
Proof.
  destruct node as [| k x l r sz d]; cbn; [done |].
  rewrite !length_app. destruct d; cbn; lia.
Qed.

Lemma _size_sized node : TRS._size (sized node) = TRS._size node.
Proof. induction node as [| k x l IHl r IHr sz d]; cbn; [done |]. by rewrite IHl, IHr. Qed.

Lemma balanced_sized node : balanced node → balanced (sized node).
Proof.
  induction node as [| k x l IHl r IHr sz d]; cbn; [done |].
  rewrite !_size_sized. intuition lia.
Qed.

Lemma no_deleted_sized node : no_deleted node → no_deleted (sized node).
Proof. induction node as [| k x l IHl r IHr sz d]; cbn; intuition. Qed.

Lemma no_deleted_live_length node :
  no_deleted node → length (live node) = TRS._size node.
Proof.
  induction node as [| k x l IHl r IHr sz d]; cbn; [done |].
  intros (-> & Hl & Hr). rewrite !length_app, IHl, IHr by done. cbn. lia.
Qed.

Lemma sized_not_Null node : node ≠ TRS.Null → sized node ≠ TRS.Null.
Proof. by destruct node. Qed.

Lemma compute_tree_size_eq node :
  TRS.compute_tree_size node
  = match node with
    | TRS.Null => Fault
    | TRS.Nd k x l r _ d =>
        let alive := TRS.alive_of d in
        match l, r with
        | TRS.Null, TRS.Null => Done (alive, TRS.Nd k x TRS.Null TRS.Null alive d)
        | TRS.Null, _ =>
            '(right_size, r) ← TRS.compute_tree_size r;
            Done ((alive + right_size)%nat, TRS.Nd k x TRS.Null r (alive + right_size) d)
        | _, TRS.Null =>
            '(left_size, l) ← TRS.compute_tree_size l;
            Done ((alive + left_size)%nat, TRS.Nd k x l TRS.Null (alive + left_size) d)
        | _, _ =>
            '(left_size, l) ← TRS.compute_tree_size l;
            '(right_size, r) ← TRS.compute_tree_size r;
            Done ((alive + left_size + right_size)%nat,
                  TRS.Nd k x l r (alive + left_size + right_size) d)
        end
    end.
Proof. destruct node; reflexivity. Qed.

Lemma compute_tree_size_spec node :
  node ≠ TRS.Null →
  TRS.compute_tree_size node = Done (length (live node), sized node).
Proof.
  induction node as [| k x l IHl r IHr sz d]; [done |]. intros _.
  rewrite compute_tree_size_eq.
  assert (E : length (live (TRS.Nd k x l r sz d))
              = (TRS.alive_of d + length (live l) + length (live r))%nat).
  { cbn. rewrite !length_app. destruct d; cbn; lia. }
  rewrite E. clear E.
  destruct l as [| kl xl ll rl szl dl], r as [| kr xr lr rr szr dr]; cbv beta iota zeta.
  - cbn. by rewrite !Nat.add_0_r.
  - rewrite IHr by done. cbn [mbind res_bind live length sized].
    by rewrite !Nat.add_0_r.
  - rewrite IHl by done. cbn [mbind res_bind live length sized].
    by rewrite !Nat.add_0_r.
  - rewrite IHl, IHr by done. reflexivity.
Qed.

Lemma res_bind_ret {A} (m : res A) : (x ← m; Done x) = m.
Proof. by destruct m. Qed.

Lemma flatten_unfold node b offset :
  TRS.flatten node b offset
  = match node with
    | TRS.Null => Fault
    | TRS.Nd k x l r _ d =>
        let alive := TRS.alive_of d in
        let left_offset := TRS.size_of l in
        b ← (if d then Done b else TRS.store (offset + left_offset) x b);
        match l, r with
        | TRS.Null, TRS.Null => Done b
        | _, TRS.Null => TRS.flatten l b offset
        | TRS.Null, _ => TRS.flatten r b (offset + left_offset + alive)
        | _, _ =>
            b ← TRS.flatten l b offset;
            TRS.flatten r b (offset + left_offset + alive)
        end
    end.
Proof. destruct node; reflexivity. Qed.

Lemma flatten_eq node b offset :
  TRS.flatten node b offset
  = match node with
    | TRS.Null => Fault
    | TRS.Nd k x l r _ d =>
        b ← (if d then Done b else TRS.store (offset + TRS.size_of l) x b);
        b ← flatten_opt l b offset;
        flatten_opt r b (offset + TRS.size_of l + TRS.alive_of d)
    end.
Proof.
  rewrite flatten_unfold. destruct node as [| k x l r sz d]; [done |].
  cbv zeta. unfold flatten_opt.
  destruct (if d then Done b else TRS.store (offset + TRS.size_of l) x b) as [b' | |];
    [| done | done].
  cbn [mbind res_bind].
  destruct l, r; cbn [mbind res_bind]; try reflexivity.
  by rewrite res_bind_ret.
Qed.

Lemma store_middle (pre : TRS.buffer) y post v :
  TRS.store (length pre) v (pre ++ y :: post) = Done (pre ++ Some v :: post).
Proof.
  unfold TRS.store. rewrite length_app. cbn [length].
  destruct (decide _) as [_ | ?]; [| lia].
  f_equal. rewrite insert_app_r_alt by lia.
  by rewrite Nat.sub_diag.
Qed.

(** [flatten] fills the window of the buffer that starts at [offset] with
    the unmarked readers of the tree, in order, and touches nothing else. *)
Lemma flatten_opt_spec node :
  ∀ (pre mid post : TRS.buffer),
    length mid = length (live node) →
    flatten_opt (sized node) (pre ++ mid ++ post) (length pre)
    = Done (pre ++ (Some <$> live node) ++ post).
Proof.
  induction node as [| k x l IHl r IHr sz d]; intros pre mid post Hlen.
  - destruct mid; [done | discriminate].
  - change (flatten_opt (sized (TRS.Nd k x l r sz d)))
      with (TRS.flatten (sized (TRS.Nd k x l r sz d))).
    rewrite flatten_eq. cbn [sized live]. cbn [live] in Hlen.
    rewrite !length_app in Hlen. rewrite size_of_sized.
    set (n1 := length (live l)) in *.
    set (a := if d then [] else [x]) in *.
    assert (Hmid : mid = take n1 mid ++ take (length a) (drop n1 mid)
                         ++ drop (length a) (drop n1 mid)).
    { by rewrite !take_drop. }
    set (m1 := take n1 mid) in *.
    set (m2 := take (length a) (drop n1 mid)) in *.
    set (m3 := drop (length a) (drop n1 mid)) in *.
    assert (L1 : length m1 = n1) by (subst m1; rewrite length_take; lia).
    assert (L2 : length m2 = length a)
      by (subst m2; rewrite length_take, length_drop; lia).
    assert (L3 : length m3 = length (live r))
      by (subst m3; rewrite !length_drop; lia).
    rewrite Hmid. clear Hmid.
    assert (S1 : (if d then Done (pre ++ (m1 ++ m2 ++ m3) ++ post)
                  else TRS.store (length pre + n1) x (pre ++ (m1 ++ m2 ++ m3) ++ post))
                 = Done (pre ++ m1 ++ (Some <$> a) ++ m3 ++ post)).
    { subst a. destruct d.
      - destruct m2; [| discriminate]. by rewrite <- !app_assoc.
      - destruct m2 as [| y [| ? ?]]; try discriminate.
        replace (length pre + n1)%nat with (length (pre ++ m1))
          by (rewrite length_app; lia).
        replace (pre ++ (m1 ++ [y] ++ m3) ++ post)
          with ((pre ++ m1) ++ y :: (m3 ++ post))
          by (by rewrite <- !app_assoc).
        rewrite store_middle. by rewrite <- !app_assoc. }
    rewrite S1. cbn [mbind res_bind].
    rewrite (IHl pre m1 ((Some <$> a) ++ m3 ++ post)) by done.
    cbn [mbind res_bind].
    replace (length pre + n1 + TRS.alive_of d)%nat
      with (length (pre ++ (Some <$> live l) ++ (Some <$> a))).
    2:{ rewrite !length_app, !length_fmap. subst a n1. destruct d; cbn; lia. }
    replace (pre ++ (Some <$> live l) ++ (Some <$> a) ++ m3 ++ post)
      with ((pre ++ (Some <$> live l) ++ (Some <$> a)) ++ m3 ++ post)
      by (by rewrite <- !app_assoc).
    rewrite (IHr _ m3 post) by done.
    by rewrite !fmap_app, <- !app_assoc.
Qed.

Lemma read_all_spec (vs : list Z) :
  Forall is_reader_ptr vs → TRS.read_all (Some <$> vs) = Done vs.
Proof.
  induction 1 as [| v vs [Hv _] _ IH]; [done |].
  cbn [fmap list_fmap TRS.read_all]. change (list_fmap _ _ Some vs) with (Some <$> vs).
  rewrite IH. apply Z.eqb_neq in Hv. by rewrite Hv.
Qed.

Lemma load_fmap_Some (vs : list Z) i v :
  vs !! i = Some v → TRS.load i (Some <$> vs) = Done v.
Proof. intros H. unfold TRS.load. by rewrite list_lookup_fmap, H. Qed.

Lemma take_add_drop {A} (a b : nat) (l : list A) :
  take (a + b) l = take a l ++ take b (drop a l).
Proof.
  revert l. induction a as [| a IH]; intros [| x l]; cbn; try done.
  - by rewrite take_nil.
  - by rewrite IH.
Qed.

(** The window [i, j) of a list splits at any index [m] inside it. *)
Lemma window_split {A} (l : list A) (i m j : nat) x :
  (i ≤ m < j)%nat → l !! m = Some x →
  take (j - i) (drop i l)
  = take (m - i) (drop i l) ++ x :: take (j - (m + 1)) (drop (m + 1) l).
Proof.
  intros Hm Hx.
  replace (j - i)%nat with ((m - i) + S (j - (m + 1)))%nat by lia.
  rewrite take_add_drop, drop_drop.
  replace (i + (m - i))%nat with m by lia.
  rewrite (drop_S _ _ _ Hx). cbn [take].
  by replace (m + 1)%nat with (S m) by lia.
Qed.

(** [build_tree] on a filled buffer: the tree holds the window [i, j) in
    order, none of its nodes is marked, and it is size balanced. *)
Lemma build_tree_spec (vs : list Z) (fuel : nat) :
  ∀ i j, (j ≤ length vs)%nat → (j - i ≤ fuel)%nat →
    ∃ node, TRS.build_tree fuel (Some <$> vs) i j = Done node
            ∧ live node = take (j - i) (drop i vs)
            ∧ TRS._size node = (j - i)%nat
            ∧ no_deleted node ∧ balanced node.
Proof.
  induction fuel as [| fuel IH]; intros i j Hj Hfuel.
  - exists TRS.Null. cbn. destruct (Nat.leb_spec j i); [| lia].
    replace (j - i)%nat with 0%nat by lia. done.
  - cbn [TRS.build_tree]. destruct (Nat.leb_spec j i) as [Hle | Hlt].
    { exists TRS.Null. replace (j - i)%nat with 0%nat by lia. done. }
    destruct (Nat.eqb_spec i (j - 1)) as [-> | Hne].
    + destruct (lookup_lt_is_Some_2 vs (j - 1)) as [v Hv]; [lia |].
      rewrite (load_fmap_Some _ _ _ Hv). cbn [mbind res_bind].
      exists (TRS.new_Node v). split; [done |].
      replace (j - (j - 1))%nat with 1%nat by lia.
      rewrite (drop_S _ _ _ Hv). cbn. repeat split; lia.
    + set (mid := (i + (j - i) / 2)%nat).
      assert (Hhalf : (2 * ((j - i) / 2) ≤ j - i < 2 * ((j - i) / 2) + 2)%nat).
      { pose proof (Nat.div_mod_eq (j - i) 2) as E.
        pose proof (Nat.mod_upper_bound (j - i) 2). lia. }
      assert (Hmid : (i < mid < j)%nat) by (subst mid; lia).
      destruct (lookup_lt_is_Some_2 vs mid) as [v Hv]; [lia |].
      rewrite (load_fmap_Some _ _ _ Hv). cbn [mbind res_bind].
      destruct (IH i mid) as (l & -> & Ll & Sl & Dl & Bl); [lia | lia |].
      destruct (IH (mid + 1)%nat j) as (r & -> & Lr & Sr & Dr & Br); [lia | lia |].
      cbn [mbind res_bind]. eexists. split; [reflexivity |].
      cbn [live TRS._size no_deleted balanced].
      rewrite Ll, Lr, Sl, Sr. repeat split; try done; try (subst mid; lia).
      symmetry. apply window_split; [lia | done].
Qed.

Lemma build_tree_not_Null (vs : list Z) fuel i j node :
  TRS.build_tree fuel (Some <$> vs) i j = Done node →
  (i < j)%nat → node ≠ TRS.Null.
Proof.
  destruct fuel as [| fuel]; cbn [TRS.build_tree];
    destruct (Nat.leb_spec j i) as [? | _]; try lia; [done |].
  intros H _. destruct (i =? j - 1)%nat.
  - destruct (TRS.load _ _); [| done | done]. by injection H as <-.
  - destruct (TRS.load _ _); [| done | done]. cbn [mbind res_bind] in H.
    destruct (TRS.build_tree fuel _ i _); [| done | done]. cbn [mbind res_bind] in H.
    destruct (TRS.build_tree fuel _ _ j); [| done | done]. by injection H as <-.
Qed.

Lemma live_insert_tree_loop v key_ node :
  live (TRS.insert_tree_loop (TRS.new_Node v) key_ node) ≡ₚ v :: live node.
Proof.
  induction node as [| k x l IHl r IHr sz d]; [done |].
  cbn [TRS.insert_tree_loop]. destruct (key_ <=? k); cbn [live].
  - by rewrite IHl.
  - rewrite IHr. by rewrite !Permutation_middle.
Qed.

Lemma insert_tree_spec v root :
  is_reader_ptr v → root ≠ TRS.Null →
  ∃ root', TRS.insert_tree v root = Done root'
           ∧ root' ≠ TRS.Null ∧ live root' ≡ₚ v :: live root.
Proof.
  intros [Hv _] Hroot. unfold TRS.insert_tree.
  apply Z.eqb_neq in Hv. rewrite Hv. cbn [negb cassert mbind res_bind].
  destruct root as [| k x l r sz d]; [done |].
  eexists. split; [reflexivity |]. split; [| apply live_insert_tree_loop].
  cbn. by destruct (_ <=? _).
Qed.

Lemma flatten_fresh_buffer root :
  root ≠ TRS.Null →
  TRS.flatten (sized root) (replicate (length (live root)) None) 0
  = Done (Some <$> live root).
Proof.
  intros Hroot.
  pose proof (flatten_opt_spec root [] (replicate (length (live root)) None) []) as H.
  rewrite !app_nil_r in H. cbn [app length] in H.
  rewrite <- H by apply length_replicate. by destruct root.
Qed.

Lemma for_all_tree_spec fuel root :
  root ≠ TRS.Null → Forall is_reader_ptr (live root) →
  (length (live root) ≤ fuel)%nat →
  ∃ rs2, TRS.for_all fuel (TRS.Tree root) = Done (live root, rs2)
         ∧ reader_set_wf rs2 ∧ readers_of rs2 = live root
         ∧ match live root with
           | [] => rs2 = TRS.Empty
           | [x] => rs2 = TRS.Single x ∧ TRS.tag_bit rs2 = false
           | _ => ∃ root', rs2 = TRS.Tree root' ∧ TRS.tag_bit rs2 = true
                           ∧ no_deleted root' ∧ balanced root'
           end.
Proof.
  intros Hroot Hptr Hfuel. unfold TRS.for_all.
  rewrite compute_tree_size_spec by done. cbn [mbind res_bind].
  rewrite flatten_fresh_buffer by done. cbn [mbind res_bind].
  rewrite read_all_spec by done. cbn [mbind res_bind].
  destruct (live root) as [| x [| y vs]] eqn:Hlive.
  - by exists TRS.Empty.
  - exists (TRS.Single x). cbn. apply Forall_inv in Hptr.
    repeat split; try done; apply Hptr.
  - set (ws := x :: y :: vs) in *.
    replace (length ws =? 0)%nat with false by done.
    replace (length ws =? 1)%nat with false by done.
    destruct (build_tree_spec ws fuel 0 (length ws)) as (node & Hb & Ll & Sz & Dl & Bl);
      [lia | lia |].
    rewrite Hb. cbn [mbind res_bind].
    assert (Hnode : node ≠ TRS.Null).
    { eapply build_tree_not_Null; [exact Hb | subst ws; cbn; lia]. }
    rewrite Nat.sub_0_r, drop_0, firstn_all in Ll.
    replace (match node with TRS.Null => false | _ => true end) with true
      by (by destruct node).
    cbn [cassert mbind res_bind].
    rewrite compute_tree_size_spec by done. cbn [mbind res_bind].
    rewrite Ll, Nat.eqb_refl. cbn [cassert mbind res_bind].
    exists (TRS.Tree (sized node)). split; [done |].
    cbn [reader_set_wf readers_of]. rewrite live_sized, Ll.
    repeat split; try done.
    + by apply sized_not_Null.
    + exists (sized node). repeat split.
      * by apply no_deleted_sized.
      * by apply balanced_sized.
Qed.

(** C8, amended.  With the tree reader set of [reader_set.hpp]: a reader
    inserted into the empty set is stored inline with the tag bit clear; an
    insertion into a set that is not empty gives a tree, tag bit set, that
    holds the old readers and the new one; and [for_all] returns (given
    fuel for [build_tree]), calls [f] on every surviving reader in order and
    leaves the empty word if none survives, the one survivor inline with the
    tag bit clear, and otherwise a rebuilt tree, tag bit set, without marked
    nodes, size balanced at every node and holding exactly the survivors in
    the same order. *)
Theorem tree_reader_set_is_compacted_by_for_all (fuel : nat) (rs : TRS.t) (v : Z) :
  reader_set_wf rs → is_reader_ptr v → (length (readers_of rs) ≤ fuel)%nat →
  (∃ rs1, TRS.insert v rs = Done rs1
          ∧ reader_set_wf rs1
          ∧ readers_of rs1 ≡ₚ v :: readers_of rs
          ∧ match rs with
            | TRS.Empty => rs1 = TRS.Single v ∧ TRS.tag_bit rs1 = false
            | _ => ∃ root, rs1 = TRS.Tree root ∧ TRS.tag_bit rs1 = true
            end)
  ∧ (∃ rs2, TRS.for_all fuel rs = Done (readers_of rs, rs2)
            ∧ reader_set_wf rs2
            ∧ readers_of rs2 = readers_of rs
            ∧ match readers_of rs with
              | [] => rs2 = TRS.Empty
              | [x] => rs2 = TRS.Single x ∧ TRS.tag_bit rs2 = false
              | _ => ∃ root, rs2 = TRS.Tree root ∧ TRS.tag_bit rs2 = true
                             ∧ no_deleted root ∧ balanced root
              end).
Proof.
  intros Hwf Hv Hfuel. split.
  - destruct rs as [| item | root]; cbn [TRS.insert].
    + exists (TRS.Single v). unfold TRS.insert_single.
      destruct Hv as [Hv Hodd]. apply Z.eqb_neq in Hv. rewrite Hv.
      apply Z.eqb_neq in Hv. by repeat split.
    + destruct (insert_tree_spec v (TRS.new_Node item) Hv) as (root' & -> & Hn & Hp);
        [done |].
      exists (TRS.Tree root'). cbn [mbind res_bind reader_set_wf readers_of].
      split; [done |]. split; [split; [done |] |]. 
      * rewrite Hp. cbn. by repeat apply Forall_cons_2.
      * split; [done |]. by exists root'.
    + destruct Hwf as [Hroot Hall].
      destruct (insert_tree_spec v root Hv Hroot) as (root' & -> & Hn & Hp).
      exists (TRS.Tree root'). cbn [mbind res_bind reader_set_wf readers_of].
      split; [done |]. split; [split; [done |] |]. 
      * rewrite Hp. by apply Forall_cons_2.
      * split; [done |]. by exists root'.
  - destruct rs as [| item | root].
    + by exists TRS.Empty.
    + exists (TRS.Single item). cbn. destruct Hwf as [Hi Hodd].
      apply Z.eqb_neq in Hi. rewrite Hi. apply Z.eqb_neq in Hi. by repeat split.
    + destruct Hwf as [Hroot Hall]. by apply for_all_tree_spec.
Qed.

(** Four readers inserted into an empty tree reader set, one of them removed
    again. *)
Definition sample_tree_set : TRS.t :=
  match rs ← TRS.insert 8 TRS.Empty; rs ← TRS.insert 16 rs;
        rs ← TRS.insert 24 rs; rs ← TRS.insert 32 rs; TRS.remove 16 rs with
  | Done rs => rs
  | _ => TRS.Empty
  end.

Lemma tree_reader_set_witness :
  ∃ rs2, TRS.for_all 3 sample_tree_set = Done (readers_of sample_tree_set, rs2)
         ∧ reader_set_wf rs2
         ∧ readers_of rs2 = readers_of sample_tree_set
         ∧ match readers_of sample_tree_set with
           | [] => rs2 = TRS.Empty
           | [x] => rs2 = TRS.Single x ∧ TRS.tag_bit rs2 = false
           | _ => ∃ root, rs2 = TRS.Tree root ∧ TRS.tag_bit rs2 = true
                          ∧ no_deleted root ∧ balanced root
           end.
Proof.
  refine (proj2 (tree_reader_set_is_compacted_by_for_all 3 sample_tree_set 40 _ _ _)).
  - vm_compute. split; [discriminate |].
    repeat (apply Forall_cons_2 || apply Forall_nil_2);
      (split; [discriminate | reflexivity]).
  - split; [discriminate | reflexivity].
  - vm_compute. lia.
Defined.

(** Counterexample to C8 as stated, in the default build (the list reader
    set of [concurrent_set.hpp]): two readers are inserted and one removed;
    [for_all] visits the survivor and leaves it in a one-node list, the low
    bit of the word still set, not inline. *)
Lemma list_reader_set_keeps_one_survivor_in_a_list :
  ∃ rs, (rs ← CRS.insert 8 CRS.Empty; rs ← CRS.insert 16 rs; CRS.remove 16 rs) = Done rs
        ∧ CRS.for_all rs
          = ([8], CRS.Linked [{| CRS.value := 8; CRS.deleted := false |}])
        ∧ (CRS.for_all rs).2 ≠ CRS.Single 8
        ∧ CRS.tag_bit (CRS.for_all rs).2 = true.
Proof.
  eexists. split; [vm_compute; reflexivity |].
  split; [reflexivity |]. split; [discriminate | reflexivity].
Qed.

(** The list reader set: [for_all] calls [f] on the unmarked readers in list
    order and unlinks the marked nodes; the word is empty afterwards exactly
    when no node is left, and a list otherwise, also of one node. *)
Theorem list_for_all_unlinks_the_deleted_nodes (l : list CRS.Node) :
  CRS.for_all (CRS.Linked l)
  = (CRS.value <$> filter (λ n, CRS.deleted n = false) l,
     match filter (λ n, CRS.deleted n = false) l with
     | [] => CRS.Empty
     | keep => CRS.Linked keep
     end).
Proof.
  unfold CRS.for_all.
  assert (E : CRS.for_all_loop l
              = (CRS.value <$> filter (λ n, CRS.deleted n = false) l,
                 filter (λ n, CRS.deleted n = false) l)).
  { induction l as [| node next IH]; [done |].
    cbn [CRS.for_all_loop]. rewrite IH.
    destruct (CRS.deleted node) eqn:D.
    - rewrite filter_cons_False by congruence. done.
    - rewrite filter_cons_True by done. done. }
  rewrite E. by destruct (filter _ l).
Qed.

(** ** A chain of two reads *)

(** [b := a + 1], then [c := b + a], on the modifiables 8, 16 and 24. *)
Definition two_steps : list (@step Z) :=
  [ {| srcs := [8]; dst := 16;
       fn := λ vs, match vs with [x] => x + 1 | _ => 0 end |};
    {| srcs := [16; 8]; dst := 24;
       fn := λ vs, match vs with [x; y] => x + y | _ => 0 end |} ].

Definition two_steps_inputs : int_state :=
  match apply_writes int_ne 8 [(8, 1)] (fresh_state [8; 16; 24]) with
  | Done s => s
  | _ => fresh_state []
  end.

Definition two_steps_ran : res (Z * int_state) :=
  run int_ne 0 0 8 (chain two_steps) two_steps_inputs.
Definition two_steps_changed : res (Z * int_state) :=
  s ← apply_writes int_ne 8 [(8, 5)] (the_state two_steps_ran);
  Done (the_root two_steps_ran, s).
Definition two_steps_propagated : res (Z * int_state) :=
  s ← update int_ne 0 0 8 (Some (the_root two_steps_ran)) (the_state two_steps_changed);
  Done (the_root two_steps_ran, s).
Definition two_steps_rewritten : res (Z * int_state) :=
  s ← apply_writes int_ne 8 [(8, 5)] two_steps_inputs; Done (0, s).
Definition two_steps_from_scratch : res (Z * int_state) :=
  run int_ne 0 0 8 (chain two_steps) (the_state two_steps_rewritten).

Lemma int_ne_sound (x y : Z) : int_ne x y = false → x = y.
Proof. unfold int_ne. intros H. apply negb_false_iff in H. by apply Z.eqb_eq. Qed.

Lemma two_steps_forward : forward two_steps.
Proof.
  intros i j sti stj Hi Hj.
  destruct i as [| [| i]], j as [| [| j]]; try discriminate;
    injection Hi as <-; injection Hj as <-; cbn;
    (split; [intros Hle; try lia | intros Hne; try done]);
    intros Hin; repeat (apply elem_of_cons in Hin as [Hin | Hin]; [discriminate |]);
    by apply elem_of_nil in Hin.
Qed.

Lemma fresh_mods_fresh_state l : fresh_mods (fresh_state l).
Proof.
  intros m md H. unfold fresh_state in H. cbn in H.
  induction l as [| a l IH]; cbn in H.
  - by rewrite lookup_empty in H.
  - destruct (decide (a = m)) as [-> | Hne].
    + rewrite lookup_insert_eq in H. by injection H as <-.
    + rewrite lookup_insert_ne in H by done. by apply IH.
Qed.


Lemma chain_clean_witness :
  quiet (the_state two_steps_propagated) (Some (the_root two_steps_ran)).
Proof.
  apply (propagation_of_a_chain_leaves_a_clean_trace int_ne 0 0
           8 8 8 two_steps [(8, 5)]
           two_steps_inputs (the_state two_steps_ran) (the_state two_steps_changed)
           (the_state two_steps_propagated) (the_root two_steps_ran)).
  - exact int_ne_sound.
  - apply (bool_decide_unpack _). vm_compute. reflexivity.
  - vm_compute. reflexivity.
  - vm_compute. eauto.
  - destruct (apply_writes_fresh int_ne 0 int_ne_sound 8 [(8, 1)]
                (fresh_state [8; 16; 24]) two_steps_inputs) as [F _];
      [apply fresh_mods_fresh_state | vm_compute; reflexivity | exact F].
  - exact two_steps_forward.
  - intros w Hw. apply list_elem_of_singleton in Hw as ->. cbn.
    intros Hin. repeat (apply elem_of_cons in Hin as [Hin | Hin]; [discriminate |]).
    by apply elem_of_nil in Hin.
  - vm_compute. reflexivity.
  - vm_compute. reflexivity.
  - vm_compute. reflexivity.
Defined.

(** ** A merge of dependency lists *)

(** The reader 4104 is registered with the modifiables 8 and 16. *)
Definition merge_sample : int_state :=
  match s ← apply_writes int_ne 8 [(8, 1); (16, 2); (24, 3)] (fresh_state [8; 16; 24]);
        s ← add_reader 8 4104 s; add_reader 16 4104 s with
  | Done s => s
  | _ => fresh_state []
  end.

Definition merge_sample_merged : int_state :=
  match merge_readers 4104 [8; 16] [16; 24] merge_sample with
  | Done s => s
  | _ => fresh_state []
  end.

Lemma merge_readers_witness :
  ∃ h, history merge_sample_merged = history merge_sample ++ h
       ∧ merge_events_ok 4104 [8; 16] [16; 24] h.
Proof.
  apply (merge_readers_without_duplicates 4104 [8; 16] [16; 24]
           merge_sample merge_sample_merged).
  - repeat constructor.
  - repeat constructor.
  - vm_compute. reflexivity.
Defined.
